(** * DecodeFile (lib/jxl/dec_file.cc): ICC redistribution and frame sequencing

    A shallow embedding of the two stateful blocks of [DecodeFile]:

    - lines 125-145, "Set ICC profile in jpeg_data": the decoded ICC profile is
      copied piecewise into the APP markers of the JPEG reconstruction data
      that are tagged [kICC];
    - lines 164-180, the frame loop: frames are decoded until one carries
      [is_last], frames that are not displayed being decoded into the slot
      of the next displayed one.

    [size_t] and [uint64_t] values are integers of [Z] with the wrap-around
    of 64-bit unsigned arithmetic written out.  Vectors are lists, read with
    stdpp's lookup [l !! i] and overwritten with [<[i:=x]> l]; an access
    outside a vector, which is undefined behaviour in C++, is the outcome
    [Undefined] of the model.  Functions and types that dec_file.cc only
    uses (DecodeFrame, ImageBundle, the enums of jpeg_data.h and
    frame_header.h) are variables of the sections below. *)

From Stdlib Require Import ZArith Lia Strings.Byte.
From stdpp Require Import base tactics option numbers list.

Local Open Scope Z_scope.

(** ** Machine integers and byte buffers *)

Abbreviation uint8_t := Byte.byte.

(** [size_t] is a 64-bit unsigned integer (LP64). *)
Definition size_t_modulus : Z := 2 ^ 64.

Definition size_t_wrap (z : Z) : Z := z `mod` size_t_modulus.

Definition size_t_add (a b : Z) : Z := size_t_wrap (a + b).

Definition size_t_sub (a b : Z) : Z := size_t_wrap (a - b).

Definition size_t_mul (a b : Z) : Z := size_t_wrap (a * b).

(** [v.size()] of a vector or of a PaddedBytes. *)
Definition size {A : Type} (v : list A) : Z := Z.of_nat (length v).

(** The [len] elements of [src] that start at index [pos]. *)
Definition slice {A : Type} (src : list A) (pos len : Z) : list A :=
  take (Z.to_nat len) (drop (Z.to_nat pos) src).

(** [memcpy(&dst[off], src.data() + pos, len)].  The statement is defined
    when [dst[off]] is an element of [dst] ([operator[]] of a vector asks
    for an index below [size()], also when no byte is copied), the [len]
    bytes read lie inside [src] and the [len] bytes written lie inside
    [dst]; it then overwrites [dst[off .. off+len)] and nothing else. *)
Definition memcpy (dst : list uint8_t) (off : Z) (src : list uint8_t)
    (pos len : Z) : option (list uint8_t) :=
  if bool_decide (off < size dst ∧ off + len ≤ size dst ∧ pos + len ≤ size src)
  then
    Some (take (Z.to_nat off) dst ++ slice src pos len
            ++ drop (Z.to_nat (off + len)) dst)
  else None.

(** ** Status and control flow *)

(** A [Status] is success or failure; [JXL_FAILURE(msg)] builds a failure.
    The failures built by the blocks modelled here are told apart by their
    message, with the values printed into it; a failure returned by a
    function of another file is [Callee_failure]. *)
Inductive Failure : Type :=
  | ICC_length_is_less_than_APP_markers (requested available : Z)
  | ICC_length_is_more_than_APP_markers
  | Callee_failure.

Inductive Status : Type :=
  | StatusOk
  | StatusFailure (why : Failure).

(** The ways a statement of [DecodeFile] can end, with the state it leaves
    behind: control reaches the next statement, a [return] is executed
    (here always through JXL_FAILURE or JXL_RETURN_IF_ERROR), the behaviour
    is undefined, or a loop is still running when the fuel of the model is
    used up. *)
Inductive flow (S : Type) : Type :=
  | Next (s : S)
  | Return (st : Status) (s : S)
  | Undefined
  | OutOfFuel.

Arguments Next {S} s.
Arguments Return {S} st s.
Arguments Undefined {S}.
Arguments OutOfFuel {S}.

(** Sequencing: the rest of the block runs only when control reaches it. *)
Definition flow_bind {S : Type} (c : flow S) (k : S → flow S) : flow S :=
  match c with
  | Next s => k s
  | other => other
  end.

Notation "s <~ c ;; k" := (flow_bind c (λ s, k))
  (at level 100, c at next level, right associativity, only parsing).

(** ** Set ICC profile in jpeg_data (lines 125-145) *)

Section SetICC.

(** [jpeg::AppMarkerType] is declared in jpeg_data.h; dec_file.cc compares
    its values with [kICC] and does nothing else with them. *)
Context {AppMarkerType : Type} `{EqDecision AppMarkerType}.
Variable kICC : AppMarkerType.

(** The two vectors of [jpeg::JPEGData] that the block reads and writes. *)
Record JPEGData : Type := mkJPEGData {
  app_data : list (list uint8_t);
  app_marker_type : list AppMarkerType
}.

(** Local variables of the block that the loop changes. *)
Record icc_state : Type := mkIccState {
  icc_jpeg_data : JPEGData;
  icc_pos : Z
}.

(** The body of the [for] loop at index [i] (lines 129-140). *)
Definition icc_loop_body (icc : list uint8_t) (i : nat) (s : icc_state)
    : flow icc_state :=
  match app_marker_type (icc_jpeg_data s) !! i with
  | None => Undefined
  | Some t =>
    if decide (t ≠ kICC) then Next s
    else
      match app_data (icc_jpeg_data s) !! i with
      | None => Undefined
      | Some d =>
        let len := size_t_sub (size d) 17 in
        if bool_decide (size_t_add (icc_pos s) len > size icc) then
          Return
            (StatusFailure
               (ICC_length_is_less_than_APP_markers len
                  (size_t_sub (size icc) (icc_pos s))))
            s
        else
          match memcpy d 17 icc (icc_pos s) len with
          | None => Undefined
          | Some d' =>
            Next {| icc_jpeg_data :=
                      {| app_data := <[i := d']> (app_data (icc_jpeg_data s));
                         app_marker_type := app_marker_type (icc_jpeg_data s) |};
                    icc_pos := size_t_add (icc_pos s) len |}
          end
      end
  end.

(** [for (size_t i = ...; i < jpeg_data->app_data.size(); i++)] with [n]
    iterations left, the next one at index [i].  The body overwrites
    elements of [app_data] and never resizes it, so the bound is the
    number of markers on entry. *)
Fixpoint icc_loop (icc : list uint8_t) (n : nat) (i : nat) (s : icc_state)
    : flow icc_state :=
  match n with
  | O => Next s
  | S n' =>
    s' <~ icc_loop_body icc i s ;;
    icc_loop icc n' (S i) s'
  end.

(** The whole block: [if (jpeg_data) { ... }].  [jpeg_data] is the local
    [unique_ptr], [None] when null; [icc] is
    [io->metadata.m.color_encoding.ICC()]. *)
Definition SetICCInJpegData (icc : list uint8_t) (jpeg_data : option JPEGData)
    : flow (option JPEGData) :=
  match jpeg_data with
  | None => Next None
  | Some jd =>
    match icc_loop icc (length (app_data jd)) 0 (mkIccState jd 0) with
    | Next s =>
      if bool_decide (icc_pos s ≠ size icc) && bool_decide (icc_pos s ≠ 0)
      then Return (StatusFailure ICC_length_is_more_than_APP_markers)
             (Some (icc_jpeg_data s))
      else Next (Some (icc_jpeg_data s))
    | Return st s => Return st (Some (icc_jpeg_data s))
    | Undefined => Undefined
    | OutOfFuel => OutOfFuel
    end
  end.

(** *** What the block is expected to do *)

(** Bytes of the profile that the marker at index [i] takes when it is
    tagged [kICC]: its bytes after the 17-byte header. *)
Definition icc_bytes_at (jd : JPEGData) (i : nat) : Z :=
  match app_marker_type jd !! i, app_data jd !! i with
  | Some t, Some d => if decide (t = kICC) then size d - 17 else 0
  | _, _ => 0
  end.

(** Running offset at marker [i]: the sum of the slice lengths of the
    [kICC] markers before it. *)
Fixpoint icc_offset (jd : JPEGData) (i : nat) : Z :=
  match i with
  | O => 0
  | S j => icc_offset jd j + icc_bytes_at jd j
  end.

(** Marker [i] with bytes [d], once the markers before index [k] have
    received their slices. *)
Definition marker_after (icc : list uint8_t) (jd : JPEGData) (k : nat)
    (i : nat) (d : list uint8_t) : list uint8_t :=
  if bool_decide (i < k)%nat && bool_decide (app_marker_type jd !! i = Some kICC)
  then take 17 d ++ slice icc (icc_offset jd i) (size d - 17)
  else d.

Definition redistributed (icc : list uint8_t) (jd : JPEGData) (k : nat)
    : list (list uint8_t) :=
  imap (marker_after icc jd k) (app_data jd).

(** The payload in which the markers before [k] have their slices. *)
Definition payload_after (icc : list uint8_t) (jd : JPEGData) (k : nat)
    : JPEGData :=
  mkJPEGData (redistributed icc jd k) (app_marker_type jd).

(** The profile and any marker are distinct objects of one 64-bit address
    space. *)
Definition addressable (icc : list uint8_t) (jd : JPEGData) : Prop :=
  ∀ i d, app_data jd !! i = Some d → size icc + size d < size_t_modulus.

(** Every [kICC] marker has the 17 bytes of its header. *)
Definition icc_markers_have_header (jd : JPEGData) : Prop :=
  ∀ i d, app_marker_type jd !! i = Some kICC → app_data jd !! i = Some d →
         17 ≤ size d.

(** The payload as the data model has it: one tag per marker, a header in
    every [kICC] marker, and sizes that [size_t] can hold. *)
Definition well_formed (icc : list uint8_t) (jd : JPEGData) : Prop :=
  length (app_marker_type jd) = length (app_data jd) ∧
  icc_markers_have_header jd ∧
  addressable icc jd.

(** The [kICC] marker at index [i] needs more bytes of the profile than
    the markers before it have left. *)
Definition needs_more_than_left (icc : list uint8_t) (jd : JPEGData)
    (i : nat) : Prop :=
  ∃ d, app_marker_type jd !! i = Some kICC ∧ app_data jd !! i = Some d ∧
       size d - 17 > size icc - icc_offset jd i.

(** State of the loop when the markers before index [k] have been
    processed. *)
Definition processed (icc : list uint8_t) (jd : JPEGData) (k : nat)
    (s : icc_state) : Prop :=
  app_marker_type (icc_jpeg_data s) = app_marker_type jd ∧
  app_data (icc_jpeg_data s) = redistributed icc jd k ∧
  icc_pos s = icc_offset jd k ∧
  0 ≤ icc_offset jd k ≤ size icc ∧
  (∀ j d, (j < k)%nat → app_marker_type jd !! j = Some kICC →
          app_data jd !! j = Some d → 17 < size d).

End SetICC.

Arguments JPEGData : clear implicits.
Arguments icc_state : clear implicits.

(** *** The payload seen from outside the block *)

Section ICCPayload.

Context {AppMarkerType : Type} `{EqDecision AppMarkerType}.
Variable kICC : AppMarkerType.

(** The bytes of a profile that a payload carries: what follows the
    17-byte header in its [kICC] markers, in the order of the markers. *)
Definition icc_from_markers (jd : JPEGData AppMarkerType) : list uint8_t :=
  concat (zip_with (λ t d, if decide (t = kICC) then drop 17 d else [])
            (app_marker_type jd) (app_data jd)).

(** Every [kICC] marker has a byte after the 17 bytes of its header, so
    that [app_data[i][17]] is one of its elements. *)
Definition icc_markers_have_room (jd : JPEGData AppMarkerType) : Prop :=
  ∀ i d, app_marker_type jd !! i = Some kICC → app_data jd !! i = Some d →
         17 < size d.

(** [jd'] has the tags of [jd], and marker for marker the size and the
    first 17 bytes of [jd]. *)
Definition same_layout (jd jd' : JPEGData AppMarkerType) : Prop :=
  app_marker_type jd' = app_marker_type jd ∧
  Forall2 (λ d d', size d' = size d ∧ take 17 d' = take 17 d)
    (app_data jd) (app_data jd').

End ICCPayload.

(** ** The frame loop (lines 164-180) *)

Section FrameLoop.

(** [FrameType] is declared in frame_header.h; the loop compares the type
    of the decoded frame with these two values. *)
Context {FrameType : Type} `{EqDecision FrameType}.
Variables kRegularFrame kSkipProgressive : FrameType.

(** The fields of [dec_state.shared->frame_header] that the loop reads. *)
Record FrameHeader : Type := mkFrameHeader {
  frame_type : FrameType;
  is_last : bool
}.

(** Types of other files, with what dec_file.cc does with their values. *)
Context {PassesDecoderState BitReader ImageBundle JpegPayload : Type}.

(** [dec_state.shared->frame_header] *)
Variable frame_header : PassesDecoderState → FrameHeader.

(** [ImageBundle(&io->metadata.m)], the element that [emplace_back]
    constructs; the metadata does not change during the loop. *)
Variable new_ImageBundle : ImageBundle.

(** [ib.jpeg_data = std::move(jpeg_data)] *)
Variable set_jpeg_data : ImageBundle → JpegPayload → ImageBundle.

(** [ib.xsize()] and [ib.ysize()], of type [size_t]. *)
Variables xsize ysize : ImageBundle → Z.

(** The members of [CodecInOut] that the loop changes. *)
Record CodecInOut : Type := mkCodecInOut {
  frames : list ImageBundle;
  dec_pixels : Z
}.

(** [DecodeFrame(dparams, &dec_state, pool, &reader, aux_out, decoded,
    io->metadata, io)]: it reads [io], and changes the decoder state, the
    reader and the bundle [decoded] points to, also when it fails.  The
    result is its status with the three values it leaves behind. *)
Variable DecodeFrame :
  PassesDecoderState → BitReader → ImageBundle → CodecInOut →
  Status * (PassesDecoderState * BitReader * ImageBundle).

(** Local variables of [DecodeFile] and the object behind [io], as the
    loop sees them. *)
Record loop_state : Type := mkLoopState {
  jpeg_data : option JpegPayload;
  dec_state : PassesDecoderState;
  reader : BitReader;
  io : CodecInOut
}.

(** [v.back() = f]: the last element is overwritten, the size of the
    vector stays. *)
Definition set_back (f : ImageBundle) (v : list ImageBundle)
    : list ImageBundle :=
  <[pred (length v) := f]> v.

Definition with_frames (s : loop_state) (v : list ImageBundle) : loop_state :=
  {| jpeg_data := jpeg_data s; dec_state := dec_state s; reader := reader s;
     io := {| frames := v; dec_pixels := dec_pixels (io s) |} |}.

(** [io->frames.emplace_back(&io->metadata.m);] *)
Definition emplace_back_frame (s : loop_state) : loop_state :=
  with_frames s (frames (io s) ++ [new_ImageBundle]).

(** [if (jpeg_data) { io->frames.back().jpeg_data = std::move(jpeg_data); }]
    A moved-from [unique_ptr] is null. *)
Definition move_jpeg_data (s : loop_state) : flow loop_state :=
  match jpeg_data s with
  | None => Next s
  | Some payload =>
    match last (frames (io s)) with
    | None => Undefined
    | Some b =>
      Next {| jpeg_data := None; dec_state := dec_state s; reader := reader s;
              io := {| frames := set_back (set_jpeg_data b payload) (frames (io s));
                       dec_pixels := dec_pixels (io s) |} |}
    end
  end.

(** The inner [do ... while] (lines 171-178), "Skip frames that are not
    displayed": every pass decodes into [io->frames.back()]. *)
Fixpoint decode_until_displayed (fuel : nat) (s : loop_state)
    : flow loop_state :=
  match fuel with
  | O => OutOfFuel
  | S fuel' =>
    match last (frames (io s)) with
    | None => Undefined
    | Some slot =>
      let '(st, (ds, r, decoded)) :=
        DecodeFrame (dec_state s) (reader s) slot (io s) in
      let s' :=
        {| jpeg_data := jpeg_data s; dec_state := ds; reader := r;
           io := {| frames := set_back decoded (frames (io s));
                    dec_pixels := dec_pixels (io s) |} |} in
      match st with
      | StatusFailure _ => Return st s'
      | StatusOk =>
        if bool_decide (frame_type (frame_header ds) ≠ kRegularFrame)
           && bool_decide (frame_type (frame_header ds) ≠ kSkipProgressive)
        then decode_until_displayed fuel' s'
        else Next s'
      end
    end
  end.

(** [io->dec_pixels += io->frames.back().xsize() * io->frames.back().ysize();]
    in 64-bit unsigned arithmetic. *)
Definition count_pixels (s : loop_state) : flow loop_state :=
  match last (frames (io s)) with
  | None => Undefined
  | Some b =>
    Next {| jpeg_data := jpeg_data s; dec_state := dec_state s;
            reader := reader s;
            io := {| frames := frames (io s);
                     dec_pixels :=
                       size_t_add (dec_pixels (io s))
                                  (size_t_mul (xsize b) (ysize b)) |} |}
  end.

(** The body of the outer [do ... while] (lines 166-179). *)
Definition frame_iteration (inner_fuel : nat) (s : loop_state)
    : flow loop_state :=
  s1 <~ move_jpeg_data (emplace_back_frame s) ;;
  s2 <~ decode_until_displayed inner_fuel s1 ;;
  count_pixels s2.

(** The outer [do ... while (!dec_state.shared->frame_header.is_last)]. *)
Fixpoint decode_frames (inner_fuel fuel : nat) (s : loop_state)
    : flow loop_state :=
  match fuel with
  | O => OutOfFuel
  | S fuel' =>
    s' <~ frame_iteration inner_fuel s ;;
    if negb (is_last (frame_header (dec_state s')))
    then decode_frames inner_fuel fuel' s'
    else Next s'
  end.

(** [io->frames.clear();] followed by the loop.  [fuel] bounds the number
    of passes of each of the two loops. *)
Definition frame_sequencer (fuel : nat) (s : loop_state) : flow loop_state :=
  decode_frames fuel fuel (with_frames s []).

(** *** What the loop is expected to do *)

(** Frame types that are displayed. *)
Definition is_displayed (t : FrameType) : Prop :=
  t = kRegularFrame ∨ t = kSkipProgressive.

(** [f] is what a successful call of DecodeFrame left in its slot, and the
    frame header that this call left in the decoder state has a displayed
    type. *)
Definition decoded_as_displayed (f : ImageBundle) : Prop :=
  ∃ ds r slot io0,
    let '(st, (ds', _, f')) := DecodeFrame ds r slot io0 in
    st = StatusOk ∧ f' = f ∧ is_displayed (frame_type (frame_header ds')).

End FrameLoop.

Arguments FrameHeader : clear implicits.
Arguments CodecInOut : clear implicits.
Arguments loop_state : clear implicits.

(** ** DecodeHeaders, DecodePreview and the whole of DecodeFile *)

(** The failures that [DecodeFile] and [DecodePreview] build outside of the
    two blocks above, by their message. *)
Inductive Message : Type :=
  | File_does_not_start_with_known_JPEG_XL_signature
  | Caller_must_set_jpeg_data
  | preview_is_kOn_but_no_preview_present
  | Cannot_decode_to_JPEG_an_animation
  | DecodeFile_reader_position_not_at_EOF.

(** The status that a function of dec_file.cc returns: success, one of its
    own failures, or a failure of a callee or of the two blocks above that
    JXL_RETURN_IF_ERROR hands on. *)
Inductive FileStatus : Type :=
  | FileOk
  | FileFailure (msg : Message)
  | FileError (why : Failure).

Definition of_Status (st : Status) : FileStatus :=
  match st with
  | StatusOk => FileOk
  | StatusFailure why => FileError why
  end.

(** The ways a statement of the body of [DecodeFile] can end: control goes
    on, the function returns, the behaviour is undefined, or the model is
    out of fuel. *)
Inductive run (S : Type) : Type :=
  | Continue (s : S)
  | Exit (st : FileStatus) (s : S)
  | RunUndefined
  | RunOutOfFuel.

Arguments Continue {S} s.
Arguments Exit {S} st s.
Arguments RunUndefined {S}.
Arguments RunOutOfFuel {S}.

Definition run_bind {S : Type} (c : run S) (k : S → run S) : run S :=
  match c with
  | Continue s => k s
  | other => other
  end.

Notation "s <<~ c ;; k" := (run_bind c (λ s, k))
  (at level 100, c at next level, right associativity, only parsing).

(** [JXL_RETURN_IF_ERROR(st)] in state [s]. *)
Definition return_if_error {S : Type} (st : Status) (s : S) : run S :=
  match st with
  | StatusOk => Continue s
  | StatusFailure why => Exit (FileError why) s
  end.

(** What holds at the end of a statement: [Q] when control goes on, [E] when
    the function returns, [U] and [F] for undefined behaviour and for the
    end of the fuel. *)
Definition run_post {S : Type} (Q : S → Prop) (E : FileStatus → S → Prop)
    (U F : Prop) (c : run S) : Prop :=
  match c with
  | Continue s => Q s
  | Exit st s => E st s
  | RunUndefined => U
  | RunOutOfFuel => F
  end.

Section DecodeFile.

Context {AppMarkerType : Type} `{EqDecision AppMarkerType}.
Variable kICC : AppMarkerType.
Context {FrameType : Type} `{EqDecision FrameType}.
Variables kRegularFrame kSkipProgressive : FrameType.

(** [JxlSignature] and [JxlSignatureCheck] of jxl/decode.h. *)
Context {JxlSignature : Type} `{EqDecision JxlSignature}.
Variables JXL_SIG_NOT_ENOUGH_BYTES JXL_SIG_INVALID : JxlSignature.
Variable JxlSignatureCheck : list uint8_t → JxlSignature.

(** [Override] of override.h. *)
Context {Override : Type} `{EqDecision Override}.
Variables kOn kOff : Override.

(** The members of [DecompressParams] that dec_file.cc reads. *)
Record DecompressParams : Type := mkDecompressParams {
  keep_dct : bool;
  preview : Override;
  check_decompressed_size : bool;
  allow_partial_files : bool;
  max_downsampling : Z
}.

(** Types of other files. *)
Context {BitReader PassesDecoderState ImageBundle : Type}.
Context {SizeHeader ColorEncoding CustomTransformData OtherMetadata : Type}.

(** The members of [ImageMetadata] that dec_file.cc reads or writes, and
    the others. *)
Record ImageMetadata : Type := mkImageMetadata {
  xyb_encoded : bool;
  have_preview : bool;
  have_animation : bool;
  color_encoding : ColorEncoding;
  other_metadata : OtherMetadata
}.

Record CodecMetadata : Type := mkCodecMetadata {
  size_header : SizeHeader;
  m : ImageMetadata;
  transform_data : CustomTransformData
}.

(** The members of [CodecInOut] that [DecodeFile] uses; [frames] and
    [dec_pixels] are kept together as the frame loop has them. *)
Record WholeCodecInOut : Type := mkWholeCodecInOut {
  metadata : CodecMetadata;
  preview_frame : ImageBundle;
  frames_and_pixels : CodecInOut ImageBundle
}.

(** *** Functions of other files

    Each is a function of what it is handed, and gives its status with
    what it leaves in the objects it is handed for writing. *)

(** [ReadSizeHeader(reader, &size)], [ReadImageMetadata(reader, &m)] and
    [Bundle::Read(reader, &transform_data)] *)
Variable ReadSizeHeader :
  BitReader → SizeHeader → Status * (BitReader * SizeHeader).
Variable ReadImageMetadata :
  BitReader → ImageMetadata → Status * (BitReader * ImageMetadata).
Variable Bundle_Read :
  BitReader → CustomTransformData → Status * (BitReader * CustomTransformData).

(** [transform_data.nonserialized_xyb_encoded = b] *)
Variable set_nonserialized_xyb_encoded :
  CustomTransformData → bool → CustomTransformData.

(** [metadata.xsize()], [metadata.ysize()], [io->VerifyDimensions(xsize, ysize)] *)
Variables metadata_xsize metadata_ysize : CodecMetadata → Z.
Variable VerifyDimensions : WholeCodecInOut → Z → Z → Status.

(** [color_encoding.WantICC()], [ReadICC(&reader, &icc)],
    [color_encoding.SetICC(std::move(icc))], [color_encoding.ICC()] *)
Variable WantICC : ColorEncoding → bool.
Variable ReadICC : BitReader → Status * (BitReader * list uint8_t).
Variable SetICC : ColorEncoding → list uint8_t → Status * ColorEncoding.
Variable ICC : ColorEncoding → list uint8_t.

(** [BitReader reader(file)], [reader.ReadFixedBits<16>()],
    [reader.JumpToByteBoundary()], [reader.TotalBitsConsumed()],
    [reader.AllReadsWithinBounds()], [reader.Close()] *)
Variable BitReader_new : list uint8_t → BitReader.
Variable ReadFixedBits_16 : BitReader → Z * BitReader.
Variable JumpToByteBoundary : BitReader → Status * BitReader.
Variable TotalBitsConsumed : BitReader → Z.
Variable AllReadsWithinBounds : BitReader → bool.
Variable Close : BitReader → Status * BitReader.

(** [kBitsPerByte] of common.h. *)
Variable kBitsPerByte : Z.

(** What the destructor of [BitReaderScopedCloser reader_closer(&reader,
    &ret)] leaves in [ret], which is [true] until then, for the reader as
    it is at the end of the scope. *)
Variable BitReaderScopedCloser_ret : BitReader → Status.

(** [SkipFrame(metadata, reader, is_preview)] *)
Variable SkipFrame : CodecMetadata → BitReader → bool → Status * BitReader.

(** [DecodeFrame(dparams, &dec_state, pool, reader, aux_out, decoded,
    metadata, constraints, is_preview)], [constraints] being [nullptr] or
    [io]. *)
Variable DecodeFrame_ :
  DecompressParams → PassesDecoderState → BitReader → ImageBundle →
  CodecMetadata → option WholeCodecInOut → bool →
  Status * (PassesDecoderState * BitReader * ImageBundle).

(** [PassesDecoderState dec_state;], its members
    [shared->frame_dim.xsize_upsampled], [shared->frame_dim.ysize_upsampled]
    and [shared->frame_header], and the assignment
    [dec_state.do_colorspace_transform = ...] of lines 159-162. *)
Variable new_PassesDecoderState : PassesDecoderState.
Variables xsize_upsampled ysize_upsampled : PassesDecoderState → Z.
Variable frame_header_ : PassesDecoderState → FrameHeader FrameType.
Variable set_do_colorspace_transform : PassesDecoderState → PassesDecoderState.

(** [ImageBundle(&metadata.m)], [ib.jpeg_data = std::move(p)], [ib.xsize()]
    and [ib.ysize()] *)
Variable ImageBundle_new : ImageMetadata → ImageBundle.
Variable ImageBundle_set_jpeg_data :
  ImageBundle → JPEGData AppMarkerType → ImageBundle.
Variables ImageBundle_xsize ImageBundle_ysize : ImageBundle → Z.

(** [io->Main().jpeg_data], [None] for a null pointer, and [io] once
    [std::move] has taken that pointer away. *)
Variable Main_jpeg_data :
  WholeCodecInOut → option (JPEGData AppMarkerType).
Variable Main_jpeg_data_moved : WholeCodecInOut → WholeCodecInOut.

(** [io->CheckMetadata()] *)
Variable CheckMetadata : WholeCodecInOut → WholeCodecInOut.

(** *** DecodeHeaders (lines 38-48) *)

Definition DecodeHeaders (reader : BitReader) (md : CodecMetadata)
    : Status * (BitReader * CodecMetadata) :=
  let '(st1, (reader1, sz)) := ReadSizeHeader reader (size_header md) in
  let md1 := {| size_header := sz; m := m md;
                transform_data := transform_data md |} in
  match st1 with
  | StatusFailure _ => (st1, (reader1, md1))
  | StatusOk =>
    let '(st2, (reader2, m2)) := ReadImageMetadata reader1 (m md1) in
    let md2 := {| size_header := sz; m := m2;
                  transform_data := transform_data md |} in
    match st2 with
    | StatusFailure _ => (st2, (reader2, md2))
    | StatusOk =>
      let td := set_nonserialized_xyb_encoded (transform_data md2)
                  (xyb_encoded (m md2)) in
      let '(st3, (reader3, td3)) := Bundle_Read reader2 td in
      let md3 := {| size_header := sz; m := m2; transform_data := td3 |} in
      match st3 with
      | StatusFailure _ => (st3, (reader3, md3))
      | StatusOk => (StatusOk, (reader3, md3))
      end
    end
  end.

(** *** DecodePreview (lines 52-83) *)

(** What [DecodePreview] is handed for writing: the reader, the bundle
    [preview] and the counter [dec_pixels], [None] for a null pointer. *)
Record preview_state : Type := mkPreviewState {
  pv_reader : BitReader;
  pv_preview : ImageBundle;
  pv_dec_pixels : option Z
}.

Definition DecodePreview (dparams : DecompressParams) (md : CodecMetadata)
    (s : preview_state) : FileStatus * preview_state :=
  if negb (have_preview (m md)) then
    if decide (preview dparams = kOn)
    then (FileFailure preview_is_kOn_but_no_preview_present, s)
    else (FileOk, s)
  else
    let '(st1, reader1) := JumpToByteBoundary (pv_reader s) in
    let s1 := {| pv_reader := reader1; pv_preview := pv_preview s;
                 pv_dec_pixels := pv_dec_pixels s |} in
    match st1 with
    | StatusFailure why => (FileError why, s1)
    | StatusOk =>
      if decide (preview dparams = kOff) then
        let '(st2, reader2) := SkipFrame md reader1 true in
        let s2 := {| pv_reader := reader2; pv_preview := pv_preview s;
                     pv_dec_pixels := pv_dec_pixels s |} in
        match st2 with
        | StatusFailure why => (FileError why, s2)
        | StatusOk => (FileOk, s2)
        end
      else
        let '(st2, (dec_state, reader2, decoded)) :=
          DecodeFrame_ dparams new_PassesDecoderState reader1 (pv_preview s)
            md None true in
        match st2 with
        | StatusFailure why =>
          (FileError why,
           {| pv_reader := reader2; pv_preview := decoded;
              pv_dec_pixels := pv_dec_pixels s |})
        | StatusOk =>
          (FileOk,
           {| pv_reader := reader2; pv_preview := decoded;
              pv_dec_pixels :=
                (λ n, size_t_add n
                        (size_t_mul (xsize_upsampled dec_state)
                                    (ysize_upsampled dec_state)))
                <$> pv_dec_pixels s |})
        end
    end.

(** *** DecodeFile (lines 87-197) *)

(** The local variables [jpeg_data] and [reader], and the object behind
    [io]. *)
Record file_state : Type := mkFileState {
  fs_jpeg_data : option (JPEGData AppMarkerType);
  fs_reader : BitReader;
  fs_io : WholeCodecInOut
}.

Definition with_metadata (io0 : WholeCodecInOut) (md : CodecMetadata)
    : WholeCodecInOut :=
  {| metadata := md; preview_frame := preview_frame io0;
     frames_and_pixels := frames_and_pixels io0 |}.

Definition with_reader (s : file_state) (r : BitReader) : file_state :=
  {| fs_jpeg_data := fs_jpeg_data s; fs_reader := r; fs_io := fs_io s |}.

Definition with_io (s : file_state) (io0 : WholeCodecInOut) : file_state :=
  {| fs_jpeg_data := fs_jpeg_data s; fs_reader := fs_reader s; fs_io := io0 |}.

(** Lines 112-117: the headers and the check of the dimensions. *)
Definition headers_step (s : file_state) : run file_state :=
  let '(st, (reader1, md)) := DecodeHeaders (fs_reader s) (metadata (fs_io s)) in
  let s1 := {| fs_jpeg_data := fs_jpeg_data s; fs_reader := reader1;
               fs_io := with_metadata (fs_io s) md |} in
  s1 <<~ return_if_error st s1 ;;
  let xsize := metadata_xsize (metadata (fs_io s1)) in
  let ysize := metadata_ysize (metadata (fs_io s1)) in
  return_if_error (VerifyDimensions (fs_io s1) xsize ysize) s1.

Definition with_color_encoding (io0 : WholeCodecInOut) (c : ColorEncoding)
    : WholeCodecInOut :=
  with_metadata io0
    {| size_header := size_header (metadata io0);
       m := {| xyb_encoded := xyb_encoded (m (metadata io0));
               have_preview := have_preview (m (metadata io0));
               have_animation := have_animation (m (metadata io0));
               color_encoding := c;
               other_metadata := other_metadata (m (metadata io0)) |};
       transform_data := transform_data (metadata io0) |}.

(** Lines 119-123: the profile of the file. *)
Definition read_icc_step (s : file_state) : run file_state :=
  if WantICC (color_encoding (m (metadata (fs_io s)))) then
    let '(st1, (reader1, icc)) := ReadICC (fs_reader s) in
    s1 <<~ return_if_error st1 (with_reader s reader1) ;;
    let '(st2, c) := SetICC (color_encoding (m (metadata (fs_io s1)))) icc in
    return_if_error st2 (with_io s1 (with_color_encoding (fs_io s1) c))
  else Continue s.

(** Lines 124-145, the block modelled above. *)
Definition set_icc_step (s : file_state) : run file_state :=
  let icc := ICC (color_encoding (m (metadata (fs_io s)))) in
  match SetICCInJpegData kICC icc (fs_jpeg_data s) with
  | Next p =>
    Continue {| fs_jpeg_data := p; fs_reader := fs_reader s; fs_io := fs_io s |}
  | Return st p =>
    Exit (of_Status st)
      {| fs_jpeg_data := p; fs_reader := fs_reader s; fs_io := fs_io s |}
  | Undefined => RunUndefined
  | OutOfFuel => RunOutOfFuel
  end.

(** Lines 147-149: the call of [DecodePreview] on [io->preview_frame] and
    [io->dec_pixels]. *)
Definition preview_step (dparams : DecompressParams) (s : file_state)
    : run file_state :=
  let io0 := fs_io s in
  let '(st, pv) :=
    DecodePreview dparams (metadata io0)
      {| pv_reader := fs_reader s; pv_preview := preview_frame io0;
         pv_dec_pixels := Some (dec_pixels (frames_and_pixels io0)) |} in
  let s1 :=
    {| fs_jpeg_data := fs_jpeg_data s; fs_reader := pv_reader pv;
       fs_io :=
         {| metadata := metadata io0; preview_frame := pv_preview pv;
            frames_and_pixels :=
              {| frames := frames (frames_and_pixels io0);
                 dec_pixels := default (dec_pixels (frames_and_pixels io0))
                                 (pv_dec_pixels pv) |} |} |} in
  match st with
  | FileOk => Continue s1
  | _ => Exit st s1
  end.

(** Lines 151-155: the byte boundary and the animation guard. *)
Definition animation_guard_step (dparams : DecompressParams) (s : file_state)
    : run file_state :=
  let '(st, reader1) := JumpToByteBoundary (fs_reader s) in
  s1 <<~ return_if_error st (with_reader s reader1) ;;
  if have_animation (m (metadata (fs_io s1))) && keep_dct dparams
  then Exit (FileFailure Cannot_decode_to_JPEG_an_animation) s1
  else Continue s1.

(** [DecodeFrame] as the frame loop calls it (lines 172-174). *)
Definition DecodeFrame_in_loop (dparams : DecompressParams)
    (io0 : WholeCodecInOut) (dec_state : PassesDecoderState)
    (reader : BitReader) (decoded : ImageBundle)
    (now : CodecInOut ImageBundle)
    : Status * (PassesDecoderState * BitReader * ImageBundle) :=
  DecodeFrame_ dparams dec_state reader decoded (metadata io0)
    (Some {| metadata := metadata io0; preview_frame := preview_frame io0;
             frames_and_pixels := now |})
    false.

(** Lines 157-180: the decoder state and the frame loop modelled above. *)
Definition frames_step (fuel : nat) (dparams : DecompressParams)
    (s : file_state) : run file_state :=
  let io0 := fs_io s in
  let back (l : loop_state PassesDecoderState BitReader ImageBundle
                  (JPEGData AppMarkerType)) : file_state :=
    {| fs_jpeg_data := jpeg_data l; fs_reader := reader l;
       fs_io := {| metadata := metadata io0; preview_frame := preview_frame io0;
                   frames_and_pixels := io l |} |} in
  match
    frame_sequencer kRegularFrame kSkipProgressive frame_header_
      (ImageBundle_new (m (metadata io0))) ImageBundle_set_jpeg_data
      ImageBundle_xsize ImageBundle_ysize (DecodeFrame_in_loop dparams io0)
      fuel
      {| jpeg_data := fs_jpeg_data s;
         dec_state := set_do_colorspace_transform new_PassesDecoderState;
         reader := fs_reader s;
         io := frames_and_pixels io0 |}
  with
  | Next l => Continue (back l)
  | Return st l => Exit (of_Status st) (back l)
  | Undefined => RunUndefined
  | OutOfFuel => RunOutOfFuel
  end.

(** Lines 182-193: the position of the reader at the end, and the checks
    of the metadata. *)
Definition final_step (dparams : DecompressParams) (file : list uint8_t)
    (s : file_state) : run file_state :=
  s1 <<~ (if check_decompressed_size dparams
             && negb (allow_partial_files dparams)
             && bool_decide (max_downsampling dparams = 1)
          then
            if bool_decide (TotalBitsConsumed (fs_reader s)
                            ≠ size_t_mul (size file) kBitsPerByte)
            then Exit (FileFailure DecodeFile_reader_position_not_at_EOF) s
            else Continue s
          else Continue s) ;;
  let s2 :=
    if negb (AllReadsWithinBounds (fs_reader s1)) && allow_partial_files dparams
    then with_reader s1 (snd (Close (fs_reader s1)))
    else s1 in
  Continue (with_io s2 (CheckMetadata (fs_io s2))).

(** The block of lines 107-195, in which [reader] lives. *)
Definition DecodeFile_body (fuel : nat) (dparams : DecompressParams)
    (file : list uint8_t) (jpeg_data : option (JPEGData AppMarkerType))
    (io0 : WholeCodecInOut) : run file_state :=
  let reader := snd (ReadFixedBits_16 (BitReader_new file)) in
  s <<~ headers_step {| fs_jpeg_data := jpeg_data; fs_reader := reader;
                        fs_io := io0 |} ;;
  s <<~ read_icc_step s ;;
  s <<~ set_icc_step s ;;
  s <<~ preview_step dparams s ;;
  s <<~ animation_guard_step dparams s ;;
  s <<~ frames_step fuel dparams s ;;
  final_step dparams file s.

(** What [DecodeFile] gives its caller: its status with [io] as it leaves
    it. *)
Inductive file_result : Type :=
  | Finished (st : FileStatus) (io0 : WholeCodecInOut)
  | FileUndefined
  | FileOutOfFuel.

Definition DecodeFile (fuel : nat) (dparams : DecompressParams)
    (file : list uint8_t) (io0 : WholeCodecInOut) : file_result :=
  let signature := JxlSignatureCheck file in
  if bool_decide (signature = JXL_SIG_NOT_ENOUGH_BYTES
                  ∨ signature = JXL_SIG_INVALID)
  then Finished (FileFailure File_does_not_start_with_known_JPEG_XL_signature) io0
  else
    let entry :=
      if keep_dct dparams then
        match Main_jpeg_data io0 with
        | None => None
        | Some p => Some (Some p, Main_jpeg_data_moved io0)
        end
      else Some (None, io0) in
    match entry with
    | None => Finished (FileFailure Caller_must_set_jpeg_data) io0
    | Some (jpeg_data, io1) =>
      match DecodeFile_body fuel dparams file jpeg_data io1 with
      | Continue s =>
        Finished (of_Status (BitReaderScopedCloser_ret (fs_reader s))) (fs_io s)
      | Exit st s => Finished st (fs_io s)
      | RunUndefined => FileUndefined
      | RunOutOfFuel => FileOutOfFuel
      end
    end.

End DecodeFile.

Arguments DecompressParams : clear implicits.
Arguments ImageMetadata : clear implicits.
Arguments CodecMetadata : clear implicits.
Arguments WholeCodecInOut : clear implicits.
Arguments preview_state : clear implicits.
Arguments file_state : clear implicits.
Arguments file_result : clear implicits.

(** *** The pixels of a list of frames *)

(** The sum of [xsize() * ysize()] over the bundles of [v], each product in
    [size_t] arithmetic. *)
Definition frames_pixels {ImageBundle : Type} (xsize ysize : ImageBundle → Z)
    (v : list ImageBundle) : Z :=
  foldr (λ f acc, size_t_mul (xsize f) (ysize f) + acc) 0 v.

(** ** Instances for the examples *)

(** Tags are numbers, [kICC] being 1. *)
Definition ex_kICC : nat := 1.

(** A profile of five bytes. *)
Definition ex_icc : list uint8_t :=
  [Byte.x01; Byte.x02; Byte.x03; Byte.x04; Byte.x05].

(** The 17 bytes that start an APP marker carrying a part of a profile. *)
Definition ex_header : list uint8_t := replicate 17 Byte.x00.

(** Two [kICC] markers with room for 2 and 3 bytes of the profile, and a
    marker with another tag between them. *)
Definition ex_payload : JPEGData nat :=
  {| app_data := [ex_header ++ [Byte.xff; Byte.xff];
                  [Byte.xe1; Byte.x00; Byte.x02; Byte.x00];
                  ex_header ++ [Byte.xff; Byte.xff; Byte.xff]];
     app_marker_type := [1; 0; 1]%nat |}.

Definition ex_payload_done : JPEGData nat :=
  {| app_data := [ex_header ++ [Byte.x01; Byte.x02];
                  [Byte.xe1; Byte.x00; Byte.x02; Byte.x00];
                  ex_header ++ [Byte.x03; Byte.x04; Byte.x05]];
     app_marker_type := [1; 0; 1]%nat |}.

(** The second [kICC] marker has room for 4 bytes: one more than is left. *)
Definition ex_payload_large : JPEGData nat :=
  {| app_data := [ex_header ++ [Byte.xff; Byte.xff];
                  ex_header ++ [Byte.xff; Byte.xff; Byte.xff; Byte.xff]];
     app_marker_type := [1; 1]%nat |}.

(** The [kICC] markers have room for 4 bytes in all: one less than the
    profile has. *)
Definition ex_payload_small : JPEGData nat :=
  {| app_data := [ex_header ++ [Byte.xff; Byte.xff];
                  ex_header ++ [Byte.xff; Byte.xff]];
     app_marker_type := [1; 1]%nat |}.

(** No marker takes a byte of the profile: the [kICC] marker is its header
    alone. *)
Definition ex_payload_none : JPEGData nat :=
  {| app_data := [[Byte.xe1; Byte.x00; Byte.x02; Byte.x00]; ex_header];
     app_marker_type := [0; 1]%nat |}.

(** No marker is tagged [kICC]. *)
Definition ex_payload_plain : JPEGData nat :=
  {| app_data := [[Byte.xe1; Byte.x00; Byte.x02; Byte.x00];
                  [Byte.xe2; Byte.x00; Byte.x02; Byte.x00]];
     app_marker_type := [0; 2]%nat |}.

(** A [kICC] marker of 16 bytes, shorter than its header, after one that
    took 3 bytes. *)
Definition ex_payload_short : JPEGData nat :=
  {| app_data := [ex_header ++ [Byte.xff; Byte.xff; Byte.xff];
                  replicate 16 Byte.x00];
     app_marker_type := [1; 1]%nat |}.

(** A scripted frame decoder.  Frame types are numbers, 0 for
    [kRegularFrame] and 3 for [kSkipProgressive]; the reader holds the
    headers and sizes of the frames still to come; a bundle records the type
    and size of the frame decoded into it and whether it holds the JPEG
    payload. *)
Record ex_bundle : Type := mkExBundle {
  ex_type : option nat;
  ex_xsize : Z;
  ex_ysize : Z;
  ex_jpeg : option nat
}.

Definition ex_reader : Type := list (nat * bool * Z * Z).

Definition ex_DecodeFrame (ds : FrameHeader nat) (r : ex_reader)
    (decoded : ex_bundle) (io0 : CodecInOut ex_bundle)
    : Status * (FrameHeader nat * ex_reader * ex_bundle) :=
  match r with
  | [] => (StatusFailure Callee_failure, (ds, [], decoded))
  | (t, l, x, y) :: r' =>
    (StatusOk,
     (mkFrameHeader t l, r', mkExBundle (Some t) x y (ex_jpeg decoded)))
  end.

Definition ex_frame_sequencer (fuel : nat)
    (s : loop_state (FrameHeader nat) ex_reader ex_bundle nat)
    : flow (loop_state (FrameHeader nat) ex_reader ex_bundle nat) :=
  frame_sequencer 0%nat 3%nat id (mkExBundle None 0 0 None)
    (λ b payload, mkExBundle (ex_type b) (ex_xsize b) (ex_ysize b) (Some payload))
    ex_xsize ex_ysize ex_DecodeFrame fuel s.

(** Four frames: one of type 2, a regular one of 4x3, one of type 1 and a
    last one of type [kSkipProgressive] of 2x2. *)
Definition ex_start : loop_state (FrameHeader nat) ex_reader ex_bundle nat :=
  {| jpeg_data := Some 42%nat;
     dec_state := mkFrameHeader 0%nat false;
     reader := [(2%nat, false, 1, 1); (0%nat, false, 4, 3);
                (1%nat, false, 7, 7); (3%nat, true, 2, 2)];
     io := {| frames := [mkExBundle None 9 9 None]; dec_pixels := 5 |} |}.

Definition ex_end : loop_state (FrameHeader nat) ex_reader ex_bundle nat :=
  {| jpeg_data := None;
     dec_state := mkFrameHeader 3%nat true;
     reader := [];
     io := {| frames := [mkExBundle (Some 0%nat) 4 3 (Some 42%nat);
                         mkExBundle (Some 3%nat) 2 2 None];
              dec_pixels := 21 |} |}.

(** A [kICC] marker of 16 bytes at the head of the payload. *)
Definition ex_payload_short_first : JPEGData nat :=
  {| app_data := [replicate 16 Byte.x00; ex_header ++ [Byte.xff]];
     app_marker_type := [1; 1]%nat |}.

(** The stream breaks off after a frame that is not displayed. *)
Definition ex_truncated : loop_state (FrameHeader nat) ex_reader ex_bundle nat :=
  {| jpeg_data := Some 42%nat;
     dec_state := mkFrameHeader 0%nat false;
     reader := [(0%nat, false, 4, 3); (2%nat, false, 1, 1)];
     io := {| frames := []; dec_pixels := 0 |} |}.

(** ** A toy codec for the examples of DecodeFile

    A file is the two bytes ff 0a, a byte each for the width and the
    height, a byte of flags (1 for [xyb_encoded], 2 for a preview, 4 for an
    animation, 8 for a profile), the profile when there is one as a length
    byte and that many bytes, and then the frames, the one of the preview
    first, as four bytes each: type, [is_last], width and height. *)

Record toy_reader : Type := mkToyReader {
  toy_rest : list uint8_t;
  toy_bits : Z;
  toy_within : bool
}.

Record toy_dec_state : Type := mkToyDecState {
  toy_header : FrameHeader nat;
  toy_xsize_upsampled : Z;
  toy_ysize_upsampled : Z
}.

Record toy_bundle : Type := mkToyBundle {
  toy_type : option nat;
  toy_xsize : Z;
  toy_ysize : Z;
  toy_jpeg : option (JPEGData nat)
}.

Definition toy_color : Type := list uint8_t * bool.

Abbreviation toy_image_metadata := (ImageMetadata toy_color unit).
Abbreviation toy_metadata := (CodecMetadata (Z * Z) toy_color bool unit).
Abbreviation toy_io := (WholeCodecInOut toy_bundle (Z * Z) toy_color bool unit).

(** Reads [n] bytes as numbers; reading past the end leaves the reader out
    of bounds. *)
Definition toy_read (n : nat) (r : toy_reader) : Status * (toy_reader * list Z) :=
  if decide (n ≤ length (toy_rest r))%nat
  then (StatusOk,
        (mkToyReader (drop n (toy_rest r)) (toy_bits r + 8 * Z.of_nat n)
           (toy_within r),
         (λ b, Z.of_N (Byte.to_N b)) <$> take n (toy_rest r)))
  else (StatusFailure Callee_failure,
        (mkToyReader [] (toy_bits r + 8 * Z.of_nat n) false, [])).

Definition toy_JxlSignatureCheck (file : list uint8_t) : nat :=
  match file with
  | [] | [_] => 0%nat
  | a :: b :: _ =>
    if Byte.eqb a Byte.xff && Byte.eqb b Byte.x0a then 2%nat else 1%nat
  end.

Definition toy_ReadSizeHeader (r : toy_reader) (sz : Z * Z)
    : Status * (toy_reader * (Z * Z)) :=
  match toy_read 2 r with
  | (StatusOk, (r', [x; y])) => (StatusOk, (r', (x, y)))
  | (st, (r', _)) => (st, (r', sz))
  end.

Definition toy_ReadImageMetadata (r : toy_reader) (m0 : toy_image_metadata)
    : Status * (toy_reader * toy_image_metadata) :=
  match toy_read 1 r with
  | (StatusOk, (r', [flags])) =>
    (StatusOk,
     (r', {| xyb_encoded := Z.testbit flags 0;
             have_preview := Z.testbit flags 1;
             have_animation := Z.testbit flags 2;
             color_encoding := ([], Z.testbit flags 3);
             other_metadata := tt |}))
  | (st, (r', _)) => (st, (r', m0))
  end.

Definition toy_ReadICC (r : toy_reader) : Status * (toy_reader * list uint8_t) :=
  match toy_read 1 r with
  | (StatusOk, (r', [n])) =>
    match toy_read (Z.to_nat n) r' with
    | (StatusOk, (r'', _)) => (StatusOk, (r'', take (Z.to_nat n) (toy_rest r')))
    | (st, (r'', _)) => (st, (r'', []))
    end
  | (st, (r', _)) => (st, (r', []))
  end.

Definition toy_SkipFrame (md : toy_metadata) (r : toy_reader) (is_preview : bool)
    : Status * toy_reader :=
  let '(st, (r', _)) := toy_read 4 r in (st, r').

Definition toy_DecodeFrame (dparams : DecompressParams nat) (ds : toy_dec_state)
    (r : toy_reader) (decoded : toy_bundle) (md : toy_metadata)
    (constraints : option toy_io) (is_preview : bool)
    : Status * (toy_dec_state * toy_reader * toy_bundle) :=
  match toy_read 4 r with
  | (StatusOk, (r', [t; l; x; y])) =>
    (StatusOk,
     (mkToyDecState (mkFrameHeader (Z.to_nat t) (bool_decide (l ≠ 0))) x y, r',
      mkToyBundle (Some (Z.to_nat t)) x y (toy_jpeg decoded)))
  | (st, (r', _)) => (st, (ds, r', decoded))
  end.

Definition toy_Main_jpeg_data (whole : toy_io) : option (JPEGData nat) :=
  match frames (frames_and_pixels whole) with
  | f :: _ => toy_jpeg f
  | [] => None
  end.

Definition toy_Main_jpeg_data_moved (whole : toy_io) : toy_io :=
  {| metadata := metadata whole;
     preview_frame := preview_frame whole;
     frames_and_pixels :=
       {| frames :=
            match frames (frames_and_pixels whole) with
            | f :: v =>
              mkToyBundle (toy_type f) (toy_xsize f) (toy_ysize f) None :: v
            | [] => []
            end;
          dec_pixels := dec_pixels (frames_and_pixels whole) |} |}.

(** The constants and functions of the toy codec, in the order in which
    the model of [DecodeFile] takes them: frame types 0 for [kRegularFrame]
    and 3 for [kSkipProgressive], signatures 0 for JXL_SIG_NOT_ENOUGH_BYTES
    and 1 for JXL_SIG_INVALID, [Override] 1 for [kOn] and 2 for [kOff]. *)
Abbreviation on_toy f :=
  (f nat _ ex_kICC nat _ 0%nat 3%nat nat _ 0%nat 1%nat toy_JxlSignatureCheck
     nat _ 1%nat 2%nat
     toy_reader toy_dec_state toy_bundle (Z * Z)%type toy_color bool unit
     toy_ReadSizeHeader toy_ReadImageMetadata
     (λ (r : toy_reader) (td : bool), (StatusOk, (r, td)))
     (λ (td b : bool), b)
     (λ md : toy_metadata, fst (size_header md))
     (λ md : toy_metadata, snd (size_header md))
     (λ (whole : toy_io) (x y : Z),
        if bool_decide (0 < x ∧ 0 < y) then StatusOk
        else StatusFailure Callee_failure)
     (snd : toy_color → bool) toy_ReadICC
     (λ (c : toy_color) (icc : list uint8_t), (StatusOk, (icc, snd c)))
     (fst : toy_color → list uint8_t)
     (λ file, mkToyReader file 0 true)
     (λ r, (0, fst (snd (toy_read 2 r))))
     (λ r : toy_reader, (StatusOk, r)) toy_bits toy_within
     (λ r : toy_reader, (StatusOk, r)) 8
     (λ r, if toy_within r then StatusOk else StatusFailure Callee_failure)
     toy_SkipFrame toy_DecodeFrame
     (mkToyDecState (mkFrameHeader 0%nat false) 0 0)
     toy_xsize_upsampled toy_ysize_upsampled toy_header
     (id : toy_dec_state → toy_dec_state)
     (λ im : toy_image_metadata, mkToyBundle None 0 0 None)
     (λ b payload,
        mkToyBundle (toy_type b) (toy_xsize b) (toy_ysize b) (Some payload))
     toy_xsize toy_ysize toy_Main_jpeg_data toy_Main_jpeg_data_moved
     (id : toy_io → toy_io)).

Definition toy_DecodeFile (fuel : nat) (dparams : DecompressParams nat)
    (file : list uint8_t) (whole : toy_io)
    : file_result toy_bundle (Z * Z) toy_color bool unit :=
  on_toy (@DecodeFile) fuel dparams file whole.

(** A still image of 4x3 with the profile [ex_icc] and three frames: one
    of type 2, a regular one of 4x3 and a last one of type
    [kSkipProgressive] of 2x2. *)
Definition toy_file : list uint8_t :=
  [Byte.xff; Byte.x0a; Byte.x04; Byte.x03; Byte.x08; Byte.x05]
  ++ ex_icc
  ++ [Byte.x02; Byte.x00; Byte.x01; Byte.x01;
      Byte.x00; Byte.x00; Byte.x04; Byte.x03;
      Byte.x03; Byte.x01; Byte.x02; Byte.x02].

(** The same with the flag of an animation. *)
Definition toy_file_animation : list uint8_t :=
  [Byte.xff; Byte.x0a; Byte.x04; Byte.x03; Byte.x0c; Byte.x05]
  ++ ex_icc
  ++ [Byte.x02; Byte.x00; Byte.x01; Byte.x01;
      Byte.x00; Byte.x00; Byte.x04; Byte.x03;
      Byte.x03; Byte.x01; Byte.x02; Byte.x02].

Definition toy_params (keep : bool) (pv : nat) : DecompressParams nat :=
  {| keep_dct := keep; preview := pv; check_decompressed_size := true;
     allow_partial_files := false; max_downsampling := 1 |}.

(** The object of the caller: a frame that holds [payload], and seven
    pixels counted so far. *)
Definition toy_whole (payload : option (JPEGData nat)) : toy_io :=
  {| metadata :=
       {| size_header := (0, 0);
          m := {| xyb_encoded := false; have_preview := false;
                  have_animation := false; color_encoding := ([], false);
                  other_metadata := tt |};
          transform_data := false |};
     preview_frame := mkToyBundle None 0 0 None;
     frames_and_pixels :=
       {| frames := [mkToyBundle None 1 1 payload]; dec_pixels := 7 |} |}.

(** What [DecodeFile] leaves of it for [toy_file]. *)
Definition toy_decoded (payload : option (JPEGData nat)) : toy_io :=
  {| metadata :=
       {| size_header := (4, 3);
          m := {| xyb_encoded := false; have_preview := false;
                  have_animation := false; color_encoding := (ex_icc, true);
                  other_metadata := tt |};
          transform_data := false |};
     preview_frame := mkToyBundle None 0 0 None;
     frames_and_pixels :=
       {| frames := [mkToyBundle (Some 0%nat) 4 3 payload;
                     mkToyBundle (Some 3%nat) 2 2 None];
          dec_pixels := 23 |} |}.

(** * Properties of the ICC redistribution *)

Lemma size_nonneg {A : Type} (v : list A) : 0 ≤ size v.
Proof. unfold size. lia. Qed.

Lemma size_t_wrap_small (z : Z) : 0 ≤ z < size_t_modulus → size_t_wrap z = z.
Proof. intros Hz. unfold size_t_wrap. by apply Z.mod_small. Qed.

Lemma size_t_wrap_below (z : Z) :
  - size_t_modulus ≤ z < 0 → size_t_wrap z = z + size_t_modulus.
Proof.
  intros Hz. unfold size_t_wrap.
  symmetry. apply (Z.mod_unique_pos z size_t_modulus (-1)); lia.
Qed.

Lemma size_t_modulus_eq : size_t_modulus = 18446744073709551616.
Proof. reflexivity. Qed.

Section SetICC_facts.

Context {AppMarkerType : Type} `{EqDecision AppMarkerType}.
Variable kICC : AppMarkerType.

Implicit Types (jd : JPEGData AppMarkerType).
Implicit Types (icc d : list uint8_t) (i j k n : nat).

Lemma marker_after_icc icc jd k i d :
  (i < k)%nat → app_marker_type jd !! i = Some kICC →
  marker_after kICC icc jd k i d
  = take 17 d ++ slice icc (icc_offset kICC jd i) (size d - 17).
Proof.
  intros Hi Ht. unfold marker_after.
  rewrite bool_decide_eq_true_2 by done.
  by rewrite bool_decide_eq_true_2 by done.
Qed.

Lemma marker_after_not_icc icc jd k i d :
  app_marker_type jd !! i ≠ Some kICC →
  marker_after kICC icc jd k i d = d.
Proof.
  intros Ht. unfold marker_after.
  rewrite (bool_decide_eq_false_2 (_ = _)) by done.
  by rewrite andb_false_r.
Qed.

Lemma marker_after_ge icc jd k i d :
  (k ≤ i)%nat → marker_after kICC icc jd k i d = d.
Proof.
  intros Hi. unfold marker_after.
  by rewrite bool_decide_eq_false_2 by lia.
Qed.

Lemma marker_after_other icc jd k i d :
  i ≠ k →
  marker_after kICC icc jd (S k) i d = marker_after kICC icc jd k i d.
Proof.
  intros Hne. unfold marker_after.
  by rewrite (bool_decide_ext (i < S k)%nat (i < k)%nat) by lia.
Qed.

Lemma redistributed_lookup icc jd k i :
  redistributed kICC icc jd k !! i
  = marker_after kICC icc jd k i <$> app_data jd !! i.
Proof. apply list_lookup_imap. Qed.

Lemma redistributed_length icc jd k :
  length (redistributed kICC icc jd k) = length (app_data jd).
Proof. apply length_imap. Qed.

(** Lists of markers are compared marker by marker. *)
Ltac markerwise i d :=
  apply list_eq; intros i; rewrite ?redistributed_lookup;
  destruct (app_data _ !! i) as [d|] eqn:?; simpl; [apply (f_equal Some) | done].

Lemma redistributed_0 icc jd : redistributed kICC icc jd 0 = app_data jd.
Proof. markerwise i d. apply marker_after_ge. lia. Qed.

Lemma redistributed_skip icc jd k :
  app_marker_type jd !! k ≠ Some kICC →
  redistributed kICC icc jd (S k) = redistributed kICC icc jd k.
Proof.
  intros Hk. markerwise i d.
  destruct (decide (i = k)) as [->|Hne].
  - by rewrite !marker_after_not_icc.
  - by apply marker_after_other.
Qed.

Lemma redistributed_write icc jd k d :
  app_marker_type jd !! k = Some kICC →
  app_data jd !! k = Some d →
  <[k := take 17 d ++ slice icc (icc_offset kICC jd k) (size d - 17)]>
    (redistributed kICC icc jd k)
  = redistributed kICC icc jd (S k).
Proof.
  intros Ht Hd. apply list_eq. intros i.
  destruct (decide (i = k)) as [->|Hne].
  - rewrite list_lookup_insert_eq.
    2:{ rewrite redistributed_length. by eapply lookup_lt_Some. }
    rewrite redistributed_lookup, Hd. simpl.
    by rewrite marker_after_icc by (done || lia).
  - rewrite list_lookup_insert_ne by done.
    rewrite !redistributed_lookup.
    destruct (app_data jd !! i) as [d'|]; simpl; [|done].
    f_equal. symmetry. by apply marker_after_other.
Qed.

Lemma icc_bytes_at_other jd k :
  app_marker_type jd !! k ≠ Some kICC → icc_bytes_at kICC jd k = 0.
Proof.
  intros Hk. unfold icc_bytes_at.
  destruct (app_marker_type jd !! k) as [t|]; [|done].
  destruct (app_data jd !! k); [|done].
  destruct (decide (t = kICC)); [congruence | done].
Qed.

Lemma icc_bytes_at_icc jd k d :
  app_marker_type jd !! k = Some kICC → app_data jd !! k = Some d →
  icc_bytes_at kICC jd k = size d - 17.
Proof.
  intros Ht Hd. unfold icc_bytes_at. rewrite Ht, Hd.
  destruct (decide (kICC = kICC)); done.
Qed.

(** One iteration of the loop, from a state in which the markers before
    [k] are processed. *)
Lemma icc_loop_body_spec icc jd k s :
  addressable icc jd →
  processed kICC icc jd k s →
  (k < length (app_data jd))%nat →
  match icc_loop_body kICC icc k s with
  | Next s' =>
      processed kICC icc jd (S k) s' ∧ ¬ needs_more_than_left kICC icc jd k
  | Return st s' =>
      s' = s ∧
      ∃ d, app_marker_type jd !! k = Some kICC ∧ app_data jd !! k = Some d ∧
           st = StatusFailure
                  (ICC_length_is_less_than_APP_markers
                     (size_t_sub (size d) 17) (size icc - icc_offset kICC jd k)) ∧
           (size d < 17 ∨ needs_more_than_left kICC icc jd k)
  | Undefined =>
      app_marker_type jd !! k = None ∨
      ∃ d, app_marker_type jd !! k = Some kICC ∧ app_data jd !! k = Some d ∧
           size d ≤ 17
  | OutOfFuel => False
  end.
Proof.
  intros Haddr (Ht & Hd & Hp & Hoff & Hhdr) Hk.
  unfold icc_loop_body. rewrite Ht.
  destruct (app_marker_type jd !! k) as [t|] eqn:Etag; [|by left].
  destruct (decide (t ≠ kICC)) as [Hne|Heq].
  - assert (app_marker_type jd !! k ≠ Some kICC) as Hk' by congruence.
    split.
    + refine (conj _ (conj _ (conj _ (conj _ _)))); simpl.
      * done.
      * by rewrite redistributed_skip.
      * rewrite icc_bytes_at_other by done. lia.
      * rewrite icc_bytes_at_other by done. lia.
      * intros j d Hj Htj Hdj.
        destruct (decide (j = k)) as [->|]; [congruence|].
        apply (Hhdr j d); [lia | done | done].
    + intros (d & Ht' & _). congruence.
  - apply dec_stable in Heq. subst t.
    rewrite Hd, redistributed_lookup.
    destruct (app_data jd !! k) as [d|] eqn:Edata; simpl.
    2:{ apply lookup_ge_None_1 in Edata. lia. }
    rewrite marker_after_ge by done.
    pose proof (Haddr k d Edata) as Hsz.
    pose proof (size_nonneg d) as Hd0.
    pose proof (size_nonneg icc) as Hicc0.
    rewrite Hp.
    destruct (decide (17 ≤ size d)) as [Hlong|Hshort].
    + assert (size_t_sub (size d) 17 = size d - 17) as Elen.
      { unfold size_t_sub. apply size_t_wrap_small. lia. }
      rewrite !Elen.
      unfold size_t_add. rewrite size_t_wrap_small by lia.
      case_bool_decide as Hchk.
      * split; [done|]. exists d. split_and!; try done.
        -- rewrite Elen. unfold size_t_sub.
           by rewrite size_t_wrap_small by lia.
        -- right. exists d. split_and!; try done. lia.
      * unfold memcpy. case_bool_decide as Hroom.
        2:{ right. exists d. split_and!; [done | done | lia]. }
        rewrite (drop_ge d) by (unfold size in *; lia).
        rewrite app_nil_r.
        split.
        -- change (Z.to_nat 17) with 17%nat.
           refine (conj _ (conj _ (conj _ (conj _ _)))); simpl.
           ++ done.
           ++ by apply redistributed_write.
           ++ by rewrite (icc_bytes_at_icc jd k d).
           ++ rewrite (icc_bytes_at_icc jd k d) by done. lia.
           ++ intros j d' Hj Htj Hdj.
              destruct (decide (j = k)) as [->|].
              ** assert (d' = d) as -> by congruence. lia.
              ** apply (Hhdr j d'); [lia | done | done].
        -- intros (d' & _ & Hd' & Hmore).
           assert (d' = d) as -> by congruence. lia.
    + assert (size_t_sub (size d) 17 = size d - 17 + size_t_modulus) as Elen.
      { unfold size_t_sub. apply size_t_wrap_below.
        rewrite size_t_modulus_eq in *. lia. }
      rewrite !Elen.
      case_bool_decide as Hchk.
      * split; [done|]. exists d. split_and!; try done.
        -- rewrite Elen. unfold size_t_sub.
           by rewrite size_t_wrap_small by lia.
        -- left. lia.
      * unfold memcpy. rewrite bool_decide_eq_false_2.
        -- right. exists d. split_and!; [done | done | lia].
        -- rewrite size_t_modulus_eq in *. lia.
Qed.

(** The loop from index [k] on, [n] markers remaining. *)
Lemma icc_loop_spec icc jd :
  addressable icc jd →
  ∀ n k s,
    processed kICC icc jd k s →
    (k + n = length (app_data jd))%nat →
    match icc_loop kICC icc n k s with
    | Next s' =>
        processed kICC icc jd (length (app_data jd)) s' ∧
        ∀ i, (k ≤ i)%nat → ¬ needs_more_than_left kICC icc jd i
    | Return st s' =>
        ∃ i d,
          (k ≤ i < length (app_data jd))%nat ∧
          processed kICC icc jd i s' ∧
          (∀ j, (k ≤ j < i)%nat → ¬ needs_more_than_left kICC icc jd j) ∧
          app_marker_type jd !! i = Some kICC ∧ app_data jd !! i = Some d ∧
          st = StatusFailure
                 (ICC_length_is_less_than_APP_markers
                    (size_t_sub (size d) 17) (size icc - icc_offset kICC jd i)) ∧
          (size d < 17 ∨ needs_more_than_left kICC icc jd i)
    | Undefined =>
        ∃ i, (k ≤ i < length (app_data jd))%nat ∧
             (app_marker_type jd !! i = None ∨
              ∃ d, app_marker_type jd !! i = Some kICC ∧
                   app_data jd !! i = Some d ∧ size d ≤ 17)
    | OutOfFuel => False
    end.
Proof.
  intros Haddr n. induction n as [|n IH]; intros k s Hs Hlen; simpl.
  - assert (k = length (app_data jd)) as <- by lia.
    split; [done|]. intros i Hi (d & _ & Hd & _).
    apply lookup_lt_Some in Hd. lia.
  - assert (k < length (app_data jd))%nat as Hk by lia.
    pose proof (icc_loop_body_spec icc jd k s Haddr Hs Hk) as Hbody.
    destruct (icc_loop_body kICC icc k s) as [s'|st s'| |]; simpl.
    + destruct Hbody as [Hs' Hnot].
      assert (S k + n = length (app_data jd))%nat as Hlen' by lia.
      specialize (IH (S k) s' Hs' Hlen').
      destruct (icc_loop kICC icc n (S k) s') as [s''|st s''| |].
      * destruct IH as [Hfin Hrest]. split; [done|].
        intros i Hi. destruct (decide (i = k)) as [->|]; [done|].
        apply Hrest. lia.
      * destruct IH as (i & d & Hi & Hproc & Hbefore & Ht & Hd & Hst & Hwhy).
        exists i, d. split_and!; try done; try lia.
        intros j Hj. destruct (decide (j = k)) as [->|]; [done|].
        apply Hbefore. lia.
      * destruct IH as (i & Hi & Hwhy).
        exists i. split; [lia | done].
      * done.
    + destruct Hbody as (-> & d & Ht & Hd & Hst & Hwhy).
      exists k, d. split_and!; try done; lia.
    + exists k. split; [lia | done].
    + done.
Qed.

Lemma processed_0 icc jd :
  processed kICC icc jd 0 (mkIccState jd 0).
Proof.
  refine (conj _ (conj _ (conj _ (conj _ _)))); simpl.
  - done.
  - by rewrite redistributed_0.
  - done.
  - pose proof (size_nonneg icc). lia.
  - intros j d Hj. lia.
Qed.

(** Markers without a tag or without content take no bytes. *)
Lemma icc_bytes_at_ge jd k :
  (length (app_data jd) ≤ k)%nat → icc_bytes_at kICC jd k = 0.
Proof.
  intros Hk. unfold icc_bytes_at.
  rewrite (lookup_ge_None_2 (app_data jd)) by done.
  by destruct (app_marker_type jd !! k).
Qed.

Lemma icc_bytes_at_nonneg jd k :
  (∀ d, app_marker_type jd !! k = Some kICC → app_data jd !! k = Some d →
        17 ≤ size d) →
  0 ≤ icc_bytes_at kICC jd k.
Proof.
  intros Hhdr. unfold icc_bytes_at.
  destruct (app_marker_type jd !! k) as [t|]; [|done].
  destruct (app_data jd !! k) as [d|]; [|done].
  destruct (decide (t = kICC)) as [->|]; [|done].
  specialize (Hhdr d eq_refl eq_refl). lia.
Qed.

(** The running offset never decreases over markers that have their
    header. *)
Lemma icc_offset_mono jd :
  icc_markers_have_header kICC jd →
  ∀ i j, (i ≤ j)%nat → icc_offset kICC jd i ≤ icc_offset kICC jd j.
Proof.
  intros Hhdr i j Hij. induction Hij as [|j Hij IH]; [done|].
  simpl. pose proof (icc_bytes_at_nonneg jd j (Hhdr j)). lia.
Qed.

Lemma icc_offset_ge jd n :
  (length (app_data jd) ≤ n)%nat →
  icc_offset kICC jd n = icc_offset kICC jd (length (app_data jd)).
Proof.
  intros Hn. induction Hn as [|n Hn IH]; [done|].
  simpl. rewrite icc_bytes_at_ge by done. lia.
Qed.

Lemma processed_have_room icc jd s :
  processed kICC icc jd (length (app_data jd)) s →
  icc_markers_have_room kICC jd.
Proof.
  intros (_ & _ & _ & _ & Hhdr) i d Ht Hd.
  apply (Hhdr i d); [|done|done]. by eapply lookup_lt_Some.
Qed.

Lemma have_room_have_header jd :
  icc_markers_have_room kICC jd → icc_markers_have_header kICC jd.
Proof. intros Hroom i d Ht Hd. pose proof (Hroom i d Ht Hd). lia. Qed.

Lemma processed_have_header icc jd s :
  processed kICC icc jd (length (app_data jd)) s →
  icc_markers_have_header kICC jd.
Proof. intros Hs. by eapply have_room_have_header, processed_have_room. Qed.

Lemma processed_payload icc jd k s :
  processed kICC icc jd k s → icc_jpeg_data s = payload_after kICC icc jd k.
Proof.
  intros (Ht & Hd & _). unfold payload_after.
  destruct (icc_jpeg_data s) as [data tags]. simpl in *. by subst.
Qed.

(** Every way the block can end, for a payload that is in memory. *)
Lemma SetICCInJpegData_spec icc jd :
  addressable icc jd →
  let n := length (app_data jd) in
  let total := icc_offset kICC jd n in
  match SetICCInJpegData kICC icc (Some jd) with
  | Next r =>
      r = Some (payload_after kICC icc jd n) ∧
      icc_markers_have_header kICC jd ∧
      (∀ i, ¬ needs_more_than_left kICC icc jd i) ∧
      0 ≤ total ≤ size icc ∧ (total = 0 ∨ total = size icc)
  | Return st r =>
      (st = StatusFailure ICC_length_is_more_than_APP_markers ∧
       r = Some (payload_after kICC icc jd n) ∧
       icc_markers_have_header kICC jd ∧
       (∀ i, ¬ needs_more_than_left kICC icc jd i) ∧
       0 ≤ total ≤ size icc ∧ total ≠ 0 ∧ total ≠ size icc)
      ∨
      (∃ i d,
         app_marker_type jd !! i = Some kICC ∧ app_data jd !! i = Some d ∧
         st = StatusFailure
                (ICC_length_is_less_than_APP_markers
                   (size_t_sub (size d) 17) (size icc - icc_offset kICC jd i)) ∧
         r = Some (payload_after kICC icc jd i) ∧
         (∀ j, (j < i)%nat → ¬ needs_more_than_left kICC icc jd j) ∧
         (size d < 17 ∨ needs_more_than_left kICC icc jd i))
  | Undefined =>
      ∃ i, (i < n)%nat ∧
           (app_marker_type jd !! i = None ∨
            ∃ d, app_marker_type jd !! i = Some kICC ∧
                 app_data jd !! i = Some d ∧ size d ≤ 17)
  | OutOfFuel => False
  end.
Proof.
  intros Haddr n total. subst n total. unfold SetICCInJpegData.
  pose proof (icc_loop_spec icc jd Haddr (length (app_data jd)) 0
                (mkIccState jd 0) (processed_0 icc jd) eq_refl) as Hloop.
  destruct (icc_loop kICC icc (length (app_data jd)) 0 (mkIccState jd 0))
    as [s|st s| |]; simpl.
  - destruct Hloop as [Hs Hnone].
    pose proof (processed_payload _ _ _ _ Hs) as Hjd.
    pose proof (processed_have_header _ _ _ Hs) as Hhdr.
    destruct Hs as (_ & _ & Hpos & Hrange & _).
    assert (∀ i, ¬ needs_more_than_left kICC icc jd i) as Hnone'.
    { intros i. apply Hnone. lia. }
    rewrite Hjd, Hpos.
    destruct (bool_decide (_ ≠ size icc) && bool_decide (_ ≠ 0)) eqn:Hchk.
    + apply andb_true_iff in Hchk as [H1 H2].
      apply bool_decide_eq_true_1 in H1, H2.
      left. split_and!; try done; lia.
    + split_and!; try done; try lia.
      apply andb_false_iff in Hchk as [H1|H1];
        apply bool_decide_eq_false_1, dec_stable in H1; auto.
  - destruct Hloop as (i & d & Hi & Hs & Hbefore & Ht & Hd & Hst & Hwhy).
    right. exists i, d. split_and!; try done.
    + by rewrite (processed_payload _ _ _ _ Hs).
    + intros j Hj. apply Hbefore. lia.
  - destruct Hloop as (i & Hi & Hwhy). exists i. split; [lia | done].
  - done.
Qed.

Lemma icc_offset_bounds icc jd :
  icc_markers_have_header kICC jd →
  icc_offset kICC jd (length (app_data jd)) ≤ size icc →
  ∀ i j, (i ≤ j)%nat →
    0 ≤ icc_offset kICC jd i ∧
    icc_offset kICC jd i ≤ icc_offset kICC jd j ∧
    icc_offset kICC jd j ≤ size icc.
Proof.
  intros Hhdr Htotal i j Hij.
  pose proof (icc_offset_mono jd Hhdr) as Hmono.
  split_and!.
  - apply (Hmono 0%nat i). lia.
  - by apply Hmono.
  - destruct (decide (j ≤ length (app_data jd))%nat) as [Hj|Hj].
    + pose proof (Hmono j _ Hj). lia.
    + rewrite icc_offset_ge by lia. done.
Qed.

(** When the [kICC] markers take no byte at all, each of them is its
    header alone, none of them asks for more than is left, and writing
    their empty slices changes nothing. *)
Lemma total_0_header_only jd i d :
  icc_markers_have_header kICC jd →
  icc_offset kICC jd (length (app_data jd)) = 0 →
  app_marker_type jd !! i = Some kICC → app_data jd !! i = Some d →
  icc_offset kICC jd i = 0 ∧ size d = 17.
Proof.
  intros Hhdr Htotal Ht Hd.
  pose proof (lookup_lt_Some _ _ _ Hd) as Hi.
  pose proof (icc_offset_mono jd Hhdr) as Hmono.
  pose proof (Hmono 0%nat i ltac:(lia)) as H0.
  pose proof (Hmono (S i) (length (app_data jd)) ltac:(lia)) as H1.
  simpl in H0, H1. rewrite (icc_bytes_at_icc jd i d) in H1 by done.
  pose proof (Hhdr i d Ht Hd). lia.
Qed.

Lemma total_0_no_need icc jd :
  icc_markers_have_header kICC jd →
  icc_offset kICC jd (length (app_data jd)) = 0 →
  ∀ i, ¬ needs_more_than_left kICC icc jd i.
Proof.
  intros Hhdr Htotal i (d & Ht & Hd & Hmore).
  destruct (total_0_header_only jd i d Hhdr Htotal Ht Hd) as [Hoff H17].
  pose proof (size_nonneg icc). lia.
Qed.

Lemma total_0_payload icc jd :
  icc_markers_have_header kICC jd →
  icc_offset kICC jd (length (app_data jd)) = 0 →
  payload_after kICC icc jd (length (app_data jd)) = jd.
Proof.
  intros Hhdr Htotal. unfold payload_after.
  assert (redistributed kICC icc jd (length (app_data jd)) = app_data jd) as ->.
  { markerwise i d.
    destruct (decide (app_marker_type jd !! i = Some kICC)) as [Ht|Ht].
    - match goal with H : _ !! i = Some d |- _ =>
        destruct (total_0_header_only _ i d Hhdr Htotal Ht H) as [_ H17];
        pose proof (lookup_lt_Some _ _ _ H)
      end.
      rewrite marker_after_icc by done. rewrite H17.
      unfold slice. simpl. rewrite app_nil_r.
      apply take_ge. unfold size in H17. lia.
    - by rewrite marker_after_not_icc. }
  by destruct jd.
Qed.

(** Without a payload the block does nothing. *)
Lemma SetICCInJpegData_no_payload icc :
  SetICCInJpegData kICC icc None = Next None.
Proof. reflexivity. Qed.

(** A payload that the block accepts, or refuses for an overrun only, has
    room after the header of every [kICC] marker. *)
Lemma completed_have_room icc jd :
  addressable icc jd →
  match SetICCInJpegData kICC icc (Some jd) with
  | Next _ => icc_markers_have_room kICC jd
  | Return st _ =>
      st = StatusFailure ICC_length_is_more_than_APP_markers →
      icc_markers_have_room kICC jd
  | _ => True
  end.
Proof.
  intros Haddr. unfold SetICCInJpegData.
  pose proof (icc_loop_spec icc jd Haddr (length (app_data jd)) 0
                (mkIccState jd 0) (processed_0 icc jd) eq_refl) as Hloop.
  destruct (icc_loop kICC icc (length (app_data jd)) 0 (mkIccState jd 0))
    as [s|st s| |]; simpl; try done.
  - destruct Hloop as [Hs _]. apply processed_have_room in Hs.
    by destruct (_ && _).
  - destruct Hloop as (i & d & _ & _ & _ & _ & _ & -> & _). done.
Qed.

(** X1.  On a payload with one tag per marker and at least one byte after
    the 17-byte header of every [kICC] marker, the block stays within the
    vectors. *)
Lemma SetICCInJpegData_defined icc jd :
  length (app_marker_type jd) = length (app_data jd) →
  icc_markers_have_room kICC jd →
  addressable icc jd →
  SetICCInJpegData kICC icc (Some jd) ≠ Undefined.
Proof.
  intros Hlen Hroom Haddr Hundef.
  pose proof (SetICCInJpegData_spec icc jd Haddr) as Hspec.
  cbv zeta in Hspec. rewrite Hundef in Hspec.
  destruct Hspec as (i & Hi & [Hnone|(d & Ht & Hd & Hshort)]).
  - apply lookup_ge_None_1 in Hnone. lia.
  - pose proof (Hroom i d Ht Hd). lia.
Qed.

(** C1.  When a payload is supplied and the loop has gone through all its
    markers, every marker tagged [kICC] holds, from its byte 17 on, the
    slice of the profile that starts at the running offset, which is the
    sum of the lengths of the slices written before it; the slices follow
    one another inside the profile without overlap, in the order of the
    markers, and [icc_pos] is their total length; markers with another tag
    are unchanged. *)
Theorem icc_loop_writes_slices icc jd s :
  addressable icc jd →
  icc_loop kICC icc (length (app_data jd)) 0 (mkIccState jd 0) = Next s →
  app_marker_type (icc_jpeg_data s) = app_marker_type jd ∧
  length (app_data (icc_jpeg_data s)) = length (app_data jd) ∧
  icc_pos s = icc_offset kICC jd (length (app_data jd)) ∧
  (∀ i j, (i ≤ j)%nat →
     0 ≤ icc_offset kICC jd i ∧
     icc_offset kICC jd i ≤ icc_offset kICC jd j ∧
     icc_offset kICC jd j ≤ size icc) ∧
  ∀ i t d,
    app_marker_type jd !! i = Some t → app_data jd !! i = Some d →
    if decide (t = kICC) then
      17 ≤ size d ∧
      icc_offset kICC jd (S i) = icc_offset kICC jd i + (size d - 17) ∧
      app_data (icc_jpeg_data s) !! i
      = Some (take 17 d ++ slice icc (icc_offset kICC jd i) (size d - 17))
    else
      icc_offset kICC jd (S i) = icc_offset kICC jd i ∧
      app_data (icc_jpeg_data s) !! i = Some d.
Proof.
  intros Haddr Hres.
  pose proof (icc_loop_spec icc jd Haddr (length (app_data jd)) 0
                (mkIccState jd 0) (processed_0 icc jd) eq_refl) as Hspec.
  rewrite Hres in Hspec. destruct Hspec as [Hs _].
  pose proof (processed_have_header _ _ _ Hs) as Hhdr.
  destruct Hs as (Htags & Hdata & Hpos & Hrange & _).
  rewrite Hdata. split_and!.
  - done.
  - apply redistributed_length.
  - done.
  - apply icc_offset_bounds; [done | lia].
  - intros i t d Ht Hd.
    pose proof (lookup_lt_Some _ _ _ Hd) as Hi.
    rewrite redistributed_lookup, Hd. simpl.
    destruct (decide (t = kICC)) as [->|Hne].
    + split_and!.
      * by apply (Hhdr i d).
      * by rewrite (icc_bytes_at_icc jd i d).
      * by rewrite marker_after_icc.
    + assert (app_marker_type jd !! i ≠ Some kICC) by congruence.
      split.
      * rewrite icc_bytes_at_other by done. lia.
      * by rewrite marker_after_not_icc.
Qed.

(** X22.  For a payload with one tag per marker and at least one byte
    after the 17-byte header of every [kICC] marker: the block fails with
    "ICC length is less than APP markers" exactly when some [kICC] marker
    needs more bytes than the markers before it have left, and then the
    first such marker is still unwritten; it fails with "ICC length is
    more than APP markers" exactly when no marker does and the final
    offset is neither 0 nor the length of the profile; otherwise it
    succeeds, in particular when the final offset is 0. *)
Theorem SetICCInJpegData_failures icc jd :
  length (app_marker_type jd) = length (app_data jd) →
  icc_markers_have_room kICC jd →
  addressable icc jd →
  let r := SetICCInJpegData kICC icc (Some jd) in
  let total := icc_offset kICC jd (length (app_data jd)) in
  ((∃ i, needs_more_than_left kICC icc jd i) ↔
   (∃ len avail jd',
      r = Return (StatusFailure (ICC_length_is_less_than_APP_markers len avail))
            (Some jd'))) ∧
  (∀ len avail jd',
     r = Return (StatusFailure (ICC_length_is_less_than_APP_markers len avail))
           (Some jd') →
     ∃ i d,
       needs_more_than_left kICC icc jd i ∧
       (∀ j, (j < i)%nat → ¬ needs_more_than_left kICC icc jd j) ∧
       app_data jd !! i = Some d ∧
       len = size d - 17 ∧ avail = size icc - icc_offset kICC jd i ∧
       (∀ j, (i ≤ j)%nat → app_data jd' !! j = app_data jd !! j)) ∧
  (((¬ ∃ i, needs_more_than_left kICC icc jd i) ∧
    total ≠ 0 ∧ total ≠ size icc) ↔
   (∃ jd',
      r = Return (StatusFailure ICC_length_is_more_than_APP_markers)
            (Some jd'))) ∧
  (((¬ ∃ i, needs_more_than_left kICC icc jd i) ∧
    (total = 0 ∨ total = size icc)) ↔
   (∃ jd', r = Next (Some jd'))) ∧
  (total = 0 → r = Next (Some jd)).
Proof.
  intros Hlen Hroom Haddr r total.
  pose proof (have_room_have_header jd Hroom) as Hhdr.
  pose proof (SetICCInJpegData_spec icc jd Haddr) as Hspec.
  cbv zeta in Hspec. fold r total in Hspec.
  destruct r as [r0|st r0| |].
  - destruct Hspec as (-> & _ & Hnone & Hrange & Htotal).
    split_and!.
    + split; [intros [i Hi]; by destruct (Hnone i) | by intros (? & ? & ? & ?)].
    + by intros ???.
    + split; [intros (_ & ? & ?); lia | by intros (? & ?)].
    + split; [eauto | intros _; split; [by intros [i ?%Hnone] | done]].
    + intros H0. by rewrite total_0_payload.
  - destruct Hspec as [(-> & -> & _ & Hnone & Hrange & Hne0 & Hne)
                      |(i & d & Ht & Hd & -> & -> & Hbefore & Hwhy)].
    + split_and!.
      * split; [intros [i Hi]; by destruct (Hnone i) | by intros (? & ? & ? & ?)].
      * by intros ???.
      * split; [eauto | intros _; split; [by intros [i ?%Hnone] | done]].
      * split; [intros (_ & ?); lia | by intros (? & ?)].
      * intros H0. done.
    + pose proof (Hhdr i d Ht Hd) as H17.
      destruct Hwhy as [?|Hmore]; [lia|].
      pose proof (Haddr i d Hd) as Hsz. pose proof (size_nonneg icc).
      assert (size_t_sub (size d) 17 = size d - 17) as Elen.
      { unfold size_t_sub. apply size_t_wrap_small. lia. }
      split_and!.
      * split; [eauto | eauto].
      * intros len avail jd' [= <- <- <-].
        exists i, d. split_and!; try done.
        intros j Hj. simpl. rewrite redistributed_lookup.
        destruct (app_data jd !! j) as [d'|]; simpl; [|done].
        by rewrite marker_after_ge.
      * split; [intros (Hno & _); destruct Hno; eauto | by intros (? & ?)].
      * split; [intros (Hno & _); destruct Hno; eauto | by intros (? & ?)].
      * intros H0. by destruct (total_0_no_need icc jd Hhdr H0 i).
  - destruct Hspec as (i & Hi & [Hnone|(d & Ht & Hd & Hshort)]).
    + apply lookup_ge_None_1 in Hnone. lia.
    + pose proof (Hroom i d Ht Hd). lia.
  - done.
Qed.

End SetICC_facts.

(** * More on the ICC redistribution *)

Lemma size_t_wrap_above (z : Z) :
  size_t_modulus ≤ z < 2 * size_t_modulus → size_t_wrap z = z - size_t_modulus.
Proof.
  intros Hz. unfold size_t_wrap.
  symmetry. apply (Z.mod_unique_pos z size_t_modulus 1); lia.
Qed.

Lemma slice_size {A : Type} (src : list A) (pos len : Z) :
  0 ≤ pos → 0 ≤ len → pos + len ≤ size src → size (slice src pos len) = len.
Proof.
  intros Hpos Hlen Hfit. unfold slice, size in *.
  rewrite length_take, length_drop. lia.
Qed.

Section SetICC_more_facts.

Context {AppMarkerType : Type} `{EqDecision AppMarkerType}.
Variable kICC : AppMarkerType.

Implicit Types (jd : JPEGData AppMarkerType).
Implicit Types (icc d : list uint8_t) (i j k n : nat).

(** The running offset over a prefix of markers that have their header. *)
Lemma icc_offset_mono_prefix jd k :
  (∀ j d, (j < k)%nat → app_marker_type jd !! j = Some kICC →
          app_data jd !! j = Some d → 17 ≤ size d) →
  ∀ i j, (i ≤ j ≤ k)%nat → icc_offset kICC jd i ≤ icc_offset kICC jd j.
Proof.
  intros Hhdr i j [Hij Hjk]. induction Hij as [|j Hij IH]; [done|].
  simpl. assert (0 ≤ icc_bytes_at kICC jd j); [|lia].
  apply icc_bytes_at_nonneg. intros d. apply Hhdr. lia.
Qed.

(** A marker that has received its slice. *)
Lemma written_marker icc jd k i d :
  (∀ j d, (j < k)%nat → app_marker_type jd !! j = Some kICC →
          app_data jd !! j = Some d → 17 ≤ size d) →
  0 ≤ icc_offset kICC jd k ≤ size icc →
  app_data jd !! i = Some d →
  size (marker_after kICC icc jd k i d) = size d ∧
  take 17 (marker_after kICC icc jd k i d) = take 17 d.
Proof.
  intros Hhdr Hrange Hd.
  destruct (decide ((i < k)%nat ∧ app_marker_type jd !! i = Some kICC))
    as [[Hi Ht]|Hno].
  - rewrite marker_after_icc by done.
    pose proof (Hhdr i d Hi Ht Hd) as H17.
    pose proof (icc_offset_mono_prefix jd k Hhdr 0%nat i ltac:(lia)) as H0.
    pose proof (icc_offset_mono_prefix jd k Hhdr (S i) k ltac:(lia)) as H1.
    simpl in H0, H1. rewrite (icc_bytes_at_icc kICC jd i d) in H1 by done.
    assert (length (take 17 d) = 17%nat) as Hhead.
    { rewrite length_take. unfold size in H17. lia. }
    split.
    + assert (size (slice icc (icc_offset kICC jd i) (size d - 17)) = size d - 17)
        as Hs by (apply slice_size; lia).
      unfold size in *. rewrite length_app, Hhead. lia.
    + by rewrite take_app_length'.
  - assert (marker_after kICC icc jd k i d = d) as ->; [|done].
    destruct (decide (i < k)%nat).
    + apply marker_after_not_icc. tauto.
    + apply marker_after_ge. lia.
Qed.

Lemma processed_same_layout icc jd k s :
  processed kICC icc jd k s → same_layout jd (icc_jpeg_data s).
Proof.
  intros (Ht & Hd & _ & Hrange & Hroom). split; [done|].
  assert (∀ j d, (j < k)%nat → app_marker_type jd !! j = Some kICC →
                 app_data jd !! j = Some d → 17 ≤ size d) as Hhdr.
  { intros j d Hj Htj Hdj. pose proof (Hroom j d Hj Htj Hdj). lia. }
  rewrite Hd. apply Forall2_same_length_lookup. split.
  - by rewrite redistributed_length.
  - intros i d d' Hi Hi'. rewrite redistributed_lookup, Hi in Hi'.
    injection Hi' as <-. by apply written_marker.
Qed.

(** The loop as two loops, one after the other. *)
Lemma icc_loop_app icc a b i (s : icc_state AppMarkerType) :
  icc_loop kICC icc (a + b) i s
  = flow_bind (icc_loop kICC icc a i s) (icc_loop kICC icc b (i + a)).
Proof.
  revert i s. induction a as [|a IH]; intros i s; simpl.
  - by rewrite Nat.add_0_r.
  - destruct (icc_loop_body kICC icc i s) as [s'| | |]; simpl; try done.
    rewrite IH. by replace (S i + a)%nat with (i + S a)%nat by lia.
Qed.

(** The loop reads a tag for every marker it goes through. *)
Lemma icc_loop_tags icc :
  ∀ n k (s s' : icc_state AppMarkerType),
    icc_loop kICC icc n k s = Next s' →
    ∀ i, (k ≤ i < k + n)%nat →
         is_Some (app_marker_type (icc_jpeg_data s) !! i).
Proof.
  induction n as [|n IH]; intros k s s' Hrun i Hi; [lia|].
  simpl in Hrun.
  destruct (icc_loop_body kICC icc k s) as [s1| | |] eqn:Hbody; try done.
  simpl in Hrun.
  assert (app_marker_type (icc_jpeg_data s1) = app_marker_type (icc_jpeg_data s)
          ∧ is_Some (app_marker_type (icc_jpeg_data s) !! k)) as [Htags Hk].
  { unfold icc_loop_body in Hbody.
    destruct (app_marker_type (icc_jpeg_data s) !! k) as [t|]; [|done].
    split; [|by eauto].
    destruct (decide (t ≠ kICC)); [by injection Hbody as <-|].
    destruct (app_data (icc_jpeg_data s) !! k) as [d|]; [|done].
    case_bool_decide; [done|].
    destruct (memcpy _ _ _ _ _); [|done]. by injection Hbody as <-. }
  destruct (decide (i = k)) as [->|]; [done|].
  rewrite <-Htags. apply (IH (S k) s1 s' Hrun). lia.
Qed.

(** The body of the loop at a [kICC] marker shorter than its header: the
    length wraps around; the check then only catches the marker when the
    sum [icc_pos + len] does not wrap around as well. *)
Lemma icc_loop_body_short icc jd k s d :
  addressable icc jd →
  processed kICC icc jd k s →
  app_marker_type jd !! k = Some kICC → app_data jd !! k = Some d →
  size d < 17 →
  icc_loop_body kICC icc k s
  = if decide (icc_offset kICC jd k + size d < 17 ∧
               size icc < size_t_modulus - (17 - (icc_offset kICC jd k + size d)))
    then Return (StatusFailure
                   (ICC_length_is_less_than_APP_markers
                      (size d - 17 + size_t_modulus)
                      (size icc - icc_offset kICC jd k))) s
    else Undefined.
Proof.
  intros Haddr (Ht & Hd & Hp & Hoff & _) Htk Hdk Hshort.
  unfold icc_loop_body. rewrite Ht, Htk.
  destruct (decide (kICC ≠ kICC)) as [|_]; [done|].
  rewrite Hd, redistributed_lookup, Hdk. simpl.
  rewrite marker_after_ge by done. rewrite Hp.
  pose proof (Haddr k d Hdk) as Hsz.
  pose proof (size_nonneg d). pose proof (size_nonneg icc).
  assert (size_t_sub (size d) 17 = size d - 17 + size_t_modulus) as ->.
  { unfold size_t_sub. apply size_t_wrap_below.
    rewrite size_t_modulus_eq in *. lia. }
  assert (size_t_sub (size icc) (icc_offset kICC jd k)
          = size icc - icc_offset kICC jd k) as ->.
  { unfold size_t_sub. apply size_t_wrap_small. lia. }
  assert (memcpy d 17 icc (icc_offset kICC jd k) (size d - 17 + size_t_modulus)
          = None) as ->.
  { unfold memcpy. rewrite bool_decide_eq_false_2; [done|].
    rewrite size_t_modulus_eq in *. lia. }
  unfold size_t_add.
  destruct (decide (icc_offset kICC jd k + size d < 17)) as [Hlow|Hhigh].
  - rewrite size_t_wrap_small by (rewrite size_t_modulus_eq in *; lia).
    case_bool_decide; case_decide; try done; lia.
  - rewrite size_t_wrap_above by (rewrite size_t_modulus_eq in *; lia).
    rewrite bool_decide_eq_false_2 by lia.
    case_decide; [lia | done].
Qed.

(** X2.  A payload with a [kICC] marker of less than 17 bytes is never
    accepted: the block reports an underrun or leaves the vectors. *)
Theorem SetICCInJpegData_short_marker icc jd i d :
  addressable icc jd →
  app_marker_type jd !! i = Some kICC → app_data jd !! i = Some d →
  size d < 17 →
  match SetICCInJpegData kICC icc (Some jd) with
  | Next _ => False
  | Return st _ =>
      ∃ len avail, st = StatusFailure (ICC_length_is_less_than_APP_markers len avail)
  | Undefined => True
  | OutOfFuel => False
  end.
Proof.
  intros Haddr Ht Hd Hshort.
  pose proof (SetICCInJpegData_spec kICC icc jd Haddr) as Hspec.
  cbv zeta in Hspec.
  destruct (SetICCInJpegData kICC icc (Some jd)) as [r|st r| |]; try done.
  - destruct Hspec as (_ & Hhdr & _). pose proof (Hhdr i d Ht Hd). lia.
  - destruct Hspec as [(_ & _ & Hhdr & _)|(k & dk & _ & _ & -> & _)].
    + pose proof (Hhdr i d Ht Hd). lia.
    + eauto.
Qed.

(** The markers before index [k], the ones tagged [kICC] with their
    header and none asking for more than is left: the loop goes through
    them unless one of the [kICC] markers is its header alone, whose
    element 17 the copy names. *)
Lemma icc_loop_upto icc jd :
  addressable icc jd →
  ∀ k,
    (k ≤ length (app_data jd))%nat →
    (∀ j, (j < k)%nat →
          is_Some (app_marker_type jd !! j) ∧
          (∀ d', app_marker_type jd !! j = Some kICC → app_data jd !! j = Some d' →
                 17 ≤ size d') ∧
          ¬ needs_more_than_left kICC icc jd j) →
    match icc_loop kICC icc k 0 (mkIccState jd 0) with
    | Next s =>
        processed kICC icc jd k s ∧
        ¬ Exists (λ td, td.1 = kICC ∧ size td.2 = 17)
            (take k (zip (app_marker_type jd) (app_data jd)))
    | Undefined =>
        Exists (λ td, td.1 = kICC ∧ size td.2 = 17)
          (take k (zip (app_marker_type jd) (app_data jd)))
    | _ => False
    end.
Proof.
  intros Haddr k. induction k as [|k IH]; intros Hk Hpre.
  - simpl. split; [apply processed_0|]. by intros ?%Exists_nil.
  - specialize (IH ltac:(lia)).
    assert (∀ j, (j < k)%nat →
              is_Some (app_marker_type jd !! j) ∧
              (∀ d', app_marker_type jd !! j = Some kICC →
                     app_data jd !! j = Some d' → 17 ≤ size d') ∧
              ¬ needs_more_than_left kICC icc jd j) as Hpre'.
    { intros j Hj. apply Hpre. lia. }
    specialize (IH Hpre'). clear Hpre'.
    destruct (Hpre k ltac:(lia)) as ([t Ht] & Hhdr & Hfit).
    destruct (lookup_lt_is_Some_2 (app_data jd) k ltac:(lia)) as [d Hd].
    assert (zip (app_marker_type jd) (app_data jd) !! k = Some (t, d)) as Hzip.
    { apply lookup_zip_with_Some. by exists t, d. }
    assert (Exists (λ td, td.1 = kICC ∧ size td.2 = 17)
              (take (S k) (zip (app_marker_type jd) (app_data jd)))
            ↔ Exists (λ td, td.1 = kICC ∧ size td.2 = 17)
                (take k (zip (app_marker_type jd) (app_data jd)))
              ∨ (t = kICC ∧ size d = 17)) as Hlast.
    { rewrite (take_S_r _ _ _ Hzip), Exists_app, Exists_cons, Exists_nil.
      simpl. tauto. }
    replace (icc_loop kICC icc (S k) 0 (mkIccState jd 0))
      with (icc_loop kICC icc (k + 1) 0 (mkIccState jd 0))
      by (f_equal; lia).
    rewrite icc_loop_app.
    destruct (icc_loop kICC icc k 0 (mkIccState jd 0)) as [s|st s| |];
      simpl; [|done|apply Hlast; by left|done].
    destruct IH as [Hs Hnot].
    pose proof (icc_loop_body_spec kICC icc jd k s Haddr Hs ltac:(lia)) as Hbody.
    destruct (icc_loop_body kICC icc k s) as [s'|st s'| |]; simpl.
    + destruct Hbody as [Hs' _]. split; [done|].
      intros [?|[-> H17]]%Hlast; [done|].
      destruct Hs' as (_ & _ & _ & _ & Hroom).
      pose proof (Hroom k d ltac:(lia) Ht Hd). lia.
    + destruct Hbody as (_ & d' & Htk & Hdk & _ & [Hshort|Hmore]); [|done].
      pose proof (Hhdr d' Htk Hdk). lia.
    + destruct Hbody as [Hnone|(d' & Htk & Hdk & Hshort)]; [congruence|].
      apply Hlast. right. assert (d' = d) as -> by congruence.
      pose proof (Hhdr d Htk Hdk). split; [congruence | lia].
    + done.
Qed.

(** X3.  What the block does at the first [kICC] marker of less than 17
    bytes, the markers before it being in order (a tag each, their header
    in those tagged [kICC], none asking for more than is left).  When one
    of the [kICC] markers before it is its header alone, the copy names
    element 17 of that marker.  Otherwise, unless fewer than [17 - size]
    bytes of the profile were distributed so far, the length check passes
    and the copy leaves both buffers. *)
Theorem SetICCInJpegData_first_short_marker icc jd k d :
  addressable icc jd →
  (∀ j, (j < k)%nat →
        is_Some (app_marker_type jd !! j) ∧
        (∀ d', app_marker_type jd !! j = Some kICC → app_data jd !! j = Some d' →
               17 ≤ size d') ∧
        ¬ needs_more_than_left kICC icc jd j) →
  app_marker_type jd !! k = Some kICC → app_data jd !! k = Some d →
  size d < 17 →
  SetICCInJpegData kICC icc (Some jd)
  = if decide (Exists (λ td, td.1 = kICC ∧ size td.2 = 17)
                 (take k (zip (app_marker_type jd) (app_data jd))))
    then Undefined
    else
      if decide (icc_offset kICC jd k + size d < 17 ∧
                 size icc < size_t_modulus - (17 - (icc_offset kICC jd k + size d)))
      then Return (StatusFailure
                     (ICC_length_is_less_than_APP_markers
                        (size d - 17 + size_t_modulus)
                        (size icc - icc_offset kICC jd k)))
             (Some (payload_after kICC icc jd k))
      else Undefined.
Proof.
  intros Haddr Hpre Ht Hd Hshort.
  pose proof (lookup_lt_Some _ _ _ Hd) as Hk.
  unfold SetICCInJpegData.
  replace (length (app_data jd)) with (k + S (length (app_data jd) - S k))%nat
    by lia.
  rewrite icc_loop_app.
  pose proof (icc_loop_upto icc jd Haddr k ltac:(lia) Hpre) as Hupto.
  destruct (icc_loop kICC icc k 0 (mkIccState jd 0)) as [s|st s| |];
    simpl; try done.
  - destruct Hupto as [Hs Hnot]. rewrite decide_False by done.
    rewrite (icc_loop_body_short icc jd k s d) by done.
    case_decide; simpl; [|done].
    by rewrite (processed_payload kICC icc jd k s).
  - by rewrite decide_True.
Qed.

Lemma block_same_layout icc jd :
  addressable icc jd →
  match SetICCInJpegData kICC icc (Some jd) with
  | Next r | Return _ r => ∃ jd', r = Some jd' ∧ same_layout jd jd'
  | _ => True
  end.
Proof.
  intros Haddr. unfold SetICCInJpegData.
  pose proof (icc_loop_spec kICC icc jd Haddr (length (app_data jd)) 0
                (mkIccState jd 0) (processed_0 kICC icc jd) eq_refl) as Hloop.
  destruct (icc_loop kICC icc (length (app_data jd)) 0 (mkIccState jd 0))
    as [s|st s| |]; simpl; try done.
  - destruct Hloop as [Hs _]. apply processed_same_layout in Hs.
    destruct (_ && _); eauto.
  - destruct Hloop as (i & d & _ & Hs & _).
    apply processed_same_layout in Hs. eauto.
Qed.

(** X4.  In every state that the block leaves behind, the payload has the tags,
    the number of markers, the size of every marker and the first 17 bytes
    of every marker that it had on entry. *)
Theorem SetICCInJpegData_keeps_layout icc jd :
  addressable icc jd →
  match SetICCInJpegData kICC icc (Some jd) with
  | Next r | Return _ r => ∃ jd', r = Some jd' ∧ same_layout jd jd'
  | _ => True
  end.
Proof. apply block_same_layout. Qed.

(** The profile read back from the markers that have received their
    slices. *)
Lemma icc_from_markers_prefix icc jd n :
  (∀ j d, (j < n)%nat → app_marker_type jd !! j = Some kICC →
          app_data jd !! j = Some d → 17 ≤ size d) →
  0 ≤ icc_offset kICC jd n ≤ size icc →
  ∀ k, (k ≤ n)%nat →
    concat (take k (zip_with (λ t d, if decide (t = kICC) then drop 17 d else [])
                      (app_marker_type jd) (redistributed kICC icc jd n)))
    = take (Z.to_nat (icc_offset kICC jd k)) icc.
Proof.
  intros Hhdr Hrange k Hk. induction k as [|k IH]; [done|].
  specialize (IH ltac:(lia)).
  pose proof (icc_offset_mono_prefix jd n Hhdr 0%nat k ltac:(lia)) as H0.
  simpl in H0.
  change (icc_offset kICC jd (S k))
    with (icc_offset kICC jd k + icc_bytes_at kICC jd k).
  set (L := zip_with _ _ _) in *.
  destruct (L !! k) as [x|] eqn:Hx.
  - rewrite (take_S_r _ _ x) by done.
    rewrite concat_app, IH. simpl. rewrite app_nil_r.
    unfold L in Hx. apply lookup_zip_with_Some in Hx as (t & d' & -> & Ht & Hd').
    rewrite redistributed_lookup in Hd'.
    destruct (app_data jd !! k) as [d|] eqn:Hd; [|done].
    injection Hd' as <-.
    destruct (decide (t = kICC)) as [->|Hne].
    + rewrite marker_after_icc by (done || lia).
      pose proof (Hhdr k d ltac:(lia) Ht Hd) as H17.
      rewrite drop_app_length'.
      2:{ rewrite length_take. unfold size in H17. lia. }
      rewrite (icc_bytes_at_icc kICC jd k d) by done.
      unfold slice. rewrite take_take_drop. f_equal. lia.
    + rewrite icc_bytes_at_other by congruence.
      rewrite app_nil_r. f_equal. lia.
  - apply lookup_ge_None_1 in Hx.
    rewrite !take_ge in * by lia. rewrite IH.
    assert (icc_bytes_at kICC jd k = 0) as ->; [|f_equal; lia].
    unfold L in Hx. rewrite length_zip_with, redistributed_length in Hx.
    unfold icc_bytes_at.
    destruct (app_marker_type jd !! k) as [t|] eqn:Ht; [|done].
    destruct (app_data jd !! k) as [d|] eqn:Hd; [|done].
    apply lookup_lt_Some in Ht, Hd. lia.
Qed.

Lemma block_round_trip icc jd jd' :
  addressable icc jd →
  SetICCInJpegData kICC icc (Some jd) = Next (Some jd') →
  icc_from_markers kICC jd' = icc ∨ (icc_from_markers kICC jd' = [] ∧ jd' = jd).
Proof.
  intros Haddr Hrun.
  pose proof (SetICCInJpegData_spec kICC icc jd Haddr) as Hspec.
  cbv zeta in Hspec. rewrite Hrun in Hspec.
  destruct Hspec as ([= ->] & Hhdr & _ & Hrange & Htotal).
  assert (icc_from_markers kICC (payload_after kICC icc jd (length (app_data jd)))
          = take (Z.to_nat (icc_offset kICC jd (length (app_data jd)))) icc)
    as Hread.
  { unfold icc_from_markers, payload_after. simpl.
    rewrite <-(icc_from_markers_prefix icc jd (length (app_data jd)))
      by (done || (intros j d _; apply Hhdr)).
    rewrite take_ge; [done|].
    rewrite length_zip_with, redistributed_length. lia. }
  destruct Htotal as [H0|Hall].
  - right. rewrite Hread, H0. split; [done|]. by apply total_0_payload.
  - left. rewrite Hread, Hall. apply take_ge. unfold size. lia.
Qed.

(** X5.  When the block succeeds, the markers carry the whole profile, or none
    of it and then the payload is as it was. *)
Theorem SetICCInJpegData_round_trip icc jd jd' :
  addressable icc jd →
  SetICCInJpegData kICC icc (Some jd) = Next (Some jd') →
  icc_from_markers kICC jd' = icc ∨ (icc_from_markers kICC jd' = [] ∧ jd' = jd).
Proof. apply block_round_trip. Qed.

(** Two payloads with the same layout and the same markers of other tags
    are treated alike: what the [kICC] markers hold after their header does
    not matter. *)
Lemma same_layout_lookup jd jd' i d :
  same_layout jd jd' → app_data jd !! i = Some d →
  ∃ d', app_data jd' !! i = Some d' ∧ size d' = size d ∧ take 17 d' = take 17 d.
Proof.
  intros [_ Hall] Hd.
  destruct (Forall2_lookup_l _ _ _ _ _ Hall Hd) as (d' & Hd' & Hsame). eauto.
Qed.

Lemma same_layout_bytes_at jd jd' i :
  same_layout jd jd' → icc_bytes_at kICC jd' i = icc_bytes_at kICC jd i.
Proof.
  intros Hlay. unfold icc_bytes_at. rewrite (proj1 Hlay).
  destruct (app_marker_type jd !! i) as [t|]; [|done].
  destruct (app_data jd !! i) as [d|] eqn:Hd.
  - destruct (same_layout_lookup jd jd' i d Hlay Hd) as (d' & -> & -> & _). done.
  - destruct Hlay as [_ Hall].
    apply Forall2_length in Hall. apply lookup_ge_None_1 in Hd.
    by rewrite lookup_ge_None_2 by lia.
Qed.

Lemma same_layout_offset jd jd' i :
  same_layout jd jd' → icc_offset kICC jd' i = icc_offset kICC jd i.
Proof.
  intros Hlay. induction i as [|i IH]; [done|].
  simpl. by rewrite IH, (same_layout_bytes_at jd jd').
Qed.

Lemma same_layout_accepted icc jd jd' out :
  addressable icc jd →
  same_layout jd jd' →
  (∀ i, app_marker_type jd !! i ≠ Some kICC → app_data jd' !! i = app_data jd !! i) →
  SetICCInJpegData kICC icc (Some jd) = Next (Some out) →
  SetICCInJpegData kICC icc (Some jd') = Next (Some out).
Proof.
  intros Haddr Hlay Hother Hrun.
  pose proof (proj1 Hlay) as Htags.
  pose proof (Forall2_length _ _ _ (proj2 Hlay)) as Hlen.
  (* what the accepted run tells *)
  assert (∀ i, (i < length (app_data jd))%nat → is_Some (app_marker_type jd !! i))
    as Htagged.
  { unfold SetICCInJpegData in Hrun.
    destruct (icc_loop kICC icc (length (app_data jd)) 0 (mkIccState jd 0))
      as [s| | |] eqn:Hloop; try done.
    intros i Hi. apply (icc_loop_tags icc _ _ _ _ Hloop i). lia. }
  pose proof (SetICCInJpegData_spec kICC icc jd Haddr) as Hspec.
  cbv zeta in Hspec. rewrite Hrun in Hspec.
  destruct Hspec as ([= ->] & Hhdr & Hnone & Hrange & Htotal).
  (* the run on the other payload *)
  assert (addressable icc jd') as Haddr'.
  { intros i d' Hd'.
    destruct (app_data jd !! i) as [d|] eqn:Hd.
    - destruct (same_layout_lookup jd jd' i d Hlay Hd) as (d2 & Hd2 & Hsz & _).
      assert (d2 = d') as -> by congruence. rewrite Hsz. by apply (Haddr i).
    - apply lookup_ge_None_1 in Hd. apply lookup_lt_Some in Hd'. lia. }
  assert (∀ i d', app_marker_type jd !! i = Some kICC →
                  app_data jd' !! i = Some d' →
                  ∃ d, app_data jd !! i = Some d ∧ size d' = size d
                       ∧ take 17 d' = take 17 d) as Hback.
  { intros i d' Ht Hd'.
    destruct (app_data jd !! i) as [d|] eqn:Hd.
    - destruct (same_layout_lookup jd jd' i d Hlay Hd) as (d2 & Hd2 & Hsame).
      assert (d2 = d') as -> by congruence. eauto.
    - apply lookup_ge_None_1 in Hd. apply lookup_lt_Some in Hd'. lia. }
  assert (payload_after kICC icc jd' (length (app_data jd))
          = payload_after kICC icc jd (length (app_data jd))) as Hout.
  { unfold payload_after. rewrite Htags. f_equal.
    apply list_eq. intros i. rewrite !redistributed_lookup.
    destruct (decide (app_marker_type jd !! i = Some kICC)) as [Ht|Ht].
    - destruct (app_data jd' !! i) as [d'|] eqn:Hd'; simpl.
      + destruct (Hback i d' Ht Hd') as (d & -> & Hsz & Hhead). simpl.
        pose proof (lookup_lt_Some _ _ _ Hd').
        rewrite !marker_after_icc by (rewrite ?Htags; done || lia).
        by rewrite Hhead, Hsz, (same_layout_offset jd jd').
      + apply lookup_ge_None_1 in Hd'.
        by rewrite lookup_ge_None_2 by lia.
    - rewrite Hother by done.
      destruct (app_data jd !! i) as [d|]; simpl; [|done].
      by rewrite !marker_after_not_icc by (rewrite ?Htags; done). }
  pose proof (SetICCInJpegData_spec kICC icc jd' Haddr') as Hspec'.
  cbv zeta in Hspec'.
  rewrite (same_layout_offset jd jd') in Hspec' by done.
  rewrite <-Hlen in Hspec'.
  destruct (SetICCInJpegData kICC icc (Some jd')) as [r|st r| |].
  - destruct Hspec' as (-> & _). by rewrite Hout.
  - destruct Hspec' as [(_ & _ & _ & _ & _ & H0 & Hall)
                       |(i & d' & Ht & Hd' & _ & _ & _ & Hwhy)].
    + lia.
    + rewrite Htags in Ht.
      destruct (Hback i d' Ht Hd') as (d & Hd & Hsz & _).
      pose proof (Hhdr i d Ht Hd).
      destruct Hwhy as [?|(d2 & _ & Hd2 & Hmore)]; [lia|].
      assert (d2 = d') as -> by congruence.
      rewrite (same_layout_offset jd jd') in Hmore by done.
      destruct (Hnone i). exists d. split_and!; try done. lia.
  - destruct Hspec' as (i & Hi & [Hnone'|(d' & Ht & Hd' & Hshort)]).
    + rewrite Htags in Hnone'. destruct (Htagged i ltac:(lia)). congruence.
    + rewrite Htags in Ht.
      destruct (Hback i d' Ht Hd') as (d & Hd & Hsz & _).
      pose proof (completed_have_room kICC icc jd Haddr) as Hroom.
      rewrite Hrun in Hroom.
      pose proof (Hroom i d Ht Hd). lia.
  - done.
Qed.

(** X6.  The block accepts its own result and leaves it as it is. *)
Theorem SetICCInJpegData_idempotent icc jd jd' :
  addressable icc jd →
  SetICCInJpegData kICC icc (Some jd) = Next (Some jd') →
  SetICCInJpegData kICC icc (Some jd') = Next (Some jd').
Proof.
  intros Haddr Hrun.
  apply (same_layout_accepted icc jd jd' jd' Haddr); [| |done].
  - pose proof (block_same_layout icc jd Haddr) as Hlay.
    rewrite Hrun in Hlay. by destruct Hlay as (? & [= <-] & ?).
  - intros i Ht.
    pose proof (SetICCInJpegData_spec kICC icc jd Haddr) as Hspec.
    cbv zeta in Hspec. rewrite Hrun in Hspec. destruct Hspec as ([= ->] & _).
    simpl. rewrite redistributed_lookup.
    destruct (app_data jd !! i); simpl; [|done].
    by rewrite marker_after_not_icc.
Qed.

(** One iteration with an empty profile, nothing being written so far. *)
Lemma icc_loop_body_empty jd k :
  addressable [] jd →
  icc_loop_body kICC [] k (mkIccState jd 0)
  = match app_marker_type jd !! k with
    | None => Undefined
    | Some t =>
      if decide (t ≠ kICC) then Next (mkIccState jd 0)
      else
        match app_data jd !! k with
        | None => Undefined
        | Some d =>
          if decide (size d = 17) then Undefined
          else Return
                 (StatusFailure
                    (ICC_length_is_less_than_APP_markers
                       (size_t_sub (size d) 17) 0))
                 (mkIccState jd 0)
        end
    end.
Proof.
  intros Haddr. unfold icc_loop_body. simpl.
  destruct (app_marker_type jd !! k) as [t|]; [|done].
  destruct (decide (t ≠ kICC)); [done|].
  destruct (app_data jd !! k) as [d|] eqn:Hd; [|done].
  pose proof (Haddr k d Hd) as Hsz. pose proof (size_nonneg d) as Hd0.
  change (size (@nil uint8_t)) with 0 in *.
  change (size_t_sub 0 0) with 0.
  assert (size_t_add 0 (size_t_sub (size d) 17) = size_t_sub (size d) 17) as ->.
  { unfold size_t_add, size_t_sub, size_t_wrap. rewrite Z.add_0_l.
    apply Zmod_mod. }
  destruct (decide (size d = 17)) as [H17|H17].
  - rewrite H17. change (size_t_sub 17 17) with 0.
    rewrite bool_decide_eq_false_2 by lia.
    unfold memcpy. rewrite bool_decide_eq_false_2 by lia. done.
  - rewrite bool_decide_eq_true_2; [done|].
    destruct (decide (17 < size d)).
    + unfold size_t_sub. rewrite size_t_wrap_small; lia.
    + unfold size_t_sub. rewrite size_t_wrap_below;
        rewrite size_t_modulus_eq in *; lia.
Qed.

(** The loop with an empty profile: it goes on as long as the markers have
    another tag than [kICC]. *)
Lemma icc_loop_empty jd :
  addressable [] jd →
  ∀ n k,
    (k + n = length (app_data jd))%nat →
    match icc_loop kICC [] n k (mkIccState jd 0) with
    | Next s =>
        s = mkIccState jd 0 ∧
        ∀ i, (k ≤ i < length (app_data jd))%nat →
             ∃ t, app_marker_type jd !! i = Some t ∧ t ≠ kICC
    | Return st s =>
        s = mkIccState jd 0 ∧
        ∃ i d,
          (k ≤ i)%nat ∧
          (∀ j, (k ≤ j < i)%nat →
                ∃ t, app_marker_type jd !! j = Some t ∧ t ≠ kICC) ∧
          app_marker_type jd !! i = Some kICC ∧ app_data jd !! i = Some d ∧
          size d ≠ 17 ∧
          st = StatusFailure
                 (ICC_length_is_less_than_APP_markers (size_t_sub (size d) 17) 0)
    | Undefined =>
        ∃ i,
          (k ≤ i < length (app_data jd))%nat ∧
          (∀ j, (k ≤ j < i)%nat →
                ∃ t, app_marker_type jd !! j = Some t ∧ t ≠ kICC) ∧
          (app_marker_type jd !! i = None ∨
           ∃ d, app_marker_type jd !! i = Some kICC ∧ app_data jd !! i = Some d ∧
                size d = 17)
    | OutOfFuel => False
    end.
Proof.
  intros Haddr n. induction n as [|n IH]; intros k Hlen; simpl.
  - split; [done|]. intros i Hi. lia.
  - rewrite icc_loop_body_empty by done.
    destruct (app_marker_type jd !! k) as [t|] eqn:Ht; simpl.
    2:{ exists k. split; [lia|]. split; [intros j Hj; lia | by left]. }
    destruct (decide (t ≠ kICC)) as [Hne|Heq]; simpl.
    + specialize (IH (S k) ltac:(lia)).
      destruct (icc_loop kICC [] n (S k) (mkIccState jd 0)) as [s|st s| |].
      * destruct IH as [-> Hrest]. split; [done|].
        intros i Hi. destruct (decide (i = k)) as [->|]; [by eauto|].
        apply Hrest. lia.
      * destruct IH as (-> & i & d & Hi & Hbefore & Hrest). split; [done|].
        exists i, d. split; [lia|]. split; [|done].
        intros j Hj. destruct (decide (j = k)) as [->|]; [by eauto|].
        apply Hbefore. lia.
      * destruct IH as (i & Hi & Hbefore & Hrest).
        exists i. split; [lia|]. split; [|done].
        intros j Hj. destruct (decide (j = k)) as [->|]; [by eauto|].
        apply Hbefore. lia.
      * done.
    + apply dec_stable in Heq. subst t.
      destruct (app_data jd !! k) as [d|] eqn:Hd; simpl.
      2:{ apply lookup_ge_None_1 in Hd. lia. }
      destruct (decide (size d = 17)) as [H17|H17]; simpl.
      * exists k. split; [lia|]. split; [intros j Hj; lia|].
        right. by exists d.
      * split; [done|]. exists k, d.
        split; [lia|]. split; [intros j Hj; lia|]. done.
Qed.

(** X7.  With an empty profile, the sizes of the markers fitting
    [size_t]: the block succeeds, leaving the payload as it is, only when
    every marker has another tag than [kICC]; otherwise it stops at the
    first marker that has not, the payload still as it was, with the
    underrun failure (nothing available) when that marker is tagged [kICC]
    and its size is not 17, and outside the vectors when it has no tag or
    is a [kICC] marker of exactly 17 bytes, whose element 17 the copy
    names. *)
Theorem SetICCInJpegData_empty_profile jd :
  addressable [] jd →
  match SetICCInJpegData kICC [] (Some jd) with
  | Next r =>
      r = Some jd ∧
      ∀ i, (i < length (app_data jd))%nat →
           ∃ t, app_marker_type jd !! i = Some t ∧ t ≠ kICC
  | Return st r =>
      r = Some jd ∧
      ∃ i d,
        (∀ j, (j < i)%nat → ∃ t, app_marker_type jd !! j = Some t ∧ t ≠ kICC) ∧
        app_marker_type jd !! i = Some kICC ∧ app_data jd !! i = Some d ∧
        size d ≠ 17 ∧
        st = StatusFailure
               (ICC_length_is_less_than_APP_markers (size_t_sub (size d) 17) 0)
  | Undefined =>
      ∃ i,
        (i < length (app_data jd))%nat ∧
        (∀ j, (j < i)%nat → ∃ t, app_marker_type jd !! j = Some t ∧ t ≠ kICC) ∧
        (app_marker_type jd !! i = None ∨
         ∃ d, app_marker_type jd !! i = Some kICC ∧ app_data jd !! i = Some d ∧
              size d = 17)
  | OutOfFuel => False
  end.
Proof.
  intros Haddr. unfold SetICCInJpegData.
  pose proof (icc_loop_empty jd Haddr (length (app_data jd)) 0 eq_refl) as Hloop.
  destruct (icc_loop kICC [] (length (app_data jd)) 0 (mkIccState jd 0))
    as [s|st s| |]; simpl.
  - destruct Hloop as [-> Hall]. simpl. split; [done|].
    intros i Hi. apply Hall. lia.
  - destruct Hloop as (-> & i & d & _ & Hbefore & Ht & Hd & H17 & ->).
    split; [done|]. exists i, d. split_and!; try done.
    intros j Hj. apply Hbefore. lia.
  - destruct Hloop as (i & Hi & Hbefore & Hwhy).
    exists i. split; [lia|]. split; [|done].
    intros j Hj. apply Hbefore. lia.
  - done.
Qed.

End SetICC_more_facts.

(** * Properties of the frame loop *)

Section FrameLoop_facts.

Context {FrameType : Type} `{EqDecision FrameType}.
Variables kRegularFrame kSkipProgressive : FrameType.
Context {PassesDecoderState BitReader ImageBundle JpegPayload : Type}.
Variable frame_header : PassesDecoderState → FrameHeader FrameType.
Variable new_ImageBundle : ImageBundle.
Variable set_jpeg_data : ImageBundle → JpegPayload → ImageBundle.
Variables xsize ysize : ImageBundle → Z.
Variable DecodeFrame :
  PassesDecoderState → BitReader → ImageBundle → CodecInOut ImageBundle →
  Status * (PassesDecoderState * BitReader * ImageBundle).

Implicit Types
  (s : loop_state PassesDecoderState BitReader ImageBundle JpegPayload).
Implicit Types (v : list ImageBundle) (f slot : ImageBundle).

Local Abbreviation displayed :=
  (decoded_as_displayed kRegularFrame kSkipProgressive frame_header DecodeFrame).
Local Abbreviation inner :=
  (decode_until_displayed kRegularFrame kSkipProgressive frame_header DecodeFrame).
Local Abbreviation iteration :=
  (frame_iteration kRegularFrame kSkipProgressive frame_header new_ImageBundle
     set_jpeg_data xsize ysize DecodeFrame).
Local Abbreviation outer :=
  (decode_frames kRegularFrame kSkipProgressive frame_header new_ImageBundle
     set_jpeg_data xsize ysize DecodeFrame).

(** The test that ends the inner loop. *)
Lemma displayed_test (t : FrameType) :
  bool_decide (t ≠ kRegularFrame) && bool_decide (t ≠ kSkipProgressive) = false
  ↔ is_displayed kRegularFrame kSkipProgressive t.
Proof.
  unfold is_displayed. rewrite andb_false_iff, !bool_decide_eq_false.
  split; (intros [Ht|Ht]; [left | right]); [by apply dec_stable .. | tauto | tauto].
Qed.

Lemma set_back_snoc f slot v : set_back f (v ++ [slot]) = v ++ [f].
Proof.
  unfold set_back. rewrite length_app. simpl.
  replace (pred (length v + 1)) with (length v + 0)%nat by lia.
  by rewrite insert_app_r.
Qed.

(** The inner loop keeps the size of [io->frames] and every element but
    the last; when it exits, the last element comes from a call that
    reported a displayed frame type. *)
Lemma decode_until_displayed_spec fuel :
  ∀ s v slot,
    frames (io s) = v ++ [slot] →
    match inner fuel s with
    | Next s' =>
        ∃ f, frames (io s') = v ++ [f] ∧ displayed f ∧
             is_displayed kRegularFrame kSkipProgressive
               (frame_type (frame_header (dec_state s'))) ∧
             dec_pixels (io s') = dec_pixels (io s) ∧
             jpeg_data s' = jpeg_data s
    | Return st s' =>
        st ≠ StatusOk ∧ ∃ f, frames (io s') = v ++ [f]
    | Undefined => False
    | OutOfFuel => True
    end.
Proof.
  induction fuel as [|fuel IH]; intros s v slot Hv; simpl; [done|].
  rewrite Hv, last_snoc.
  destruct (DecodeFrame (dec_state s) (reader s) slot (io s))
    as [st [[ds r] decoded]] eqn:Hcall.
  rewrite set_back_snoc.
  destruct st as [|why]; [|split; [done | eauto]].
  destruct (bool_decide (frame_type (frame_header ds) ≠ kRegularFrame)
            && bool_decide (frame_type (frame_header ds) ≠ kSkipProgressive))
    eqn:Htype.
  - match goal with
    | |- match inner fuel ?s1 with _ => _ end =>
        specialize (IH s1 v decoded eq_refl);
        destruct (inner fuel s1) as [s'|st s'| |]
    end; try done.
  - apply displayed_test in Htype.
    exists decoded. simpl. split_and!; try done.
    exists (dec_state s), (reader s), slot, (io s). by rewrite Hcall.
Qed.

(** One pass of the outer loop appends one element to [io->frames],
    whatever the number of frames decoded into it. *)
Lemma frame_iteration_spec inner_fuel s :
  match iteration inner_fuel s with
  | Next s' =>
      ∃ f, frames (io s') = frames (io s) ++ [f] ∧ displayed f ∧
           is_displayed kRegularFrame kSkipProgressive
             (frame_type (frame_header (dec_state s')))
  | Return st s' =>
      st ≠ StatusOk ∧ ∃ f, frames (io s') = frames (io s) ++ [f]
  | Undefined => False
  | OutOfFuel => True
  end.
Proof.
  unfold frame_iteration.
  assert (∃ s1 b, move_jpeg_data set_jpeg_data (emplace_back_frame new_ImageBundle s)
                  = Next s1 ∧ frames (io s1) = frames (io s) ++ [b])
    as (s1 & b & -> & Hs1).
  { unfold move_jpeg_data, emplace_back_frame. simpl.
    destruct (jpeg_data s) as [payload|]; [|by eauto].
    rewrite last_snoc, set_back_snoc. by eauto. }
  simpl.
  pose proof (decode_until_displayed_spec inner_fuel s1 _ b Hs1) as Hinner.
  destruct (inner inner_fuel s1) as [s2|st s2| |]; simpl; try done.
  destruct Hinner as (f & Hf & Hdisp & Htype & _).
  unfold count_pixels. rewrite Hf, last_snoc. simpl. eauto.
Qed.

(** The outer loop: the elements it appends come from displayed frames,
    except the one under decode when a call of DecodeFrame fails. *)
Lemma decode_frames_spec inner_fuel fuel :
  ∀ s,
    match outer inner_fuel fuel s with
    | Next s' =>
        ∃ v, frames (io s') = frames (io s) ++ v ∧ v ≠ [] ∧
             Forall displayed v ∧
             is_displayed kRegularFrame kSkipProgressive
               (frame_type (frame_header (dec_state s'))) ∧
             is_last (frame_header (dec_state s')) = true
    | Return st s' =>
        st ≠ StatusOk ∧
        ∃ v f, frames (io s') = frames (io s) ++ v ++ [f] ∧ Forall displayed v
    | Undefined => False
    | OutOfFuel => True
    end.
Proof.
  induction fuel as [|fuel IH]; intros s; simpl; [done|].
  pose proof (frame_iteration_spec inner_fuel s) as Hiter.
  destruct (iteration inner_fuel s) as [s1|st s1| |]; simpl; try done.
  - destruct Hiter as (f & Hf & Hdisp & Htype).
    destruct (is_last (frame_header (dec_state s1))) eqn:Hlast; simpl.
    + exists [f]. split_and!; try done. by apply Forall_singleton.
    + specialize (IH s1).
      destruct (outer inner_fuel fuel s1) as [s2|st s2| |]; try done.
      * destruct IH as (v & Hv & _ & Hall & Htype2 & Hlast2).
        exists (f :: v). split_and!; try done.
        -- rewrite Hv, Hf. by rewrite <-app_assoc.
        -- by apply Forall_cons.
      * destruct IH as (Hst & v & g & Hv & Hall).
        split; [done|]. exists (f :: v), g. split.
        -- rewrite Hv, Hf. by rewrite <-app_assoc.
        -- by apply Forall_cons.
  - destruct Hiter as (Hst & f & Hf).
    split; [done|]. exists [], f. by split.
Qed.

(** A frame that is not displayed makes the inner loop decode again, into
    the slot that this frame was decoded into. *)
Lemma decode_until_displayed_skips fuel s slot ds r f :
  last (frames (io s)) = Some slot →
  DecodeFrame (dec_state s) (reader s) slot (io s) = (StatusOk, (ds, r, f)) →
  ¬ is_displayed kRegularFrame kSkipProgressive (frame_type (frame_header ds)) →
  inner (S fuel) s
  = inner fuel
      {| jpeg_data := jpeg_data s; dec_state := ds; reader := r;
         io := {| frames := set_back f (frames (io s));
                  dec_pixels := dec_pixels (io s) |} |}.
Proof.
  intros Hslot Hcall Htype. simpl. rewrite Hslot, Hcall.
  rewrite <-displayed_test in Htype. by apply not_false_is_true in Htype as ->.
Qed.

(** The loop never reads [back()] of an empty vector, and when it returns a
    failure the elements before the slot under decode come from displayed
    frames. *)
Lemma frame_sequencer_failure fuel s :
  match frame_sequencer kRegularFrame kSkipProgressive frame_header
          new_ImageBundle set_jpeg_data xsize ysize DecodeFrame fuel s with
  | Return st s' =>
      st ≠ StatusOk ∧ ∃ v f, frames (io s') = v ++ [f] ∧ Forall displayed v
  | Undefined => False
  | _ => True
  end.
Proof.
  unfold frame_sequencer.
  pose proof (decode_frames_spec fuel fuel (with_frames s [])) as Hspec.
  destruct (outer fuel fuel (with_frames s [])) as [s'|st s'| |]; try done.
Qed.

(** When the bundles record the type of the frame decoded into them, the
    recorded types of a completed loop are displayed ones. *)
Lemma frame_sequencer_recorded_types
    (type_of : ImageBundle → option FrameType) fuel s s' :
  (∀ ds r slot io0 ds' r' f,
     DecodeFrame ds r slot io0 = (StatusOk, (ds', r', f)) →
     type_of f = Some (frame_type (frame_header ds'))) →
  frame_sequencer kRegularFrame kSkipProgressive frame_header new_ImageBundle
    set_jpeg_data xsize ysize DecodeFrame fuel s = Next s' →
  Forall (λ f, type_of f = Some kRegularFrame ∨ type_of f = Some kSkipProgressive)
    (frames (io s')).
Proof.
  unfold frame_sequencer. intros Hrec Hrun.
  pose proof (decode_frames_spec fuel fuel (with_frames s [])) as Hspec.
  rewrite Hrun in Hspec. simpl in Hspec.
  destruct Hspec as (v & -> & _ & Hall & _).
  eapply Forall_impl; [exact Hall|].
  intros f (ds & r & slot & io0 & Hcall).
  destruct (DecodeFrame ds r slot io0) as [st [[ds' r'] f']] eqn:E.
  destruct Hcall as (-> & -> & [Ht|Ht]);
    rewrite (Hrec _ _ _ _ _ _ _ E), Ht; [by left | by right].
Qed.

(** Fuel only bounds the model: a run that ends within its fuel ends the
    same way with more. *)
Lemma decode_until_displayed_fuel fuel :
  ∀ s fuel', (fuel ≤ fuel')%nat → inner fuel s ≠ OutOfFuel →
             inner fuel' s = inner fuel s.
Proof.
  induction fuel as [|fuel IH]; intros s fuel' Hle Hrun; [done|].
  destruct fuel' as [|fuel']; [lia|]. simpl in *.
  destruct (last (frames (io s))) as [slot|]; [|done].
  destruct (DecodeFrame (dec_state s) (reader s) slot (io s))
    as [st [[ds r] decoded]].
  destruct st; [|done].
  destruct (bool_decide _ && bool_decide _); [|done].
  apply IH; [lia | done].
Qed.

Lemma frame_iteration_fuel fuel fuel' s :
  (fuel ≤ fuel')%nat → iteration fuel s ≠ OutOfFuel →
  iteration fuel' s = iteration fuel s.
Proof.
  unfold frame_iteration. intros Hle Hrun.
  destruct (move_jpeg_data set_jpeg_data (emplace_back_frame new_ImageBundle s))
    as [s1| | |]; simpl in *; try done.
  rewrite (decode_until_displayed_fuel fuel s1 fuel' Hle); [done|].
  intros Hout. by rewrite Hout in Hrun.
Qed.

Lemma decode_frames_fuel inner_fuel inner_fuel' fuel :
  (inner_fuel ≤ inner_fuel')%nat →
  ∀ s fuel', (fuel ≤ fuel')%nat → outer inner_fuel fuel s ≠ OutOfFuel →
             outer inner_fuel' fuel' s = outer inner_fuel fuel s.
Proof.
  intros Hinner. induction fuel as [|fuel IH]; intros s fuel' Hle Hrun; [done|].
  destruct fuel' as [|fuel']; [lia|]. simpl in *.
  rewrite (frame_iteration_fuel inner_fuel inner_fuel' s Hinner).
  2:{ intros Hout. by rewrite Hout in Hrun. }
  destruct (iteration inner_fuel s) as [s1| | |]; simpl in *; try done.
  destruct (is_last (frame_header (dec_state s1))); simpl in *; [done|].
  apply IH; [lia | done].
Qed.

Lemma frame_sequencer_fuel fuel fuel' s :
  (fuel ≤ fuel')%nat →
  frame_sequencer kRegularFrame kSkipProgressive frame_header new_ImageBundle
    set_jpeg_data xsize ysize DecodeFrame fuel s ≠ OutOfFuel →
  frame_sequencer kRegularFrame kSkipProgressive frame_header new_ImageBundle
    set_jpeg_data xsize ysize DecodeFrame fuel' s
  = frame_sequencer kRegularFrame kSkipProgressive frame_header new_ImageBundle
      set_jpeg_data xsize ysize DecodeFrame fuel s.
Proof.
  unfold frame_sequencer. intros Hle Hrun. by apply decode_frames_fuel.
Qed.

(** C3.  When the frame loop completes, every element of [io->frames]
    is what a call of DecodeFrame left in its slot while reporting a
    frame of type [kRegularFrame] or [kSkipProgressive]: frames of other
    types are decoded into the slot of the next displayed frame and get
    no element of their own. *)
Theorem frame_sequencer_frames_displayed fuel s s' :
  frame_sequencer kRegularFrame kSkipProgressive frame_header new_ImageBundle
    set_jpeg_data xsize ysize DecodeFrame fuel s = Next s' →
  Forall displayed (frames (io s')) ∧
  frames (io s') ≠ [] ∧
  is_displayed kRegularFrame kSkipProgressive
    (frame_type (frame_header (dec_state s'))).
Proof.
  unfold frame_sequencer. intros Hrun.
  pose proof (decode_frames_spec fuel fuel (with_frames s [])) as Hspec.
  rewrite Hrun in Hspec. simpl in Hspec.
  destruct Hspec as (v & -> & Hne & Hall & Htype & Hlast).
  split_and!; try done.
Qed.

End FrameLoop_facts.

(** * More on the frame loop *)

Section FrameLoop_more_facts.

Context {FrameType : Type} `{EqDecision FrameType}.
Variables kRegularFrame kSkipProgressive : FrameType.
Context {PassesDecoderState BitReader ImageBundle JpegPayload : Type}.
Variable frame_header : PassesDecoderState → FrameHeader FrameType.
Variable new_ImageBundle : ImageBundle.
Variable set_jpeg_data : ImageBundle → JpegPayload → ImageBundle.
Variables xsize ysize : ImageBundle → Z.
Variable DecodeFrame :
  PassesDecoderState → BitReader → ImageBundle → CodecInOut ImageBundle →
  Status * (PassesDecoderState * BitReader * ImageBundle).

Implicit Types
  (s : loop_state PassesDecoderState BitReader ImageBundle JpegPayload).
Implicit Types (v : list ImageBundle) (f slot : ImageBundle).

Local Abbreviation displayed :=
  (decoded_as_displayed kRegularFrame kSkipProgressive frame_header DecodeFrame).
Local Abbreviation inner :=
  (decode_until_displayed kRegularFrame kSkipProgressive frame_header DecodeFrame).
Local Abbreviation iteration :=
  (frame_iteration kRegularFrame kSkipProgressive frame_header new_ImageBundle
     set_jpeg_data xsize ysize DecodeFrame).
Local Abbreviation outer :=
  (decode_frames kRegularFrame kSkipProgressive frame_header new_ImageBundle
     set_jpeg_data xsize ysize DecodeFrame).
(** The start of a pass: a new last element, and the payload in it when
    there is one. *)
Lemma iteration_start s :
  ∃ s1 b,
    move_jpeg_data set_jpeg_data (emplace_back_frame new_ImageBundle s) = Next s1 ∧
    frames (io s1) = frames (io s) ++ [b] ∧
    dec_pixels (io s1) = dec_pixels (io s) ∧
    jpeg_data s1 = None ∧
    b = match jpeg_data s with
        | Some payload => set_jpeg_data new_ImageBundle payload
        | None => new_ImageBundle
        end.
Proof.
  unfold move_jpeg_data, emplace_back_frame. simpl.
  destruct (jpeg_data s) as [payload|] eqn:Hp.
  - rewrite last_snoc, set_back_snoc. by eauto 10.
  - eexists _, _. split; [done|]. simpl. by rewrite Hp.
Qed.

(** ** The pixel counter *)

Lemma frame_iteration_pixels inner_fuel s s' :
  iteration inner_fuel s = Next s' →
  ∃ f, frames (io s') = frames (io s) ++ [f] ∧
       dec_pixels (io s')
       = size_t_add (dec_pixels (io s)) (size_t_mul (xsize f) (ysize f)).
Proof.
  unfold frame_iteration.
  destruct (iteration_start s) as (s1 & b & -> & Hs1 & Hpix & _). simpl.
  pose proof (decode_until_displayed_spec kRegularFrame kSkipProgressive
                frame_header new_ImageBundle set_jpeg_data xsize ysize
                DecodeFrame inner_fuel s1 _ b Hs1) as Hinner.
  destruct (inner inner_fuel s1) as [s2|st s2| |]; simpl; try done.
  destruct Hinner as (f & Hf & _ & _ & Hpix2 & _).
  unfold count_pixels. rewrite Hf, last_snoc. intros [= <-]. simpl.
  exists f. by rewrite Hpix2, Hpix.
Qed.

Lemma decode_frames_pixels inner_fuel fuel :
  ∀ s s',
    outer inner_fuel fuel s = Next s' →
    ∃ v, frames (io s') = frames (io s) ++ v ∧
         dec_pixels (io s')
         = size_t_wrap (dec_pixels (io s) + frames_pixels xsize ysize v).
Proof.
  induction fuel as [|fuel IH]; intros s s'; simpl; [done|].
  destruct (iteration inner_fuel s) as [s1|st s1| |] eqn:Hiter; simpl; try done.
  destruct (frame_iteration_pixels inner_fuel s s1 Hiter) as (f & Hf & Hpix).
  destruct (is_last (frame_header (dec_state s1))); simpl.
  - intros [= <-]. exists [f]. split; [done|].
    rewrite Hpix. unfold size_t_add. simpl. by rewrite Z.add_0_r.
  - intros Hrun. destruct (IH s1 s' Hrun) as (v & Hv & Hpix').
    exists (f :: v). split.
    + rewrite Hv, Hf. by rewrite <-app_assoc.
    + rewrite Hpix', Hpix. unfold size_t_add, size_t_wrap. simpl.
      rewrite Zplus_mod_idemp_l. f_equal. lia.
Qed.

(** X8.  When the loop completes, the pixel counter has grown by the sizes
    [xsize() * ysize()] of the frames of the result, in 64-bit unsigned
    arithmetic. *)
Theorem frame_sequencer_counts_pixels fuel s s' :
  (frame_sequencer kRegularFrame kSkipProgressive frame_header new_ImageBundle
     set_jpeg_data xsize ysize DecodeFrame fuel s) = Next s' →
  dec_pixels (io s')
  = size_t_wrap (dec_pixels (io s) + frames_pixels xsize ysize (frames (io s'))).
Proof.
  unfold frame_sequencer. intros Hrun.
  destruct (decode_frames_pixels fuel fuel _ _ Hrun) as (v & Hv & Hpix).
  simpl in Hv, Hpix. by rewrite Hv, Hpix.
Qed.

(** ** The call that ends the loop *)

Lemma decode_until_displayed_last_call fuel :
  ∀ s,
    match inner fuel s with
    | Next s' =>
        ∃ ds r slot io0 f,
          DecodeFrame ds r slot io0 = (StatusOk, (dec_state s', reader s', f)) ∧
          last (frames (io s')) = Some f
    | Return st s' =>
        ∃ ds r slot io0 f,
          DecodeFrame ds r slot io0 = (st, (dec_state s', reader s', f)) ∧
          last (frames (io s')) = Some f
    | _ => True
    end.
Proof.
  induction fuel as [|fuel IH]; intros s; simpl; [done|].
  destruct (last (frames (io s))) as [slot|] eqn:Hslot; [|done].
  apply last_Some in Hslot as [v Hv].
  destruct (DecodeFrame (dec_state s) (reader s) slot (io s))
    as [st [[ds r] decoded]] eqn:Hcall.
  rewrite Hv, set_back_snoc.
  destruct st as [|why].
  - destruct (_ && _).
    + apply IH.
    + simpl. exists (dec_state s), (reader s), slot, (io s), decoded.
      by rewrite last_snoc.
  - simpl. exists (dec_state s), (reader s), slot, (io s), decoded.
    by rewrite last_snoc.
Qed.

Lemma frame_iteration_last_call inner_fuel s :
  match iteration inner_fuel s with
  | Next s' =>
      ∃ ds r slot io0 f,
        DecodeFrame ds r slot io0 = (StatusOk, (dec_state s', reader s', f)) ∧
        last (frames (io s')) = Some f
  | Return st s' =>
      ∃ ds r slot io0 f,
        DecodeFrame ds r slot io0 = (st, (dec_state s', reader s', f)) ∧
        last (frames (io s')) = Some f
  | _ => True
  end.
Proof.
  unfold frame_iteration.
  destruct (iteration_start s) as (s1 & b & -> & _). simpl.
  pose proof (decode_until_displayed_last_call inner_fuel s1) as Hinner.
  destruct (inner inner_fuel s1) as [s2|st s2| |]; simpl; try done.
  destruct Hinner as (ds & r & slot & io0 & f & Hcall & Hlast).
  unfold count_pixels. rewrite Hlast. simpl. eauto 10.
Qed.

Lemma decode_frames_last_call inner_fuel fuel :
  ∀ s,
    match outer inner_fuel fuel s with
    | Next s' =>
        ∃ ds r slot io0 f,
          DecodeFrame ds r slot io0 = (StatusOk, (dec_state s', reader s', f)) ∧
          last (frames (io s')) = Some f ∧
          is_last (frame_header (dec_state s')) = true
    | Return st s' =>
        ∃ ds r slot io0 f,
          DecodeFrame ds r slot io0 = (st, (dec_state s', reader s', f)) ∧
          last (frames (io s')) = Some f
    | _ => True
    end.
Proof.
  induction fuel as [|fuel IH]; intros s; simpl; [done|].
  pose proof (frame_iteration_last_call inner_fuel s) as Hiter.
  destruct (iteration inner_fuel s) as [s1|st s1| |]; simpl; try done.
  destruct (is_last (frame_header (dec_state s1))) eqn:Hlast; simpl.
  - destruct Hiter as (ds & r & slot & io0 & f & Hcall & Hf). eauto 10.
  - apply IH.
Qed.

(** X9.  The loop ends right after the call of DecodeFrame that decoded a
    displayed frame whose header has [is_last]: decoder state and reader
    are as that call left them, and the frame is the last of the result. *)
Theorem frame_sequencer_stops_at_last fuel s s' :
  (frame_sequencer kRegularFrame kSkipProgressive frame_header new_ImageBundle
     set_jpeg_data xsize ysize DecodeFrame fuel s) = Next s' →
  ∃ ds r slot io0 f,
    DecodeFrame ds r slot io0 = (StatusOk, (dec_state s', reader s', f)) ∧
    last (frames (io s')) = Some f ∧
    is_displayed kRegularFrame kSkipProgressive
      (frame_type (frame_header (dec_state s'))) ∧
    is_last (frame_header (dec_state s')) = true.
Proof.
  unfold frame_sequencer. intros Hrun.
  pose proof (decode_frames_last_call fuel fuel (with_frames s [])) as Hcall.
  pose proof (decode_frames_spec kRegularFrame kSkipProgressive frame_header
                new_ImageBundle set_jpeg_data xsize ysize DecodeFrame
                fuel fuel (with_frames s [])) as Hspec.
  rewrite Hrun in Hcall, Hspec.
  destruct Hcall as (ds & r & slot & io0 & f & Hc & Hf & Hlast).
  destruct Hspec as (_ & _ & _ & _ & Htype & _).
  exists ds, r, slot, io0, f. by split_and!.
Qed.

(** X10.  When the loop returns a failure, it is the status of a call of
    DecodeFrame, unchanged, with decoder state, reader and last frame as
    that call left them; the frames before the last come from displayed
    frames. *)
Theorem frame_sequencer_propagates_failure fuel s st s' :
  (frame_sequencer kRegularFrame kSkipProgressive frame_header new_ImageBundle
     set_jpeg_data xsize ysize DecodeFrame fuel s) = Return st s' →
  st ≠ StatusOk ∧
  ∃ ds r slot io0 f v,
    DecodeFrame ds r slot io0 = (st, (dec_state s', reader s', f)) ∧
    frames (io s') = v ++ [f] ∧ Forall displayed v.
Proof.
  unfold frame_sequencer. intros Hrun.
  pose proof (decode_frames_last_call fuel fuel (with_frames s [])) as Hcall.
  pose proof (decode_frames_spec kRegularFrame kSkipProgressive frame_header
                new_ImageBundle set_jpeg_data xsize ysize DecodeFrame
                fuel fuel (with_frames s [])) as Hspec.
  rewrite Hrun in Hcall, Hspec.
  destruct Hcall as (ds & r & slot & io0 & f & Hc & Hf).
  destruct Hspec as (Hst & v & g & Hv & Hall). simpl in Hv.
  split; [done|]. exists ds, r, slot, io0, f, v. split_and!; try done.
  rewrite Hv, last_snoc in Hf. injection Hf as <-. done.
Qed.

(** ** Where the JPEG payload goes *)

Section Payload.

(** [ib.jpeg_data] read back, for a DecodeFrame that leaves this member of
    the bundle it decodes into as it finds it. *)
Variable get_jpeg_data : ImageBundle → option JpegPayload.
Hypothesis get_new : get_jpeg_data new_ImageBundle = None.
Hypothesis get_set : ∀ b payload,
  get_jpeg_data (set_jpeg_data b payload) = Some payload.
Hypothesis get_decoded : ∀ ds r slot io0 st ds' r' f,
  DecodeFrame ds r slot io0 = (st, (ds', r', f)) →
  get_jpeg_data f = get_jpeg_data slot.

Lemma decode_until_displayed_payload fuel :
  ∀ s v slot,
    frames (io s) = v ++ [slot] →
    match inner fuel s with
    | Next s' | Return _ s' =>
        ∃ f, frames (io s') = v ++ [f] ∧
             get_jpeg_data f = get_jpeg_data slot ∧
             jpeg_data s' = jpeg_data s
    | _ => True
    end.
Proof.
  induction fuel as [|fuel IH]; intros s v slot Hv; simpl; [done|].
  rewrite Hv, last_snoc.
  destruct (DecodeFrame (dec_state s) (reader s) slot (io s))
    as [st [[ds r] decoded]] eqn:Hcall.
  apply get_decoded in Hcall.
  rewrite set_back_snoc.
  destruct st as [|why]; [|by eauto].
  destruct (_ && _); [|by eauto].
  match goal with
  | |- match inner fuel ?s1 with _ => _ end =>
      specialize (IH s1 v decoded eq_refl);
      destruct (inner fuel s1) as [s'|st s'| |]
  end; try done;
    destruct IH as (f & Hf & Hget & Hjpeg); exists f; by rewrite Hget.
Qed.

Lemma frame_iteration_payload inner_fuel s :
  match iteration inner_fuel s with
  | Next s' | Return _ s' =>
      ∃ f, frames (io s') = frames (io s) ++ [f] ∧
           get_jpeg_data f = jpeg_data s ∧
           jpeg_data s' = None
  | _ => True
  end.
Proof.
  unfold frame_iteration.
  destruct (iteration_start s) as (s1 & b & -> & Hs1 & _ & Hnone & Hb). simpl.
  assert (get_jpeg_data b = jpeg_data s) as Hget.
  { rewrite Hb. by destruct (jpeg_data s). }
  pose proof (decode_until_displayed_payload inner_fuel s1 _ b Hs1) as Hinner.
  destruct (inner inner_fuel s1) as [s2|st s2| |]; simpl; try done.
  - destruct Hinner as (f & Hf & Hgetf & Hjpeg).
    unfold count_pixels. rewrite Hf, last_snoc. simpl.
    exists f. split_and!; [done | congruence | congruence].
  - destruct Hinner as (f & Hf & Hgetf & Hjpeg).
    exists f. split_and!; [done | congruence | congruence].
Qed.

Lemma decode_frames_payload inner_fuel fuel :
  ∀ s,
    match outer inner_fuel fuel s with
    | Next s' | Return _ s' =>
        ∃ f v, frames (io s') = frames (io s) ++ f :: v ∧
               get_jpeg_data f = jpeg_data s ∧
               Forall (λ g, get_jpeg_data g = None) v ∧
               jpeg_data s' = None
    | _ => True
    end.
Proof.
  induction fuel as [|fuel IH]; intros s; simpl; [done|].
  pose proof (frame_iteration_payload inner_fuel s) as Hiter.
  destruct (iteration inner_fuel s) as [s1|st s1| |]; simpl; try done.
  - destruct Hiter as (f & Hf & Hget & Hnone).
    destruct (is_last (frame_header (dec_state s1))); simpl.
    + exists f, []. by split_and!.
    + specialize (IH s1).
      destruct (outer inner_fuel fuel s1) as [s2|st s2| |]; try done;
        destruct IH as (g & v & Hv & Hgetg & Hall & Hnone2);
        exists f, (g :: v);
        (split_and!;
         [rewrite Hv, Hf; by rewrite <-app_assoc | done
         | apply Forall_cons; split; [congruence | done] | done]).
  - destruct Hiter as (f & Hf & Hget & Hnone). exists f, []. by split_and!.
Qed.

(** X11.  The payload that [DecodeFile] holds on entry of the loop is in the
    first frame of the result and in no other one, and the local pointer
    is null afterwards, also when the loop returns a failure. *)
Theorem frame_sequencer_payload_in_first_frame fuel s :
  match (frame_sequencer kRegularFrame kSkipProgressive frame_header new_ImageBundle
     set_jpeg_data xsize ysize DecodeFrame fuel s) with
  | Next s' | Return _ s' =>
      ∃ f v, frames (io s') = f :: v ∧
             get_jpeg_data f = jpeg_data s ∧
             Forall (λ g, get_jpeg_data g = None) v ∧
             jpeg_data s' = None
  | _ => True
  end.
Proof.
  unfold frame_sequencer.
  apply (decode_frames_payload fuel fuel (with_frames s [])).
Qed.

End Payload.

End FrameLoop_more_facts.

(** * Examples *)

Example ex_distributed :
  SetICCInJpegData ex_kICC ex_icc (Some ex_payload) = Next (Some ex_payload_done).
Proof. reflexivity. Qed.

Example ex_underrun :
  SetICCInJpegData ex_kICC ex_icc (Some ex_payload_large)
  = Return (StatusFailure (ICC_length_is_less_than_APP_markers 4 3))
      (Some {| app_data := [ex_header ++ [Byte.x01; Byte.x02];
                            ex_header ++ [Byte.xff; Byte.xff; Byte.xff; Byte.xff]];
               app_marker_type := [1; 1]%nat |}).
Proof. reflexivity. Qed.

Example ex_overrun :
  SetICCInJpegData ex_kICC ex_icc (Some ex_payload_small)
  = Return (StatusFailure ICC_length_is_more_than_APP_markers)
      (Some {| app_data := [ex_header ++ [Byte.x01; Byte.x02];
                            ex_header ++ [Byte.x03; Byte.x04]];
               app_marker_type := [1; 1]%nat |}).
Proof. reflexivity. Qed.

Example ex_unconsumed :
  SetICCInJpegData ex_kICC ex_icc (Some ex_payload_plain)
  = Next (Some ex_payload_plain).
Proof. reflexivity. Qed.

(** A [kICC] marker without its header is outside of what the block
    handles: the subtraction [size() - 17] wraps around. *)
Example ex_short_marker :
  SetICCInJpegData ex_kICC ex_icc (Some ex_payload_short) = Undefined.
Proof. reflexivity. Qed.

Example ex_frames : ex_frame_sequencer 4 ex_start = Next ex_end.
Proof. reflexivity. Qed.

Lemma ex_payload_addressable (jd : JPEGData nat) :
  Forall (λ d, size d < 1000) (app_data jd) → addressable ex_icc jd.
Proof.
  intros Hall i d Hd.
  apply (proj1 (Forall_lookup _ _) Hall i d) in Hd.
  change (size ex_icc) with 5. rewrite size_t_modulus_eq. lia.
Defined.

(** The example payloads have one tag per marker, a header in every [kICC]
    marker and small sizes. *)
Lemma ex_payload_well_formed (icc : list uint8_t) (jd : JPEGData nat) :
  size icc < 1000 →
  Forall2 (λ t d, (t = ex_kICC → 17 ≤ size d) ∧ size d < 1000)
    (app_marker_type jd) (app_data jd) →
  well_formed ex_kICC icc jd.
Proof.
  intros Hicc Hall. split_and!.
  - by apply Forall2_length in Hall.
  - intros i d Ht Hd.
    destruct (Forall2_lookup_lr _ _ _ _ _ _ Hall Ht Hd) as [H17 _]. by apply H17.
  - intros i d Hd.
    destruct (Forall2_lookup_r _ _ _ _ _ Hall Hd) as (t & _ & _ & Hsz).
    rewrite size_t_modulus_eq. lia.
Defined.

Ltac ex_markers :=
  repeat (constructor;
          [split; [intros Ht; first [discriminate Ht | by vm_compute] | reflexivity]|]);
  constructor.

(** The example payloads with room after the header of every [kICC]
    marker. *)
Lemma ex_payload_have_room (jd : JPEGData nat) :
  Forall2 (λ t d, t = ex_kICC → 17 < size d) (app_marker_type jd) (app_data jd) →
  icc_markers_have_room ex_kICC jd.
Proof.
  intros Hall i d Ht Hd.
  by apply (Forall2_lookup_lr _ _ _ _ _ _ Hall Ht Hd).
Defined.

Ltac ex_room :=
  repeat (constructor; [intros Ht; first [discriminate Ht | by vm_compute]|]);
  constructor.

Ltac ex_no_need :=
  let i := fresh "i" in
  let d := fresh "d" in
  let Ht := fresh "Ht" in
  let Hd := fresh "Hd" in
  let Hmore := fresh "Hmore" in
  intros i (d & Ht & Hd & Hmore);
  destruct i as [|[|i]];
    [ vm_compute in Ht, Hd; try discriminate Ht;
      injection Hd as <-; vm_compute in Hmore; discriminate Hmore ..
    | discriminate Hd ].

(** C2.  What the block does with [kICC] markers that have no byte after
    their header.  A [kICC] marker that is its 17-byte header alone is a
    marker of the data model; it asks for no byte of the profile and
    leaves the running offset at 0, yet the block neither succeeds nor
    returns a failure: line 139 names element 17 of a vector of 17 bytes.
    A [kICC] marker of 16 bytes asks for no byte either, yet the block
    returns the underrun failure, with 2^64 - 1 bytes requested. *)
Theorem SetICCInJpegData_markers_without_room :
  (well_formed ex_kICC ex_icc ex_payload_none ∧
   (∀ i, ¬ needs_more_than_left ex_kICC ex_icc ex_payload_none i) ∧
   icc_offset ex_kICC ex_payload_none (length (app_data ex_payload_none)) = 0 ∧
   SetICCInJpegData ex_kICC ex_icc (Some ex_payload_none) = Undefined) ∧
  ((∀ i, ¬ needs_more_than_left ex_kICC ex_icc ex_payload_short_first i) ∧
   SetICCInJpegData ex_kICC ex_icc (Some ex_payload_short_first)
   = Return (StatusFailure
               (ICC_length_is_less_than_APP_markers 18446744073709551615 5))
       (Some ex_payload_short_first)).
Proof.
  split_and!.
  - apply ex_payload_well_formed; [reflexivity | ex_markers].
  - ex_no_need.
  - reflexivity.
  - reflexivity.
  - ex_no_need.
  - reflexivity.
Qed.

(** C1 on the example payload: the third marker receives bytes 2 to 4 of
    the profile. *)
Lemma icc_loop_writes_slices_witness :
  addressable ex_icc ex_payload ∧
  icc_loop ex_kICC ex_icc 3 0 (mkIccState ex_payload 0)
  = Next (mkIccState ex_payload_done 5) ∧
  app_data ex_payload_done !! 2%nat
  = Some (take 17 (ex_header ++ [Byte.xff; Byte.xff; Byte.xff]) ++ slice ex_icc 2 3).
Proof.
  assert (addressable ex_icc ex_payload) as Haddr.
  { apply ex_payload_addressable. repeat constructor. }
  split_and!; [done | reflexivity |].
  pose proof (icc_loop_writes_slices ex_kICC ex_icc ex_payload
                (mkIccState ex_payload_done 5) Haddr eq_refl)
    as (_ & _ & _ & _ & Hslices).
  apply (Hslices 2%nat 1%nat _ eq_refl eq_refl).
Defined.

(** A payload whose second marker makes the block fail: that marker
    needs more than is left. *)
Lemma SetICCInJpegData_failures_witness :
  icc_markers_have_room ex_kICC ex_payload_large ∧
  addressable ex_icc ex_payload_large ∧
  ∃ i, needs_more_than_left ex_kICC ex_icc ex_payload_large i.
Proof.
  assert (icc_markers_have_room ex_kICC ex_payload_large) as Hroom.
  { apply ex_payload_have_room. ex_room. }
  assert (addressable ex_icc ex_payload_large) as Haddr.
  { apply ex_payload_addressable. repeat constructor. }
  split_and!; [done | done |].
  apply (proj1 (SetICCInJpegData_failures ex_kICC ex_icc ex_payload_large
                  eq_refl Hroom Haddr)).
  eexists _, _, _. reflexivity.
Defined.

(** C3 on the scripted stream: both elements of the result come from
    displayed frames. *)
Lemma frame_sequencer_frames_displayed_witness :
  ex_frame_sequencer 4 ex_start = Next ex_end ∧
  Forall (decoded_as_displayed 0%nat 3%nat id ex_DecodeFrame) (frames (io ex_end)).
Proof.
  split; [reflexivity|].
  apply (frame_sequencer_frames_displayed 0%nat 3%nat id (mkExBundle None 0 0 None)
           (λ b payload, mkExBundle (ex_type b) (ex_xsize b) (ex_ysize b) (Some payload))
           ex_xsize ex_ysize ex_DecodeFrame 4 ex_start ex_end).
  reflexivity.
Defined.

(** * DecodeHeaders, DecodePreview and DecodeFile *)

Lemma run_post_bind {S : Type} (Q1 Q : S → Prop) (E : FileStatus → S → Prop)
    (U F : Prop) (c : run S) (k : S → run S) :
  run_post Q1 E U F c →
  (∀ s, Q1 s → run_post Q E U F (k s)) →
  run_post Q E U F (run_bind c k).
Proof. destruct c; simpl; auto. Qed.

Lemma run_post_weaken {S : Type} (Q Q' : S → Prop)
    (E E' : FileStatus → S → Prop) (U U' F F' : Prop) (c : run S) :
  run_post Q E U F c →
  (∀ s, Q s → Q' s) → (∀ st s, E st s → E' st s) → (U → U') → (F → F') →
  run_post Q' E' U' F' c.
Proof. destruct c; simpl; auto. Qed.

Lemma run_post_and {S : Type} (Q Q' : S → Prop)
    (E E' : FileStatus → S → Prop) (U U' F F' : Prop) (c : run S) :
  run_post Q E U F c → run_post Q' E' U' F' c →
  run_post (λ s, Q s ∧ Q' s) (λ st s, E st s ∧ E' st s) (U ∧ U') (F ∧ F') c.
Proof. destruct c; simpl; auto. Qed.

Lemma return_if_error_post {S : Type} (st : Status) (s : S) :
  run_post (λ s', s' = s ∧ st = StatusOk)
    (λ st' s', s' = s ∧ st' ≠ FileOk ∧ of_Status st = st') False False
    (return_if_error st s).
Proof. destruct st; simpl; auto. Qed.

(** The two blocks return failures only. *)
Lemma icc_loop_returns_failure {AppMarkerType : Type}
    `{EqDecision AppMarkerType} (kICC : AppMarkerType) icc n :
  ∀ k (s s' : icc_state AppMarkerType) st,
    icc_loop kICC icc n k s = Return st s' → st ≠ StatusOk.
Proof.
  induction n as [|n IH]; intros k s s' st; simpl; [done|].
  destruct (icc_loop_body kICC icc k s) as [s1|st1 s1| |] eqn:Hbody; simpl;
    try done.
  - apply IH.
  - intros [= <- <-]. unfold icc_loop_body in Hbody.
    destruct (app_marker_type (icc_jpeg_data s) !! k) as [t|]; [|done].
    destruct (decide (t ≠ kICC)); [done|].
    destruct (app_data (icc_jpeg_data s) !! k) as [d|]; [|done].
    case_bool_decide.
    + by injection Hbody as <- _.
    + by destruct (memcpy _ _ _ _ _).
Qed.

Lemma icc_loop_body_has_no_fuel {AppMarkerType : Type}
    `{EqDecision AppMarkerType} (kICC : AppMarkerType) icc k
    (s : icc_state AppMarkerType) :
  icc_loop_body kICC icc k s ≠ OutOfFuel.
Proof.
  unfold icc_loop_body.
  destruct (app_marker_type (icc_jpeg_data s) !! k) as [t|]; [|done].
  destruct (decide (t ≠ kICC)); [done|].
  destruct (app_data (icc_jpeg_data s) !! k) as [d|]; [|done].
  case_bool_decide; [done|]. by destruct (memcpy _ _ _ _ _).
Qed.

Lemma icc_loop_has_no_fuel {AppMarkerType : Type}
    `{EqDecision AppMarkerType} (kICC : AppMarkerType) icc n :
  ∀ k (s : icc_state AppMarkerType), icc_loop kICC icc n k s ≠ OutOfFuel.
Proof.
  induction n as [|n IH]; intros k s; simpl; [done|].
  pose proof (icc_loop_body_has_no_fuel kICC icc k s) as Hbody.
  destruct (icc_loop_body kICC icc k s) as [s1|st1 s1| |]; simpl.
  - apply IH.
  - done.
  - done.
  - done.
Qed.

Lemma SetICCInJpegData_returns_failure {AppMarkerType : Type}
    `{EqDecision AppMarkerType} (kICC : AppMarkerType) icc
    (p p' : option (JPEGData AppMarkerType)) st :
  SetICCInJpegData kICC icc p = Return st p' → st ≠ StatusOk.
Proof.
  unfold SetICCInJpegData. destruct p as [jd|]; [|done].
  destruct (icc_loop kICC icc (length (app_data jd)) 0 (mkIccState jd 0))
    as [s|st1 s| |] eqn:Hloop; try done.
  - destruct (_ && _); [|done]. by intros [= <- _].
  - intros [= <- _]. by eapply icc_loop_returns_failure.
Qed.

Section DecodeFile_facts.

Context {AppMarkerType : Type} `{EqDecision AppMarkerType}.
Variable kICC : AppMarkerType.
Context {FrameType : Type} `{EqDecision FrameType}.
Variables kRegularFrame kSkipProgressive : FrameType.
Context {JxlSignature : Type} `{EqDecision JxlSignature}.
Variables JXL_SIG_NOT_ENOUGH_BYTES JXL_SIG_INVALID : JxlSignature.
Variable JxlSignatureCheck : list uint8_t → JxlSignature.
Context {Override : Type} `{EqDecision Override}.
Variables kOn kOff : Override.
Context {BitReader PassesDecoderState ImageBundle : Type}.
Context {SizeHeader ColorEncoding CustomTransformData OtherMetadata : Type}.

Local Abbreviation Params := (DecompressParams Override).
Local Abbreviation Image_metadata := (ImageMetadata ColorEncoding OtherMetadata).
Local Abbreviation Metadata :=
  (CodecMetadata SizeHeader ColorEncoding CustomTransformData OtherMetadata).
Local Abbreviation InOut :=
  (WholeCodecInOut ImageBundle SizeHeader ColorEncoding CustomTransformData
     OtherMetadata).
Local Abbreviation State :=
  (file_state AppMarkerType BitReader ImageBundle SizeHeader ColorEncoding
     CustomTransformData OtherMetadata).

Variable ReadSizeHeader :
  BitReader → SizeHeader → Status * (BitReader * SizeHeader).
Variable ReadImageMetadata :
  BitReader → Image_metadata → Status * (BitReader * Image_metadata).
Variable Bundle_Read :
  BitReader → CustomTransformData → Status * (BitReader * CustomTransformData).
Variable set_nonserialized_xyb_encoded :
  CustomTransformData → bool → CustomTransformData.
Variables metadata_xsize metadata_ysize : Metadata → Z.
Variable VerifyDimensions : InOut → Z → Z → Status.
Variable WantICC : ColorEncoding → bool.
Variable ReadICC : BitReader → Status * (BitReader * list uint8_t).
Variable SetICC : ColorEncoding → list uint8_t → Status * ColorEncoding.
Variable ICC : ColorEncoding → list uint8_t.
Variable BitReader_new : list uint8_t → BitReader.
Variable ReadFixedBits_16 : BitReader → Z * BitReader.
Variable JumpToByteBoundary : BitReader → Status * BitReader.
Variable TotalBitsConsumed : BitReader → Z.
Variable AllReadsWithinBounds : BitReader → bool.
Variable Close : BitReader → Status * BitReader.
Variable kBitsPerByte : Z.
Variable BitReaderScopedCloser_ret : BitReader → Status.
Variable SkipFrame : Metadata → BitReader → bool → Status * BitReader.
Variable DecodeFrame_ :
  Params → PassesDecoderState → BitReader → ImageBundle →
  Metadata → option InOut → bool →
  Status * (PassesDecoderState * BitReader * ImageBundle).
Variable new_PassesDecoderState : PassesDecoderState.
Variables xsize_upsampled ysize_upsampled : PassesDecoderState → Z.
Variable frame_header_ : PassesDecoderState → FrameHeader FrameType.
Variable set_do_colorspace_transform : PassesDecoderState → PassesDecoderState.
Variable ImageBundle_new : Image_metadata → ImageBundle.
Variable ImageBundle_set_jpeg_data :
  ImageBundle → JPEGData AppMarkerType → ImageBundle.
Variables ImageBundle_xsize ImageBundle_ysize : ImageBundle → Z.
Variable Main_jpeg_data : InOut → option (JPEGData AppMarkerType).
Variable Main_jpeg_data_moved : InOut → InOut.
Variable CheckMetadata : InOut → InOut.

Local Abbreviation decode_headers :=
  (DecodeHeaders ReadSizeHeader ReadImageMetadata Bundle_Read
     set_nonserialized_xyb_encoded).
Local Abbreviation decode_preview :=
  (DecodePreview kOn kOff JumpToByteBoundary SkipFrame DecodeFrame_
     new_PassesDecoderState xsize_upsampled ysize_upsampled).
Local Abbreviation headers :=
  (headers_step (AppMarkerType := AppMarkerType) (ImageBundle := ImageBundle)
     ReadSizeHeader ReadImageMetadata Bundle_Read
     set_nonserialized_xyb_encoded metadata_xsize metadata_ysize
     VerifyDimensions).
Local Abbreviation read_icc :=
  (read_icc_step (AppMarkerType := AppMarkerType) (ImageBundle := ImageBundle)
     (SizeHeader := SizeHeader) (CustomTransformData := CustomTransformData)
     (OtherMetadata := OtherMetadata) WantICC ReadICC SetICC).
Local Abbreviation set_icc :=
  (set_icc_step (BitReader := BitReader) (ImageBundle := ImageBundle)
     (SizeHeader := SizeHeader) (CustomTransformData := CustomTransformData)
     (OtherMetadata := OtherMetadata) kICC ICC).
Local Abbreviation preview_st :=
  (preview_step (AppMarkerType := AppMarkerType) kOn kOff JumpToByteBoundary
     SkipFrame DecodeFrame_ new_PassesDecoderState xsize_upsampled
     ysize_upsampled).
Local Abbreviation guard :=
  (animation_guard_step (AppMarkerType := AppMarkerType) (Override := Override)
     (ImageBundle := ImageBundle) (SizeHeader := SizeHeader)
     (ColorEncoding := ColorEncoding)
     (CustomTransformData := CustomTransformData)
     (OtherMetadata := OtherMetadata) JumpToByteBoundary).
Local Abbreviation frames_st :=
  (frames_step (AppMarkerType := AppMarkerType) kRegularFrame kSkipProgressive
     DecodeFrame_ new_PassesDecoderState frame_header_
     set_do_colorspace_transform ImageBundle_new ImageBundle_set_jpeg_data
     ImageBundle_xsize ImageBundle_ysize).
Local Abbreviation final :=
  (final_step (AppMarkerType := AppMarkerType) (Override := Override)
     (ImageBundle := ImageBundle) (SizeHeader := SizeHeader)
     (ColorEncoding := ColorEncoding)
     (CustomTransformData := CustomTransformData)
     (OtherMetadata := OtherMetadata) TotalBitsConsumed AllReadsWithinBounds
     Close kBitsPerByte CheckMetadata).
Local Abbreviation body :=
  (DecodeFile_body kICC kRegularFrame kSkipProgressive kOn kOff ReadSizeHeader
     ReadImageMetadata Bundle_Read set_nonserialized_xyb_encoded metadata_xsize
     metadata_ysize VerifyDimensions WantICC ReadICC SetICC ICC BitReader_new
     ReadFixedBits_16 JumpToByteBoundary TotalBitsConsumed AllReadsWithinBounds
     Close kBitsPerByte SkipFrame DecodeFrame_ new_PassesDecoderState
     xsize_upsampled ysize_upsampled frame_header_ set_do_colorspace_transform
     ImageBundle_new ImageBundle_set_jpeg_data ImageBundle_xsize
     ImageBundle_ysize CheckMetadata).
Implicit Types (s : State) (dparams : Params) (md : Metadata) (whole : InOut).

(** ** DecodePreview *)

(** X12.  What [DecodePreview] never does: it leaves the three objects alone when
    the file has no preview, the bundle and the counter when the preview is
    switched off, the counter whenever it fails, and a null counter
    always; without a preview in the file it fails exactly when the
    preview is asked for. *)
Theorem DecodePreview_effects dparams md (pv : preview_state BitReader ImageBundle) :
  let st := fst (decode_preview dparams md pv) in
  let pv' := snd (decode_preview dparams md pv) in
  (have_preview (m md) = false →
     pv' = pv ∧ st = (if decide (preview dparams = kOn)
                      then FileFailure preview_is_kOn_but_no_preview_present
                      else FileOk)) ∧
  (preview dparams = kOff →
     pv_preview pv' = pv_preview pv ∧ pv_dec_pixels pv' = pv_dec_pixels pv) ∧
  (st ≠ FileOk → pv_dec_pixels pv' = pv_dec_pixels pv) ∧
  (pv_dec_pixels pv = None → pv_dec_pixels pv' = None).
Proof.
  unfold DecodePreview.
  destruct (have_preview (m md)); simpl.
  - destruct (JumpToByteBoundary (pv_reader pv)) as [st1 reader1].
    destruct st1 as [|why1]; simpl; [|by split_and!].
    destruct (decide (preview dparams = kOff)) as [Hoff|Hon].
    + destruct (SkipFrame md reader1 true) as [st2 reader2].
      destruct st2; simpl; by split_and!.
    + destruct (DecodeFrame_ dparams new_PassesDecoderState reader1
                  (pv_preview pv) md None true) as [st2 [[ds reader2] decoded]].
      destruct st2; simpl; split_and!; try done.
      intros ->. done.
  - destruct (decide (preview dparams = kOn)); simpl; by split_and!.
Qed.

(** ** The steps of DecodeFile *)

(** What a step leaves alone besides the reader and the metadata. *)
Local Abbreviation kept s s' :=
  (fs_jpeg_data s' = fs_jpeg_data s ∧
   preview_frame (fs_io s') = preview_frame (fs_io s) ∧
   frames_and_pixels (fs_io s') = frames_and_pixels (fs_io s)).

Local Abbreviation same_flags s s' :=
  (have_animation (m (metadata (fs_io s')))
   = have_animation (m (metadata (fs_io s))) ∧
   have_preview (m (metadata (fs_io s')))
   = have_preview (m (metadata (fs_io s)))).

Local Abbreviation strict dparams :=
  (check_decompressed_size dparams = true ∧
   allow_partial_files dparams = false ∧
   max_downsampling dparams = 1).

Lemma headers_spec s :
  run_post
    (λ s', kept s s' ∧
           decode_headers (fs_reader s) (metadata (fs_io s))
           = (StatusOk, (fs_reader s', metadata (fs_io s'))) ∧
           fs_io s' = with_metadata (fs_io s) (metadata (fs_io s')) ∧
           VerifyDimensions (fs_io s') (metadata_xsize (metadata (fs_io s')))
             (metadata_ysize (metadata (fs_io s'))) = StatusOk)
    (λ st s', st ≠ FileOk ∧ kept s s')
    False False (headers s).
Proof.
  unfold headers_step.
  destruct (decode_headers (fs_reader s) (metadata (fs_io s)))
    as [st [reader1 md]] eqn:Hh.
  destruct st as [|why]; simpl; [|done].
  destruct (VerifyDimensions _ _ _) eqn:Hv; simpl; [|done].
  by split_and!.
Qed.

Lemma read_icc_spec s :
  run_post
    (λ s', (kept s s' ∧ same_flags s s') ∧
           if WantICC (color_encoding (m (metadata (fs_io s))))
           then ∃ r icc c,
                  ReadICC (fs_reader s) = (StatusOk, (r, icc)) ∧
                  SetICC (color_encoding (m (metadata (fs_io s)))) icc
                  = (StatusOk, c) ∧
                  fs_io s' = with_color_encoding (fs_io s) c
           else fs_io s' = fs_io s)
    (λ st s', st ≠ FileOk ∧ kept s s' ∧ same_flags s s')
    False False (read_icc s).
Proof.
  unfold read_icc_step.
  destruct (WantICC _); simpl; [|done].
  destruct (ReadICC (fs_reader s)) as [st1 [reader1 icc]].
  destruct st1; simpl; [|done].
  destruct (SetICC _ icc) as [st2 c] eqn:Hset.
  destruct st2; simpl; [|done].
  split; [done|]. by exists reader1, icc, c.
Qed.

Lemma set_icc_spec s :
  run_post
    (λ s', fs_io s' = fs_io s ∧ fs_reader s' = fs_reader s ∧
           SetICCInJpegData kICC (ICC (color_encoding (m (metadata (fs_io s)))))
             (fs_jpeg_data s) = Next (fs_jpeg_data s'))
    (λ st s', st ≠ FileOk ∧ fs_io s' = fs_io s ∧ fs_reader s' = fs_reader s)
    (SetICCInJpegData kICC (ICC (color_encoding (m (metadata (fs_io s)))))
       (fs_jpeg_data s) = Undefined)
    False (set_icc s).
Proof.
  unfold set_icc_step.
  destruct (SetICCInJpegData kICC _ (fs_jpeg_data s)) as [p|st p| |] eqn:Hblock;
    simpl.
  - done.
  - apply SetICCInJpegData_returns_failure in Hblock.
    by destruct st.
  - done.
  - unfold SetICCInJpegData in Hblock.
    destruct (fs_jpeg_data s) as [jd|]; [|done].
    destruct (icc_loop kICC _ (length (app_data jd)) 0 (mkIccState jd 0))
      as [s1|st1 s1| |] eqn:Hloop; try done.
    + by destruct (_ && _).
    + by apply icc_loop_has_no_fuel in Hloop.
Qed.

Lemma preview_spec dparams s :
  run_post
    (λ s', fs_jpeg_data s' = fs_jpeg_data s ∧
           metadata (fs_io s') = metadata (fs_io s) ∧
           frames (frames_and_pixels (fs_io s'))
           = frames (frames_and_pixels (fs_io s)) ∧
           (have_preview (m (metadata (fs_io s))) = false →
              preview dparams ≠ kOn ∧
              dec_pixels (frames_and_pixels (fs_io s'))
              = dec_pixels (frames_and_pixels (fs_io s))))
    (λ st s', st ≠ FileOk ∧
              fs_jpeg_data s' = fs_jpeg_data s ∧
              metadata (fs_io s') = metadata (fs_io s) ∧
              frames (frames_and_pixels (fs_io s'))
              = frames (frames_and_pixels (fs_io s)))
    False False (preview_st dparams s).
Proof.
  unfold preview_step.
  destruct (decode_preview dparams _ _) as [st pv] eqn:Hpv.
  destruct st; simpl; try done.
  split_and!; try done. intros Hno.
  unfold DecodePreview in Hpv. rewrite Hno in Hpv. simpl in Hpv.
  destruct (decide (preview dparams = kOn)); [done|].
  by injection Hpv as <-.
Qed.

Lemma guard_spec dparams s :
  run_post
    (λ s', fs_jpeg_data s' = fs_jpeg_data s ∧ fs_io s' = fs_io s ∧
           have_animation (m (metadata (fs_io s))) && keep_dct dparams = false)
    (λ st s', st ≠ FileOk ∧ fs_jpeg_data s' = fs_jpeg_data s ∧
              fs_io s' = fs_io s)
    False False (guard dparams s).
Proof.
  unfold animation_guard_step.
  destruct (JumpToByteBoundary (fs_reader s)) as [st reader1].
  destruct st; simpl; [|done].
  destruct (_ && _); simpl; done.
Qed.

(** The frame loop as [DecodeFile] runs it from state [s]. *)
Local Abbreviation loop_of fuel dparams s :=
  (frame_sequencer kRegularFrame kSkipProgressive frame_header_
     (ImageBundle_new (m (metadata (fs_io s)))) ImageBundle_set_jpeg_data
     ImageBundle_xsize ImageBundle_ysize
     (DecodeFrame_in_loop DecodeFrame_ dparams (fs_io s)) fuel
     {| jpeg_data := fs_jpeg_data s;
        dec_state := set_do_colorspace_transform new_PassesDecoderState;
        reader := fs_reader s;
        io := frames_and_pixels (fs_io s) |}).

Lemma frames_spec fuel dparams s :
  run_post
    (λ s', metadata (fs_io s') = metadata (fs_io s) ∧
           preview_frame (fs_io s') = preview_frame (fs_io s) ∧
           ∃ l, loop_of fuel dparams s = Next l ∧
                fs_jpeg_data s' = jpeg_data l ∧ fs_reader s' = reader l ∧
                frames_and_pixels (fs_io s') = io l)
    (λ st s', st ≠ FileOk ∧
              metadata (fs_io s') = metadata (fs_io s) ∧
              ∃ st0 l, loop_of fuel dparams s = Return st0 l ∧
                       st = of_Status st0 ∧
                       frames_and_pixels (fs_io s') = io l)
    False True (frames_st fuel dparams s).
Proof.
  unfold frames_step.
  pose proof (frame_sequencer_failure kRegularFrame kSkipProgressive
                frame_header_ (ImageBundle_new (m (metadata (fs_io s))))
                ImageBundle_set_jpeg_data ImageBundle_xsize ImageBundle_ysize
                (DecodeFrame_in_loop DecodeFrame_ dparams (fs_io s)) fuel
                {| jpeg_data := fs_jpeg_data s;
                   dec_state := set_do_colorspace_transform new_PassesDecoderState;
                   reader := fs_reader s;
                   io := frames_and_pixels (fs_io s) |}) as Hfail.
  destruct (loop_of fuel dparams s) as [l|st l| |]; simpl; try done.
  - split_and!; try done. by exists l.
  - destruct Hfail as [Hst _]. split_and!; try done.
    + by destruct st.
    + by exists st, l.
Qed.

Lemma final_spec dparams file s :
  run_post
    (λ s', fs_jpeg_data s' = fs_jpeg_data s ∧
           (∃ whole, fs_io s' = CheckMetadata whole ∧ whole = fs_io s) ∧
           (strict dparams →
              fs_reader s' = fs_reader s ∧
              TotalBitsConsumed (fs_reader s')
              = size_t_mul (size file) kBitsPerByte))
    (λ st s', st = FileFailure DecodeFile_reader_position_not_at_EOF ∧ s' = s ∧
              strict dparams ∧
              TotalBitsConsumed (fs_reader s)
              ≠ size_t_mul (size file) kBitsPerByte)
    False False (final dparams file s).
Proof.
  unfold final_step.
  destruct (check_decompressed_size dparams), (allow_partial_files dparams);
    simpl; repeat case_bool_decide; simpl;
    destruct (AllReadsWithinBounds (fs_reader s)); simpl;
    try (split_and!; [done | by eauto | intros (? & ? & ?); try done]);
    try done.
  all: split; [done|]; by apply dec_stable.
Qed.

(** ** The body of DecodeFile as a whole *)

(** One step of the body, with what is known before it. *)
Ltac run_step lem :=
  eapply run_post_bind;
  [ eapply run_post_weaken; [ apply lem | intros ? Hq; exact Hq | | | ] | ].

(** What holds when the frame loop is entered in state [sl], for a body
    started with the payload [jpeg] and the object [whole]. *)
Local Abbreviation first_reader file :=
  (snd (ReadFixedBits_16 (BitReader_new file))).

Local Abbreviation at_loop_entry dparams file jpeg whole sl :=
  ((∃ r' md,
      decode_headers (first_reader file) (metadata whole) = (StatusOk, (r', md)) ∧
      have_animation (m (metadata (fs_io sl))) = have_animation (m md) ∧
      have_preview (m (metadata (fs_io sl))) = have_preview (m md) ∧
      VerifyDimensions (with_metadata whole md) (metadata_xsize md)
        (metadata_ysize md) = StatusOk ∧
      if WantICC (color_encoding (m md))
      then ∃ r icc c,
             ReadICC r' = (StatusOk, (r, icc)) ∧
             SetICC (color_encoding (m md)) icc = (StatusOk, c) ∧
             metadata (fs_io sl)
             = metadata (with_color_encoding (with_metadata whole md) c)
      else metadata (fs_io sl) = md) ∧
   have_animation (m (metadata (fs_io sl))) && keep_dct dparams = false ∧
   (have_preview (m (metadata (fs_io sl))) = false →
      preview dparams ≠ kOn ∧
      dec_pixels (frames_and_pixels (fs_io sl))
      = dec_pixels (frames_and_pixels whole)) ∧
   frames (frames_and_pixels (fs_io sl)) = frames (frames_and_pixels whole) ∧
   SetICCInJpegData kICC (ICC (color_encoding (m (metadata (fs_io sl))))) jpeg
   = Next (fs_jpeg_data sl)).

Lemma body_spec fuel dparams file jpeg whole :
  run_post
    (λ s', ∃ sl l,
        at_loop_entry dparams file jpeg whole sl ∧
        loop_of fuel dparams sl = Next l ∧
        fs_io s' = CheckMetadata
                     {| metadata := metadata (fs_io sl);
                        preview_frame := preview_frame (fs_io sl);
                        frames_and_pixels := io l |} ∧
        fs_jpeg_data s' = jpeg_data l ∧
        (strict dparams →
           fs_reader s' = reader l ∧
           TotalBitsConsumed (fs_reader s')
           = size_t_mul (size file) kBitsPerByte))
    (λ st s',
        st ≠ FileOk ∧
        (frames (frames_and_pixels (fs_io s')) = frames (frames_and_pixels whole)
         ∨ ∃ sl, at_loop_entry dparams file jpeg whole sl ∧
                 ((∃ st0 l, loop_of fuel dparams sl = Return st0 l ∧
                            st = of_Status st0 ∧
                            frames_and_pixels (fs_io s') = io l)
                  ∨ (∃ l, loop_of fuel dparams sl = Next l ∧
                          st = FileFailure DecodeFile_reader_position_not_at_EOF ∧
                          strict dparams ∧
                          frames_and_pixels (fs_io s') = io l))))
    (∃ icc, SetICCInJpegData kICC icc jpeg = Undefined)
    (∃ sl : State, at_loop_entry dparams file jpeg whole sl)
    (body fuel dparams file jpeg whole).
Proof.
  unfold DecodeFile_body.
  run_step headers_spec.
  { intros st s (Hst & _ & _ & Hfr). simpl in Hfr. split; [done|]. left.
    by rewrite Hfr. }
  { done. }
  { done. }
  intros s1 ((Hj1 & Hp1 & Hf1) & Hm & Hio1 & Hver).
  simpl in Hj1, Hp1, Hf1, Hm, Hio1.
  run_step read_icc_spec.
  { intros st s (Hst & (_ & _ & Hfr) & _). split; [done|]. left.
    by rewrite Hfr, Hf1. }
  { done. }
  { done. }
  intros s2 (((Hj2 & Hp2 & Hf2) & (Ha2 & Hv2)) & Hicc2).
  run_step set_icc_spec.
  { intros st s (Hst & Hio & _). split; [done|]. left.
    by rewrite Hio, Hf2, Hf1. }
  { intros Hundef. rewrite Hj2, Hj1 in Hundef. by eexists. }
  { done. }
  intros s3 (Hio3 & Hr3 & Hicc3). rewrite Hj2, Hj1 in Hicc3.
  run_step preview_spec.
  { intros st s (Hst & _ & _ & Hfr). split; [done|]. left.
    by rewrite Hfr, Hio3, Hf2, Hf1. }
  { done. }
  { done. }
  intros s4 (Hj4 & Hmd4 & Hfr4 & Hpv4).
  run_step guard_spec.
  { intros st s (Hst & _ & Hio). split; [done|]. left.
    by rewrite Hio, Hfr4, Hio3, Hf2, Hf1. }
  { done. }
  { done. }
  intros s5 (Hj5 & Hio5 & Hguard).
  assert (at_loop_entry dparams file jpeg whole s5) as Hentry.
  { rewrite Hio5, Hmd4, Hio3, Hj5, Hj4. split_and!.
    - exists (fs_reader s1), (metadata (fs_io s1)).
      rewrite Ha2, Hv2, <-Hio1. split_and!; try done.
      destruct (WantICC _); [|by rewrite Hicc2].
      destruct Hicc2 as (r & icc & c & Hread & Hset & ->). by exists r, icc, c.
    - by rewrite Hmd4, Hio3 in Hguard.
    - intros Hno. rewrite Hio3 in Hpv4. destruct (Hpv4 Hno) as [Hon Hpix].
      split; [done|]. by rewrite Hpix, Hf2, Hf1.
    - by rewrite Hfr4, Hio3, Hf2, Hf1.
    - done. }
  run_step frames_spec.
  { intros st s (Hst & _ & st0 & l & Hloop & -> & Hfr). split; [done|].
    right. exists s5. split; [exact Hentry|]. left. by exists st0, l. }
  { done. }
  { intros _. exists s5. exact Hentry. }
  intros s6 (Hmd6 & Hp6 & l & Hloop & Hj6 & Hr6 & Hfr6).
  eapply run_post_weaken; [apply final_spec | | | done | done].
  - intros s' (Hj' & (w & Hio' & ->) & Hstrict).
    exists s5, l. split; [exact Hentry|]. split; [done|]. split_and!.
    + rewrite Hio'. f_equal. destruct (fs_io s6). simpl in *. by subst.
    + by rewrite Hj'.
    + intros Hs. destruct (Hstrict Hs) as [Hr' Hbits].
      split; [congruence | done].
  - intros st s' (-> & -> & Hs & _). split; [done|].
    right. exists s5. split; [exact Hentry|]. right. by exists l.
Qed.

(** ** DecodeFile *)

(** X13.  A file that declares an animation is never decoded with
    [keep_dct], and [DecodeFile] never reaches the frame loop for it: it
    returns a failure with the frames of [io] not even cleared, unless
    the ICC block, which runs before the guard, leaves the vectors of the
    payload that the caller had set, in which case the behaviour is
    undefined. *)
Theorem DecodeFile_animation_guard fuel dparams file whole :
  keep_dct dparams = true →
  (∀ r' md,
     decode_headers (first_reader file) (metadata (Main_jpeg_data_moved whole))
     = (StatusOk, (r', md)) →
     have_animation (m md) = true) →
  match (DecodeFile kICC kRegularFrame kSkipProgressive JXL_SIG_NOT_ENOUGH_BYTES
     JXL_SIG_INVALID JxlSignatureCheck kOn kOff ReadSizeHeader
     ReadImageMetadata Bundle_Read set_nonserialized_xyb_encoded metadata_xsize
     metadata_ysize VerifyDimensions WantICC ReadICC SetICC ICC BitReader_new
     ReadFixedBits_16 JumpToByteBoundary TotalBitsConsumed AllReadsWithinBounds
     Close kBitsPerByte BitReaderScopedCloser_ret SkipFrame DecodeFrame_
     new_PassesDecoderState xsize_upsampled ysize_upsampled frame_header_
     set_do_colorspace_transform ImageBundle_new ImageBundle_set_jpeg_data
     ImageBundle_xsize ImageBundle_ysize Main_jpeg_data Main_jpeg_data_moved
     CheckMetadata fuel dparams file whole) with
  | Finished st whole' =>
      st ≠ FileOk ∧
      (frames (frames_and_pixels whole') = frames (frames_and_pixels whole)
       ∨ frames (frames_and_pixels whole')
         = frames (frames_and_pixels (Main_jpeg_data_moved whole)))
  | FileUndefined =>
      ∃ icc, SetICCInJpegData kICC icc (Main_jpeg_data whole) = Undefined
  | FileOutOfFuel => False
  end.
Proof.
  intros Hkeep Hanim. unfold DecodeFile. rewrite Hkeep.
  case_bool_decide; [by split; [|left]|].
  destruct (Main_jpeg_data whole) as [p|]; [|by split; [|left]].
  pose proof (body_spec fuel dparams file (Some p) (Main_jpeg_data_moved whole))
    as Hbody.
  assert (∀ sl : State,
            ¬ at_loop_entry dparams file (Some p)
                (Main_jpeg_data_moved whole) sl)
    as Hnever.
  { intros sl ((r' & md & Hm & Ha & _) & Hguard & _).
    rewrite Ha, (Hanim _ _ Hm), Hkeep in Hguard. done. }
  destruct (body fuel dparams file (Some p) (Main_jpeg_data_moved whole))
    as [s|st s| |]; simpl in Hbody.
  - destruct Hbody as (sl & l & Hentry & _). by destruct (Hnever sl).
  - destruct Hbody as (Hst & [Hfr|(sl & Hentry & _)]).
    + split; [done|]. by right.
    + by destruct (Hnever sl).
  - done.
  - destruct Hbody as (sl & Hentry). by destruct (Hnever sl).
Qed.

(** X15.  With [check_decompressed_size], without [allow_partial_files] and with
    [max_downsampling] 1, [DecodeFile] succeeds only when its body has run
    to the end with the reader at the last bit of the file. *)
Theorem DecodeFile_strict_size fuel dparams file whole whole' :
  (DecodeFile kICC kRegularFrame kSkipProgressive JXL_SIG_NOT_ENOUGH_BYTES
     JXL_SIG_INVALID JxlSignatureCheck kOn kOff ReadSizeHeader
     ReadImageMetadata Bundle_Read set_nonserialized_xyb_encoded metadata_xsize
     metadata_ysize VerifyDimensions WantICC ReadICC SetICC ICC BitReader_new
     ReadFixedBits_16 JumpToByteBoundary TotalBitsConsumed AllReadsWithinBounds
     Close kBitsPerByte BitReaderScopedCloser_ret SkipFrame DecodeFrame_
     new_PassesDecoderState xsize_upsampled ysize_upsampled frame_header_
     set_do_colorspace_transform ImageBundle_new ImageBundle_set_jpeg_data
     ImageBundle_xsize ImageBundle_ysize Main_jpeg_data Main_jpeg_data_moved
     CheckMetadata fuel dparams file whole) = Finished FileOk whole' →
  check_decompressed_size dparams = true →
  allow_partial_files dparams = false →
  max_downsampling dparams = 1 →
  ∃ s,
    DecodeFile_body kICC kRegularFrame kSkipProgressive kOn kOff ReadSizeHeader
      ReadImageMetadata Bundle_Read set_nonserialized_xyb_encoded metadata_xsize
      metadata_ysize VerifyDimensions WantICC ReadICC SetICC ICC BitReader_new
      ReadFixedBits_16 JumpToByteBoundary TotalBitsConsumed AllReadsWithinBounds
      Close kBitsPerByte SkipFrame DecodeFrame_ new_PassesDecoderState
      xsize_upsampled ysize_upsampled frame_header_ set_do_colorspace_transform
      ImageBundle_new ImageBundle_set_jpeg_data ImageBundle_xsize
      ImageBundle_ysize CheckMetadata fuel dparams file
      (if keep_dct dparams then Main_jpeg_data whole else None)
      (if keep_dct dparams then Main_jpeg_data_moved whole else whole)
    = Continue s ∧
    fs_io s = whole' ∧
    BitReaderScopedCloser_ret (fs_reader s) = StatusOk ∧
    TotalBitsConsumed (fs_reader s) = size_t_mul (size file) kBitsPerByte.
Proof.
  intros Hrun Hc Hp Hmax. unfold DecodeFile in Hrun.
  case_bool_decide; [done|].
  assert (∃ jpeg whole1,
            (if keep_dct dparams
             then match Main_jpeg_data whole with
                  | Some p => Some (Some p, Main_jpeg_data_moved whole)
                  | None => None
                  end
             else Some (None, whole)) = Some (jpeg, whole1) ∧
            jpeg = (if keep_dct dparams then Main_jpeg_data whole else None) ∧
            whole1 = (if keep_dct dparams then Main_jpeg_data_moved whole
                      else whole)) as (jpeg & whole1 & Hentry & <- & <-).
  { destruct (keep_dct dparams); [|by eauto].
    destruct (Main_jpeg_data whole); [by eauto|done]. }
  rewrite Hentry in Hrun.
  pose proof (body_spec fuel dparams file jpeg whole1) as Hbody.
  destruct (body fuel dparams file jpeg whole1) as [s|st s| |] eqn:Hb;
    simpl in Hbody; try done.
  - injection Hrun as Hst <-.
    destruct Hbody as (sl & l & _ & _ & _ & _ & Hstrict).
    destruct (Hstrict (conj Hc (conj Hp Hmax))) as [_ Hbits].
    exists s. split_and!; try done.
    by destruct (BitReaderScopedCloser_ret (fs_reader s)).
  - injection Hrun as -> _. by destruct Hbody.
Qed.

(** X16.  When [DecodeFile] succeeds: the signature is a known one; with
    [keep_dct] the caller had set [jpeg_data] and the file declares no
    animation; and, [CheckMetadata] leaving the frames as they are, the
    frames of the result are there and come from displayed frames. *)
Theorem DecodeFile_success fuel dparams file whole whole' :
  (∀ w, frames_and_pixels (CheckMetadata w) = frames_and_pixels w) →
  (DecodeFile kICC kRegularFrame kSkipProgressive JXL_SIG_NOT_ENOUGH_BYTES
     JXL_SIG_INVALID JxlSignatureCheck kOn kOff ReadSizeHeader
     ReadImageMetadata Bundle_Read set_nonserialized_xyb_encoded metadata_xsize
     metadata_ysize VerifyDimensions WantICC ReadICC SetICC ICC BitReader_new
     ReadFixedBits_16 JumpToByteBoundary TotalBitsConsumed AllReadsWithinBounds
     Close kBitsPerByte BitReaderScopedCloser_ret SkipFrame DecodeFrame_
     new_PassesDecoderState xsize_upsampled ysize_upsampled frame_header_
     set_do_colorspace_transform ImageBundle_new ImageBundle_set_jpeg_data
     ImageBundle_xsize ImageBundle_ysize Main_jpeg_data Main_jpeg_data_moved
     CheckMetadata fuel dparams file whole) = Finished FileOk whole' →
  JxlSignatureCheck file ≠ JXL_SIG_NOT_ENOUGH_BYTES ∧
  JxlSignatureCheck file ≠ JXL_SIG_INVALID ∧
  (keep_dct dparams = true →
     is_Some (Main_jpeg_data whole) ∧
     ∃ r' md,
       decode_headers (first_reader file) (metadata (Main_jpeg_data_moved whole))
       = (StatusOk, (r', md)) ∧
       have_animation (m md) = false) ∧
  frames (frames_and_pixels whole') ≠ [] ∧
  ∃ w, Forall (decoded_as_displayed kRegularFrame kSkipProgressive frame_header_
                 (DecodeFrame_in_loop DecodeFrame_ dparams w))
         (frames (frames_and_pixels whole')).
Proof.
  intros Hcheck Hrun. unfold DecodeFile in Hrun.
  case_bool_decide as Hsig; [done|].
  split; [tauto|]. split; [tauto|].
  destruct (if keep_dct dparams then _ else _) as [[jpeg whole1]|] eqn:Hentry;
    [|done].
  pose proof (body_spec fuel dparams file jpeg whole1) as Hbody.
  destruct (body fuel dparams file jpeg whole1) as [s|st s| |] eqn:Hb;
    simpl in Hbody; try done.
  2:{ injection Hrun as -> _. by destruct Hbody. }
  injection Hrun as Hst <-.
  destruct Hbody as (sl & l & Hat & Hloop & Hio & _).
  destruct Hat as ((r' & md & Hm & Ha & _) & Hguard & _).
  split.
  - intros Hkeep. rewrite Hkeep in Hentry, Hguard.
    destruct (Main_jpeg_data whole); [|done]. injection Hentry as <- <-.
    split; [by eauto|].
    exists r', md. split; [done|].
    rewrite <-Ha. by rewrite andb_true_r in Hguard.
  - rewrite Hio, Hcheck. simpl.
    pose proof (decode_frames_spec kRegularFrame kSkipProgressive frame_header_
                  (ImageBundle_new (m (metadata (fs_io sl))))
                  ImageBundle_set_jpeg_data ImageBundle_xsize ImageBundle_ysize
                  (DecodeFrame_in_loop DecodeFrame_ dparams (fs_io sl))
                  fuel fuel) as Hspec.
    unfold frame_sequencer in Hloop.
    match type of Hloop with
    | decode_frames _ _ _ _ _ _ _ _ _ _ ?s0 = _ => specialize (Hspec s0)
    end.
    rewrite Hloop in Hspec. destruct Hspec as (v & Hv & Hne & Hall & _).
    simpl in Hv. rewrite Hv. split; [done|]. by exists (fs_io sl).
Qed.

(** X17.  Without [keep_dct], [DecodeFile] has no undefined behaviour of its
    own. *)
Theorem DecodeFile_defined fuel dparams file whole :
  keep_dct dparams = false →
  (DecodeFile kICC kRegularFrame kSkipProgressive JXL_SIG_NOT_ENOUGH_BYTES
     JXL_SIG_INVALID JxlSignatureCheck kOn kOff ReadSizeHeader
     ReadImageMetadata Bundle_Read set_nonserialized_xyb_encoded metadata_xsize
     metadata_ysize VerifyDimensions WantICC ReadICC SetICC ICC BitReader_new
     ReadFixedBits_16 JumpToByteBoundary TotalBitsConsumed AllReadsWithinBounds
     Close kBitsPerByte BitReaderScopedCloser_ret SkipFrame DecodeFrame_
     new_PassesDecoderState xsize_upsampled ysize_upsampled frame_header_
     set_do_colorspace_transform ImageBundle_new ImageBundle_set_jpeg_data
     ImageBundle_xsize ImageBundle_ysize Main_jpeg_data Main_jpeg_data_moved
     CheckMetadata fuel dparams file whole) ≠ FileUndefined.
Proof.
  intros Hkeep. unfold DecodeFile. rewrite Hkeep.
  case_bool_decide; [done|].
  pose proof (body_spec fuel dparams file None whole) as Hbody.
  destruct (body fuel dparams file None whole) as [s|st s| |]; try done.
  simpl in Hbody. by destruct Hbody as [icc Hundef].
Qed.

(** X14.  With [preview] set to [kOn], a file whose headers declare no preview
    is never decoded: [DecodeFile] fails before the frame loop, with the
    frames of [io] not even cleared. *)
Theorem DecodeFile_preview_demanded fuel dparams file whole :
  preview dparams = kOn →
  (∀ r' md,
     decode_headers (first_reader file)
       (metadata (if keep_dct dparams then Main_jpeg_data_moved whole else whole))
     = (StatusOk, (r', md)) →
     have_preview (m md) = false) →
  match (DecodeFile kICC kRegularFrame kSkipProgressive JXL_SIG_NOT_ENOUGH_BYTES
     JXL_SIG_INVALID JxlSignatureCheck kOn kOff ReadSizeHeader
     ReadImageMetadata Bundle_Read set_nonserialized_xyb_encoded metadata_xsize
     metadata_ysize VerifyDimensions WantICC ReadICC SetICC ICC BitReader_new
     ReadFixedBits_16 JumpToByteBoundary TotalBitsConsumed AllReadsWithinBounds
     Close kBitsPerByte BitReaderScopedCloser_ret SkipFrame DecodeFrame_
     new_PassesDecoderState xsize_upsampled ysize_upsampled frame_header_
     set_do_colorspace_transform ImageBundle_new ImageBundle_set_jpeg_data
     ImageBundle_xsize ImageBundle_ysize Main_jpeg_data Main_jpeg_data_moved
     CheckMetadata fuel dparams file whole) with
  | Finished st whole' =>
      st ≠ FileOk ∧
      (frames (frames_and_pixels whole') = frames (frames_and_pixels whole)
       ∨ frames (frames_and_pixels whole')
         = frames (frames_and_pixels (Main_jpeg_data_moved whole)))
  | FileUndefined => keep_dct dparams = true
  | FileOutOfFuel => False
  end.
Proof.
  intros Hon Hno. unfold DecodeFile.
  case_bool_decide; [by split; [|left]|].
  assert (∀ jpeg whole1,
            metadata whole1
            = metadata (if keep_dct dparams then Main_jpeg_data_moved whole
                        else whole) →
            ∀ sl : State, ¬ at_loop_entry dparams file jpeg whole1 sl) as Hnever.
  { intros jpeg whole1 Hmd sl ((r' & md & Hm & _ & Hp & _) & _ & Hpv & _).
    rewrite Hmd in Hm. rewrite Hp, (Hno _ _ Hm) in Hpv.
    by destruct (Hpv eq_refl). }
  destruct (keep_dct dparams) eqn:Hkeep in |- *.
  - destruct (Main_jpeg_data whole) as [p|]; [|by split; [|left]].
    pose proof (body_spec fuel dparams file (Some p) (Main_jpeg_data_moved whole))
      as Hbody.
    specialize (Hnever (Some p) (Main_jpeg_data_moved whole)
                  ltac:(by rewrite Hkeep)).
    destruct (body fuel dparams file (Some p) (Main_jpeg_data_moved whole))
      as [s|st s| |]; simpl in Hbody.
    + destruct Hbody as (sl & l & Hentry & _). by destruct (Hnever sl).
    + destruct Hbody as (Hst & [Hfr|(sl & Hentry & _)]).
      * split; [done|]. by right.
      * by destruct (Hnever sl).
    + done.
    + destruct Hbody as (sl & Hentry). by destruct (Hnever sl).
  - pose proof (body_spec fuel dparams file None whole) as Hbody.
    specialize (Hnever None whole ltac:(by rewrite Hkeep)).
    destruct (body fuel dparams file None whole) as [s|st s| |]; simpl in Hbody.
    + destruct Hbody as (sl & l & Hentry & _). by destruct (Hnever sl).
    + destruct Hbody as (Hst & [Hfr|(sl & Hentry & _)]).
      * split; [done|]. by left.
      * by destruct (Hnever sl).
    + by destruct Hbody as [icc Hundef].
    + destruct Hbody as (sl & Hentry). by destruct (Hnever sl).
Qed.

(** X18.  When a file whose headers declare no preview is decoded, the counter
    [dec_pixels] of the result is the one on entry plus the sizes
    [xsize() * ysize()] of the frames of the result, in 64-bit unsigned
    arithmetic, [CheckMetadata] leaving frames and counter as they
    are. *)
Theorem DecodeFile_counts_pixels fuel dparams file whole whole' :
  (∀ w, frames_and_pixels (CheckMetadata w) = frames_and_pixels w) →
  (∀ r' md,
     decode_headers (first_reader file)
       (metadata (if keep_dct dparams then Main_jpeg_data_moved whole else whole))
     = (StatusOk, (r', md)) →
     have_preview (m md) = false) →
  (DecodeFile kICC kRegularFrame kSkipProgressive JXL_SIG_NOT_ENOUGH_BYTES
     JXL_SIG_INVALID JxlSignatureCheck kOn kOff ReadSizeHeader
     ReadImageMetadata Bundle_Read set_nonserialized_xyb_encoded metadata_xsize
     metadata_ysize VerifyDimensions WantICC ReadICC SetICC ICC BitReader_new
     ReadFixedBits_16 JumpToByteBoundary TotalBitsConsumed AllReadsWithinBounds
     Close kBitsPerByte BitReaderScopedCloser_ret SkipFrame DecodeFrame_
     new_PassesDecoderState xsize_upsampled ysize_upsampled frame_header_
     set_do_colorspace_transform ImageBundle_new ImageBundle_set_jpeg_data
     ImageBundle_xsize ImageBundle_ysize Main_jpeg_data Main_jpeg_data_moved
     CheckMetadata fuel dparams file whole) = Finished FileOk whole' →
  dec_pixels (frames_and_pixels whole')
  = size_t_wrap
      (dec_pixels (frames_and_pixels
                     (if keep_dct dparams then Main_jpeg_data_moved whole
                      else whole))
       + frames_pixels ImageBundle_xsize ImageBundle_ysize
           (frames (frames_and_pixels whole'))).
Proof.
  intros Hcheck Hno Hrun. unfold DecodeFile in Hrun.
  case_bool_decide as Hsig; [done|].
  assert (∃ jpeg,
            (if keep_dct dparams
             then match Main_jpeg_data whole with
                  | Some p => Some (Some p, Main_jpeg_data_moved whole)
                  | None => None
                  end
             else Some (None, whole))
            = Some (jpeg, if keep_dct dparams then Main_jpeg_data_moved whole
                          else whole)) as [jpeg Hentry].
  { destruct (keep_dct dparams); [|by eauto].
    destruct (Main_jpeg_data whole); [by eauto|done]. }
  rewrite Hentry in Hrun.
  set (whole1 := if keep_dct dparams then Main_jpeg_data_moved whole else whole)
    in *.
  pose proof (body_spec fuel dparams file jpeg whole1) as Hbody.
  destruct (body fuel dparams file jpeg whole1) as [s|st s| |] eqn:Hb;
    simpl in Hbody; try done.
  2:{ injection Hrun as -> _. by destruct Hbody. }
  injection Hrun as Hst <-.
  destruct Hbody as (sl & l & Hat & Hloop & Hio & _).
  destruct Hat as ((r' & md & Hm & _ & Hp & _) & _ & Hpv & _).
  rewrite Hp, (Hno _ _ Hm) in Hpv. destruct (Hpv eq_refl) as [_ Hpix].
  rewrite Hio, Hcheck. simpl. rewrite <-Hpix.
  unfold frame_sequencer in Hloop.
  destruct (decode_frames_pixels kRegularFrame kSkipProgressive frame_header_
              _ _ _ _ _ fuel fuel _ _ Hloop) as (v & Hv & ->).
  simpl in Hv. by rewrite Hv.
Qed.

(** ** The metadata of the result *)

(** How [DecodeFile] enters its block. *)
Lemma DecodeFile_entry dparams whole :
  (if keep_dct dparams
   then match Main_jpeg_data whole with
        | Some p => Some (Some p, Main_jpeg_data_moved whole)
        | None => None
        end
   else Some (None, whole))
  = None
  ∨ (if keep_dct dparams
     then match Main_jpeg_data whole with
          | Some p => Some (Some p, Main_jpeg_data_moved whole)
          | None => None
          end
     else Some (None, whole))
    = Some (if keep_dct dparams then Main_jpeg_data whole else None,
            if keep_dct dparams then Main_jpeg_data_moved whole else whole).
Proof.
  destruct (keep_dct dparams); [|by right].
  destruct (Main_jpeg_data whole); [by right | by left].
Qed.

(** X20.  When [DecodeFile] succeeds, [io->metadata] is what [DecodeHeaders] has
    read after the two bytes of the signature, [VerifyDimensions] has
    accepted its dimensions, and the colour encoding is the one that
    [SetICC] has made of the profile that [ReadICC] has read right after the
    headers, when [WantICC] holds of the encoding in the headers;
    [CheckMetadata] leaving the metadata as they are. *)
Theorem DecodeFile_metadata fuel dparams file whole whole' :
  (∀ w, metadata (CheckMetadata w) = metadata w) →
  (DecodeFile kICC kRegularFrame kSkipProgressive JXL_SIG_NOT_ENOUGH_BYTES
     JXL_SIG_INVALID JxlSignatureCheck kOn kOff ReadSizeHeader
     ReadImageMetadata Bundle_Read set_nonserialized_xyb_encoded metadata_xsize
     metadata_ysize VerifyDimensions WantICC ReadICC SetICC ICC BitReader_new
     ReadFixedBits_16 JumpToByteBoundary TotalBitsConsumed AllReadsWithinBounds
     Close kBitsPerByte BitReaderScopedCloser_ret SkipFrame DecodeFrame_
     new_PassesDecoderState xsize_upsampled ysize_upsampled frame_header_
     set_do_colorspace_transform ImageBundle_new ImageBundle_set_jpeg_data
     ImageBundle_xsize ImageBundle_ysize Main_jpeg_data Main_jpeg_data_moved
     CheckMetadata fuel dparams file whole) = Finished FileOk whole' →
  ∃ r' md,
    DecodeHeaders ReadSizeHeader ReadImageMetadata Bundle_Read
      set_nonserialized_xyb_encoded (first_reader file)
      (metadata (if keep_dct dparams then Main_jpeg_data_moved whole else whole))
    = (StatusOk, (r', md)) ∧
    VerifyDimensions
      (with_metadata
         (if keep_dct dparams then Main_jpeg_data_moved whole else whole) md)
      (metadata_xsize md) (metadata_ysize md) = StatusOk ∧
    if WantICC (color_encoding (m md))
    then ∃ r icc c,
           ReadICC r' = (StatusOk, (r, icc)) ∧
           SetICC (color_encoding (m md)) icc = (StatusOk, c) ∧
           metadata whole'
           = metadata
               (with_color_encoding
                  (with_metadata
                     (if keep_dct dparams then Main_jpeg_data_moved whole
                      else whole) md) c)
    else metadata whole' = md.
Proof.
  intros Hcheck Hrun. unfold DecodeFile in Hrun.
  case_bool_decide as Hsig; [done|].
  destruct (DecodeFile_entry dparams whole) as [Hentry|Hentry];
    rewrite Hentry in Hrun; [done|].
  set (jpeg := if keep_dct dparams then Main_jpeg_data whole else None) in *.
  set (whole1 := if keep_dct dparams then Main_jpeg_data_moved whole else whole)
    in *.
  pose proof (body_spec fuel dparams file jpeg whole1) as Hbody.
  destruct (body fuel dparams file jpeg whole1) as [s|st s| |] eqn:Hb;
    simpl in Hbody; try done.
  2:{ injection Hrun as -> _. by destruct Hbody. }
  injection Hrun as Hst <-.
  destruct Hbody as (sl & l & Hat & Hloop & Hio & _).
  destruct Hat as ((r' & md & Hm & _ & _ & Hver & Hicc) & _).
  exists r', md. split_and!; try done.
  rewrite Hio, Hcheck. simpl. exact Hicc.
Qed.

(** X21.  When [DecodeFile] succeeds with [keep_dct], the payload that the caller
    had set fits the profile of the decoded metadata: every [kICC] marker
    has its 17 bytes of header, no marker asks for more than is left, and
    the bytes that the [kICC] markers hold after their headers are as many
    as the profile has, or none at all. *)
Theorem DecodeFile_payload_fits fuel dparams file whole whole' p :
  (∀ w, metadata (CheckMetadata w) = metadata w) →
  keep_dct dparams = true →
  Main_jpeg_data whole = Some p →
  (DecodeFile kICC kRegularFrame kSkipProgressive JXL_SIG_NOT_ENOUGH_BYTES
     JXL_SIG_INVALID JxlSignatureCheck kOn kOff ReadSizeHeader
     ReadImageMetadata Bundle_Read set_nonserialized_xyb_encoded metadata_xsize
     metadata_ysize VerifyDimensions WantICC ReadICC SetICC ICC BitReader_new
     ReadFixedBits_16 JumpToByteBoundary TotalBitsConsumed AllReadsWithinBounds
     Close kBitsPerByte BitReaderScopedCloser_ret SkipFrame DecodeFrame_
     new_PassesDecoderState xsize_upsampled ysize_upsampled frame_header_
     set_do_colorspace_transform ImageBundle_new ImageBundle_set_jpeg_data
     ImageBundle_xsize ImageBundle_ysize Main_jpeg_data Main_jpeg_data_moved
     CheckMetadata fuel dparams file whole) = Finished FileOk whole' →
  addressable (ICC (color_encoding (m (metadata whole')))) p →
  icc_markers_have_header kICC p ∧
  (∀ i, ¬ needs_more_than_left kICC
            (ICC (color_encoding (m (metadata whole')))) p i) ∧
  (icc_offset kICC p (length (app_data p)) = 0
   ∨ icc_offset kICC p (length (app_data p))
     = size (ICC (color_encoding (m (metadata whole'))))).
Proof.
  intros Hcheck Hkeep Hmain Hrun Haddr. unfold DecodeFile in Hrun.
  case_bool_decide as Hsig; [done|].
  rewrite Hkeep, Hmain in Hrun.
  pose proof (body_spec fuel dparams file (Some p) (Main_jpeg_data_moved whole))
    as Hbody.
  destruct (body fuel dparams file (Some p) (Main_jpeg_data_moved whole))
    as [s|st s| |] eqn:Hb; simpl in Hbody; try done.
  2:{ injection Hrun as -> _. by destruct Hbody. }
  injection Hrun as Hst <-.
  destruct Hbody as (sl & l & Hat & Hloop & Hio & _).
  destruct Hat as (_ & _ & _ & _ & Hicc0).
  assert (SetICCInJpegData kICC (ICC (color_encoding (m (metadata (fs_io sl)))))
            (Some p) = Next (fs_jpeg_data sl)) as Hicc by exact Hicc0.
  clear Hicc0. rewrite Hio in Haddr |- *.
  rewrite Hcheck in Haddr |- *. simpl in Haddr |- *.
  pose proof (SetICCInJpegData_spec kICC _ p Haddr) as Hspec.
  cbv zeta in Hspec. rewrite Hicc in Hspec.
  destruct Hspec as (_ & Hhdr & Hnone & _ & Htotal). done.
Qed.

(** ** The JPEG payload through DecodeFile *)

Section Reconstruction.

(** [ib.jpeg_data] read back, for a DecodeFrame that leaves this member of
    the bundle it decodes into as it finds it. *)
Variable get_jpeg_data : ImageBundle → option (JPEGData AppMarkerType).
Hypothesis get_new : ∀ im, get_jpeg_data (ImageBundle_new im) = None.
Hypothesis get_set : ∀ b payload,
  get_jpeg_data (ImageBundle_set_jpeg_data b payload) = Some payload.
Hypothesis get_decoded : ∀ dp ds r slot md now is_preview st ds' r' f,
  DecodeFrame_ dp ds r slot md now is_preview = (st, (ds', r', f)) →
  get_jpeg_data f = get_jpeg_data slot.

(** X19.  When [DecodeFile] succeeds with [keep_dct], the payload that the
    caller had set is in the first frame of the result and in no other
    one, with the layout it had, and its [kICC] markers carry the profile
    of the decoded metadata, or they carry no byte at all and the payload
    is as the caller had set it. *)
Theorem DecodeFile_payload fuel dparams file whole whole' p :
  (∀ w, frames_and_pixels (CheckMetadata w) = frames_and_pixels w ∧
        metadata (CheckMetadata w) = metadata w) →
  keep_dct dparams = true →
  Main_jpeg_data whole = Some p →
  (DecodeFile kICC kRegularFrame kSkipProgressive JXL_SIG_NOT_ENOUGH_BYTES
     JXL_SIG_INVALID JxlSignatureCheck kOn kOff ReadSizeHeader
     ReadImageMetadata Bundle_Read set_nonserialized_xyb_encoded metadata_xsize
     metadata_ysize VerifyDimensions WantICC ReadICC SetICC ICC BitReader_new
     ReadFixedBits_16 JumpToByteBoundary TotalBitsConsumed AllReadsWithinBounds
     Close kBitsPerByte BitReaderScopedCloser_ret SkipFrame DecodeFrame_
     new_PassesDecoderState xsize_upsampled ysize_upsampled frame_header_
     set_do_colorspace_transform ImageBundle_new ImageBundle_set_jpeg_data
     ImageBundle_xsize ImageBundle_ysize Main_jpeg_data Main_jpeg_data_moved
     CheckMetadata fuel dparams file whole) = Finished FileOk whole' →
  addressable (ICC (color_encoding (m (metadata whole')))) p →
  ∃ p' f v,
    frames (frames_and_pixels whole') = f :: v ∧
    get_jpeg_data f = Some p' ∧
    Forall (λ g, get_jpeg_data g = None) v ∧
    same_layout p p' ∧
    (icc_from_markers kICC p' = ICC (color_encoding (m (metadata whole')))
     ∨ icc_from_markers kICC p' = [] ∧ p' = p).
Proof.
  intros Hcheck Hkeep Hmain Hrun Haddr. unfold DecodeFile in Hrun.
  case_bool_decide as Hsig; [done|].
  rewrite Hkeep, Hmain in Hrun.
  pose proof (body_spec fuel dparams file (Some p) (Main_jpeg_data_moved whole))
    as Hbody.
  destruct (body fuel dparams file (Some p) (Main_jpeg_data_moved whole))
    as [s|st s| |] eqn:Hb; simpl in Hbody; try done.
  2:{ injection Hrun as -> _. by destruct Hbody. }
  injection Hrun as Hst <-.
  destruct Hbody as (sl & l & Hat & Hloop & Hio & _).
  destruct Hat as (_ & _ & _ & _ & Hicc0).
  assert (SetICCInJpegData kICC (ICC (color_encoding (m (metadata (fs_io sl)))))
            (Some p) = Next (fs_jpeg_data sl)) as Hicc by exact Hicc0.
  clear Hicc0. rewrite Hio in Haddr |- *.
  rewrite (proj1 (Hcheck _)). rewrite (proj2 (Hcheck _)) in Haddr |- *.
  simpl in Haddr |- *.
  pose proof (block_same_layout kICC _ p Haddr) as Hlay.
  rewrite Hicc in Hlay. destruct Hlay as (p' & Hp' & Hlay).
  rewrite Hp' in Hicc, Hloop.
  pose proof (block_round_trip kICC _ p p' Haddr Hicc) as Hround.
  unfold frame_sequencer in Hloop.
  match type of Hloop with
  | decode_frames _ _ _ ?new ?set ?xs ?ys ?dec _ _ ?s0 = _ =>
      pose proof (decode_frames_payload kRegularFrame kSkipProgressive
                    frame_header_ new set xs ys dec get_jpeg_data
                    (get_new _) get_set) as Hpay;
      specialize (Hpay ltac:(intros ????????; apply get_decoded) fuel fuel s0)
  end.
  rewrite Hloop in Hpay. destruct Hpay as (f & v & Hv & Hget & Hall & _).
  simpl in Hv, Hget.
  exists p', f, v. split_and!; done.
Qed.

End Reconstruction.

End DecodeFile_facts.

(** * Examples of the further properties *)

(** The block stays within the vectors of the example payload. *)
Lemma SetICCInJpegData_defined_witness :
  icc_markers_have_room ex_kICC ex_payload ∧
  addressable ex_icc ex_payload ∧
  SetICCInJpegData ex_kICC ex_icc (Some ex_payload) ≠ Undefined.
Proof.
  assert (icc_markers_have_room ex_kICC ex_payload) as Hroom.
  { apply ex_payload_have_room. ex_room. }
  assert (addressable ex_icc ex_payload) as Haddr.
  { apply ex_payload_addressable. repeat constructor. }
  split_and!; [done | done |].
  apply (SetICCInJpegData_defined ex_kICC ex_icc ex_payload eq_refl Hroom Haddr).
Defined.

(** A payload that starts with a [kICC] marker of 16 bytes is refused with
    an underrun. *)
Lemma SetICCInJpegData_short_marker_witness :
  addressable ex_icc ex_payload_short_first ∧
  match SetICCInJpegData ex_kICC ex_icc (Some ex_payload_short_first) with
  | Return st _ =>
      ∃ len avail, st = StatusFailure (ICC_length_is_less_than_APP_markers len avail)
  | Next _ | OutOfFuel => False
  | Undefined => True
  end.
Proof.
  assert (addressable ex_icc ex_payload_short_first) as Haddr.
  { apply ex_payload_addressable. repeat constructor. }
  split; [done|].
  apply (SetICCInJpegData_short_marker ex_kICC ex_icc ex_payload_short_first
           0%nat (replicate 16 Byte.x00) Haddr eq_refl eq_refl).
  reflexivity.
Defined.

(** At a first [kICC] marker of 16 bytes the length wraps around to
    2^64 - 1, which is more than the 5 bytes of the profile. *)
Lemma SetICCInJpegData_first_short_marker_witness :
  addressable ex_icc ex_payload_short_first ∧
  SetICCInJpegData ex_kICC ex_icc (Some ex_payload_short_first)
  = Return (StatusFailure
              (ICC_length_is_less_than_APP_markers 18446744073709551615 5))
      (Some ex_payload_short_first).
Proof.
  assert (addressable ex_icc ex_payload_short_first) as Haddr.
  { apply ex_payload_addressable. repeat constructor. }
  split; [done|].
  rewrite (SetICCInJpegData_first_short_marker ex_kICC ex_icc
             ex_payload_short_first 0%nat (replicate 16 Byte.x00) Haddr).
  - reflexivity.
  - intros j Hj. lia.
  - reflexivity.
  - reflexivity.
  - reflexivity.
Defined.

(** The example payload keeps its layout. *)
Lemma SetICCInJpegData_keeps_layout_witness :
  addressable ex_icc ex_payload ∧ same_layout ex_payload ex_payload_done.
Proof.
  assert (addressable ex_icc ex_payload) as Haddr.
  { apply ex_payload_addressable. repeat constructor. }
  split; [done|].
  pose proof (SetICCInJpegData_keeps_layout ex_kICC ex_icc ex_payload Haddr)
    as Hlay.
  rewrite ex_distributed in Hlay.
  destruct Hlay as (jd' & Hjd' & Hlay). by injection Hjd' as <-.
Defined.

(** The profile is read back from the example payload. *)
Lemma SetICCInJpegData_round_trip_witness :
  addressable ex_icc ex_payload ∧
  SetICCInJpegData ex_kICC ex_icc (Some ex_payload) = Next (Some ex_payload_done) ∧
  (icc_from_markers ex_kICC ex_payload_done = ex_icc
   ∨ icc_from_markers ex_kICC ex_payload_done = [] ∧ ex_payload_done = ex_payload).
Proof.
  assert (addressable ex_icc ex_payload) as Haddr.
  { apply ex_payload_addressable. repeat constructor. }
  split_and!; [done | reflexivity |].
  apply (SetICCInJpegData_round_trip ex_kICC ex_icc ex_payload ex_payload_done
           Haddr).
  reflexivity.
Defined.

(** The block accepts the example payload a second time. *)
Lemma SetICCInJpegData_idempotent_witness :
  addressable ex_icc ex_payload ∧
  SetICCInJpegData ex_kICC ex_icc (Some ex_payload) = Next (Some ex_payload_done) ∧
  SetICCInJpegData ex_kICC ex_icc (Some ex_payload_done)
  = Next (Some ex_payload_done).
Proof.
  assert (addressable ex_icc ex_payload) as Haddr.
  { apply ex_payload_addressable. repeat constructor. }
  split_and!; [done | reflexivity |].
  apply (SetICCInJpegData_idempotent ex_kICC ex_icc ex_payload ex_payload_done
           Haddr).
  reflexivity.
Defined.

(** With an empty profile, the example payload is refused at its first
    marker, which has two bytes after its header, and is left as it
    was. *)
Lemma SetICCInJpegData_empty_profile_witness :
  addressable [] ex_payload ∧
  ∃ st r,
    SetICCInJpegData ex_kICC [] (Some ex_payload) = Return st r ∧
    r = Some ex_payload ∧
    ∃ i d,
      app_data ex_payload !! i = Some d ∧
      st = StatusFailure
             (ICC_length_is_less_than_APP_markers (size_t_sub (size d) 17) 0).
Proof.
  assert (addressable [] ex_payload) as Haddr.
  { apply (ex_payload_well_formed [] ex_payload); [reflexivity | ex_markers]. }
  split; [done|].
  pose proof (SetICCInJpegData_empty_profile ex_kICC ex_payload Haddr) as Hrun.
  destruct (SetICCInJpegData ex_kICC [] (Some ex_payload)) as [r|st r| |] eqn:E;
    try discriminate E.
  destruct Hrun as (Hr & i & d & _ & _ & Hd & _ & Hst).
  exists st, r. split_and!; [done | done |]. by exists i, d.
Defined.

(** The scripted stream: 5 pixels on entry, 4x3 and 2x2 decoded. *)
Lemma frame_sequencer_counts_pixels_witness :
  ex_frame_sequencer 4 ex_start = Next ex_end ∧
  dec_pixels (io ex_end)
  = size_t_wrap (dec_pixels (io ex_start)
                 + frames_pixels ex_xsize ex_ysize (frames (io ex_end))).
Proof.
  split; [reflexivity|].
  apply (frame_sequencer_counts_pixels 0%nat 3%nat id (mkExBundle None 0 0 None)
           (λ b payload, mkExBundle (ex_type b) (ex_xsize b) (ex_ysize b) (Some payload))
           ex_xsize ex_ysize ex_DecodeFrame 4 ex_start ex_end).
  reflexivity.
Defined.

(** The scripted stream ends with the call that decodes its frame of type
    [kSkipProgressive]. *)
Lemma frame_sequencer_stops_at_last_witness :
  ex_frame_sequencer 4 ex_start = Next ex_end ∧
  ∃ ds r slot io0 f,
    ex_DecodeFrame ds r slot io0 = (StatusOk, (dec_state ex_end, reader ex_end, f)) ∧
    last (frames (io ex_end)) = Some f ∧
    is_displayed 0%nat 3%nat (frame_type (dec_state ex_end)) ∧
    is_last (dec_state ex_end) = true.
Proof.
  split; [reflexivity|].
  apply (frame_sequencer_stops_at_last 0%nat 3%nat id (mkExBundle None 0 0 None)
           (λ b payload, mkExBundle (ex_type b) (ex_xsize b) (ex_ysize b) (Some payload))
           ex_xsize ex_ysize ex_DecodeFrame 4 ex_start ex_end).
  reflexivity.
Defined.

(** The truncated stream: the failure is the one of the scripted decoder
    at the end of its script. *)
Lemma frame_sequencer_propagates_failure_witness :
  ∃ s', ex_frame_sequencer 4 ex_truncated = Return (StatusFailure Callee_failure) s' ∧
        ∃ ds r slot io0 f v,
          ex_DecodeFrame ds r slot io0
          = (StatusFailure Callee_failure, (dec_state s', reader s', f)) ∧
          frames (io s') = v ++ [f] ∧
          Forall (decoded_as_displayed 0%nat 3%nat id ex_DecodeFrame) v.
Proof.
  eexists. split; [reflexivity|].
  eapply (frame_sequencer_propagates_failure 0%nat 3%nat id
            (mkExBundle None 0 0 None)
            (λ b payload, mkExBundle (ex_type b) (ex_xsize b) (ex_ysize b) (Some payload))
            ex_xsize ex_ysize ex_DecodeFrame 4 ex_truncated).
  reflexivity.
Defined.

(** The payload 42 of the scripted stream is in the first frame of the
    result. *)
Lemma frame_sequencer_payload_in_first_frame_witness :
  ∃ f v, frames (io ex_end) = f :: v ∧
         ex_jpeg f = Some 42%nat ∧
         Forall (λ g, ex_jpeg g = None) v ∧
         jpeg_data ex_end = None.
Proof.
  assert (∀ ds r slot io0 st ds' r' f,
            ex_DecodeFrame ds r slot io0 = (st, (ds', r', f)) →
            ex_jpeg f = ex_jpeg slot) as Hdec.
  { intros ds r slot io0 st ds' r' f.
    destruct r as [|[[[t l] x] y] r0]; simpl; by intros [= _ _ _ <-]. }
  pose proof (frame_sequencer_payload_in_first_frame 0%nat 3%nat id
                (mkExBundle None 0 0 None)
                (λ b payload,
                   mkExBundle (ex_type b) (ex_xsize b) (ex_ysize b) (Some payload))
                ex_xsize ex_ysize ex_DecodeFrame ex_jpeg eq_refl
                (λ _ _, eq_refl) Hdec 4 ex_start) as Hpay.
  pose proof ex_frames as Hrun. unfold ex_frame_sequencer in Hrun.
  rewrite Hrun in Hpay. exact Hpay.
Defined.

(** The frames of the toy codec keep the payload of the bundle they are
    decoded into. *)
Lemma toy_DecodeFrame_keeps_payload dp ds r slot md now is_preview st ds' r' f :
  toy_DecodeFrame dp ds r slot md now is_preview = (st, (ds', r', f)) →
  toy_jpeg f = toy_jpeg slot.
Proof.
  unfold toy_DecodeFrame.
  destruct (toy_read 4 r) as [[|why] [r1 [|t [|l [|x [|y [|z v]]]]]]];
    by intros [= _ _ _ <-].
Defined.

(** [DecodePreview] on a file without preview, the preview being asked
    for. *)
Lemma DecodePreview_effects_witness :
  DecodePreview 1%nat 2%nat (λ r : toy_reader, (StatusOk, r)) toy_SkipFrame
    toy_DecodeFrame (mkToyDecState (mkFrameHeader 0%nat false) 0 0)
    toy_xsize_upsampled toy_ysize_upsampled (toy_params false 1)
    (metadata (toy_decoded None))
    {| pv_reader := mkToyReader [] 0 true;
       pv_preview := mkToyBundle None 0 0 None; pv_dec_pixels := Some 7 |}
  = (FileFailure preview_is_kOn_but_no_preview_present,
     {| pv_reader := mkToyReader [] 0 true;
        pv_preview := mkToyBundle None 0 0 None; pv_dec_pixels := Some 7 |}).
Proof.
  destruct (DecodePreview_effects 1%nat 2%nat (λ r : toy_reader, (StatusOk, r))
              toy_SkipFrame toy_DecodeFrame
              (mkToyDecState (mkFrameHeader 0%nat false) 0 0)
              toy_xsize_upsampled toy_ysize_upsampled (toy_params false 1)
              (metadata (toy_decoded None))
              {| pv_reader := mkToyReader [] 0 true;
                 pv_preview := mkToyBundle None 0 0 None;
                 pv_dec_pixels := Some 7 |}) as (Hnone & _).
  destruct (Hnone eq_refl) as [Hpv Hst].
  apply injective_projections; [exact Hst | exact Hpv].
Defined.

(** The toy file with the flag of an animation is refused with
    [keep_dct]. *)
Lemma DecodeFile_animation_guard_witness :
  ∃ st whole',
    toy_DecodeFile 9 (toy_params true 0) toy_file_animation
      (toy_whole (Some ex_payload)) = Finished st whole' ∧
    st ≠ FileOk ∧
    frames (frames_and_pixels whole')
    = frames (frames_and_pixels (toy_Main_jpeg_data_moved (toy_whole (Some ex_payload)))).
Proof.
  pose proof (on_toy (@DecodeFile_animation_guard) 9%nat (toy_params true 0)
                toy_file_animation (toy_whole (Some ex_payload)) eq_refl)
    as Hguard.
  eexists _, _. split; [reflexivity|].
  change (on_toy (@DecodeFile) 9%nat (toy_params true 0) toy_file_animation
            (toy_whole (Some ex_payload)))
    with (toy_DecodeFile 9 (toy_params true 0) toy_file_animation
            (toy_whole (Some ex_payload))) in Hguard.
  destruct Hguard as [Hst _].
  - intros r' md Hhdr. vm_compute in Hhdr. by injection Hhdr as _ <-.
  - split; [exact Hst | reflexivity].
Defined.

(** The toy file has no preview: asking for one makes [DecodeFile]
    fail. *)
Lemma DecodeFile_preview_demanded_witness :
  ∃ st whole',
    toy_DecodeFile 9 (toy_params false 1) toy_file (toy_whole None)
    = Finished st whole' ∧
    st ≠ FileOk ∧
    frames (frames_and_pixels whole') = frames (frames_and_pixels (toy_whole None)).
Proof.
  pose proof (on_toy (@DecodeFile_preview_demanded) 9%nat (toy_params false 1)
                toy_file (toy_whole None) eq_refl) as Hguard.
  eexists _, _. split; [reflexivity|].
  change (on_toy (@DecodeFile) 9%nat (toy_params false 1) toy_file
            (toy_whole None))
    with (toy_DecodeFile 9 (toy_params false 1) toy_file (toy_whole None))
    in Hguard.
  destruct Hguard as [Hst _].
  - intros r' md Hhdr. vm_compute in Hhdr. by injection Hhdr as _ <-.
  - split; [exact Hst | reflexivity].
Defined.

(** The toy file is decoded to its last bit: 23 bytes, 184 bits. *)
Lemma DecodeFile_strict_size_witness :
  toy_DecodeFile 9 (toy_params true 0) toy_file (toy_whole (Some ex_payload))
  = Finished FileOk (toy_decoded (Some ex_payload_done)) ∧
  ∃ s : file_state nat toy_reader toy_bundle (Z * Z) toy_color bool unit,
    fs_io s = toy_decoded (Some ex_payload_done) ∧
    toy_within (fs_reader s) = true ∧
    toy_bits (fs_reader s) = 184.
Proof.
  assert (toy_DecodeFile 9 (toy_params true 0) toy_file
            (toy_whole (Some ex_payload))
          = Finished FileOk (toy_decoded (Some ex_payload_done))) as Hrun
    by reflexivity.
  split; [exact Hrun|].
  destruct (on_toy (@DecodeFile_strict_size) 9%nat (toy_params true 0) toy_file
              (toy_whole (Some ex_payload)) (toy_decoded (Some ex_payload_done))
              Hrun eq_refl eq_refl eq_refl)
    as (s & _ & Hio & Hret & Hbits).
  exists s. split_and!; [exact Hio | | exact Hbits].
  by destruct (toy_within (fs_reader s)).
Defined.

(** What the success of [DecodeFile] on the toy file tells. *)
Lemma DecodeFile_success_witness :
  toy_DecodeFile 9 (toy_params true 0) toy_file (toy_whole (Some ex_payload))
  = Finished FileOk (toy_decoded (Some ex_payload_done)) ∧
  is_Some (toy_Main_jpeg_data (toy_whole (Some ex_payload))) ∧
  frames (frames_and_pixels (toy_decoded (Some ex_payload_done))) ≠ [] ∧
  ∃ w, Forall (decoded_as_displayed 0%nat 3%nat toy_header
                 (DecodeFrame_in_loop toy_DecodeFrame (toy_params true 0) w))
         (frames (frames_and_pixels (toy_decoded (Some ex_payload_done)))).
Proof.
  assert (toy_DecodeFile 9 (toy_params true 0) toy_file
            (toy_whole (Some ex_payload))
          = Finished FileOk (toy_decoded (Some ex_payload_done))) as Hrun
    by reflexivity.
  split; [exact Hrun|].
  destruct (on_toy (@DecodeFile_success) 9%nat (toy_params true 0) toy_file
              (toy_whole (Some ex_payload)) (toy_decoded (Some ex_payload_done))
              (λ w, eq_refl) Hrun)
    as (_ & _ & Hkeep & Hne & Hall).
  destruct (Hkeep eq_refl) as [Hmain _].
  split_and!; [exact Hmain | exact Hne | exact Hall].
Defined.

(** Without [keep_dct], [DecodeFile] on the toy file is defined. *)
Lemma DecodeFile_defined_witness :
  toy_DecodeFile 9 (toy_params false 0) toy_file (toy_whole None) ≠ FileUndefined.
Proof.
  apply (on_toy (@DecodeFile_defined) 9%nat (toy_params false 0) toy_file
           (toy_whole None) eq_refl).
Defined.

(** The toy file: seven pixels on entry, 4x3 and 2x2 decoded. *)
Lemma DecodeFile_counts_pixels_witness :
  toy_DecodeFile 9 (toy_params false 0) toy_file (toy_whole None)
  = Finished FileOk (toy_decoded None) ∧
  dec_pixels (frames_and_pixels (toy_decoded None))
  = size_t_wrap
      (dec_pixels (frames_and_pixels (toy_whole None))
       + frames_pixels toy_xsize toy_ysize
           (frames (frames_and_pixels (toy_decoded None)))).
Proof.
  split; [reflexivity|].
  apply (on_toy (@DecodeFile_counts_pixels) 9%nat (toy_params false 0) toy_file
           (toy_whole None) (toy_decoded None) (λ w, eq_refl)).
  - intros r' md Hhdr. vm_compute in Hhdr. by injection Hhdr as _ <-.
  - reflexivity.
Defined.

(** The payload of the caller comes back in the first frame, with the
    profile of the toy file in its [kICC] markers. *)
Lemma DecodeFile_payload_witness :
  toy_DecodeFile 9 (toy_params true 0) toy_file (toy_whole (Some ex_payload))
  = Finished FileOk (toy_decoded (Some ex_payload_done)) ∧
  ∃ p' f v,
    frames (frames_and_pixels (toy_decoded (Some ex_payload_done))) = f :: v ∧
    toy_jpeg f = Some p' ∧
    Forall (λ g, toy_jpeg g = None) v ∧
    same_layout ex_payload p' ∧
    (icc_from_markers ex_kICC p' = ex_icc
     ∨ icc_from_markers ex_kICC p' = [] ∧ p' = ex_payload).
Proof.
  assert (toy_DecodeFile 9 (toy_params true 0) toy_file
            (toy_whole (Some ex_payload))
          = Finished FileOk (toy_decoded (Some ex_payload_done))) as Hrun
    by reflexivity.
  split; [exact Hrun|].
  apply (on_toy (@DecodeFile_payload) toy_jpeg (λ im, eq_refl)
           (λ b payload, eq_refl) toy_DecodeFrame_keeps_payload 9%nat
           (toy_params true 0) toy_file (toy_whole (Some ex_payload))
           (toy_decoded (Some ex_payload_done)) ex_payload
           (λ w, conj eq_refl eq_refl) eq_refl eq_refl Hrun).
  apply ex_payload_addressable. repeat constructor.
Defined.

(** The metadata that [DecodeFile] leaves for the toy file are its
    headers with the profile that follows them. *)
Lemma DecodeFile_metadata_witness :
  toy_DecodeFile 9 (toy_params false 0) toy_file (toy_whole None)
  = Finished FileOk (toy_decoded None) ∧
  ∃ r' md r icc,
    DecodeHeaders toy_ReadSizeHeader toy_ReadImageMetadata
      (λ (r : toy_reader) (td : bool), (StatusOk, (r, td))) (λ (td b : bool), b)
      (mkToyReader (drop 2 toy_file) 16 true) (metadata (toy_whole None))
    = (StatusOk, (r', md)) ∧
    size_header md = (4, 3) ∧
    toy_ReadICC r' = (StatusOk, (r, icc)) ∧
    color_encoding (m (metadata (toy_decoded None))) = (icc, true).
Proof.
  assert (toy_DecodeFile 9 (toy_params false 0) toy_file (toy_whole None)
          = Finished FileOk (toy_decoded None)) as Hrun by reflexivity.
  split; [exact Hrun|].
  destruct (on_toy (@DecodeFile_metadata) 9%nat (toy_params false 0) toy_file
              (toy_whole None) (toy_decoded None) (λ w, eq_refl) Hrun)
    as (r' & md & Hm & Hver & Hicc).
  pose proof Hm as Hmd. vm_compute in Hmd. injection Hmd as Hr' Hmd.
  rewrite <-Hmd in Hicc. simpl in Hicc.
  destruct Hicc as (r & icc & c & Hread & Hset & Hmeta).
  exists r', md, r, icc. split_and!.
  - exact Hm.
  - by rewrite <-Hmd.
  - exact Hread.
  - apply (f_equal (λ x : toy_metadata, color_encoding (m x))) in Hmeta.
    etrans; [exact Hmeta|]. by injection Hset as <-.
Defined.

(** The example payload fits the profile of the toy file. *)
Lemma DecodeFile_payload_fits_witness :
  toy_DecodeFile 9 (toy_params true 0) toy_file (toy_whole (Some ex_payload))
  = Finished FileOk (toy_decoded (Some ex_payload_done)) ∧
  icc_markers_have_header ex_kICC ex_payload ∧
  (∀ i, ¬ needs_more_than_left ex_kICC ex_icc ex_payload i) ∧
  (icc_offset ex_kICC ex_payload 3 = 0 ∨ icc_offset ex_kICC ex_payload 3 = 5).
Proof.
  assert (toy_DecodeFile 9 (toy_params true 0) toy_file
            (toy_whole (Some ex_payload))
          = Finished FileOk (toy_decoded (Some ex_payload_done))) as Hrun
    by reflexivity.
  split; [exact Hrun|].
  apply (on_toy (@DecodeFile_payload_fits) 9%nat (toy_params true 0) toy_file
           (toy_whole (Some ex_payload)) (toy_decoded (Some ex_payload_done))
           ex_payload (λ w, eq_refl) eq_refl eq_refl Hrun).
  apply ex_payload_addressable. repeat constructor.
Defined.
